(** * ShuttleMidi: a shallow embedding of the decoder, router, dispatcher
      and session code, with the properties of its specification.

    Sources embedded:
    - [devices/shuttlexpress.go]  (report decoder, [readdevice]),
    - [devices/midicontroller.go] (command dispatcher, [commandExecutor],
      [Open], [SendCommand], [Close]),
    - the main package              ([readshuttle], [startListeners]).

    Conventions.  Go's [uint8] and [int8] values are integers in [Z]; every
    conversion and every arithmetic operation of the source that can wrap is
    written with [uint8] or [int8] below.  A Go channel is modelled by what
    the code can observe of it: whether it is nil, and for the buffered
    mailbox its queue.  Goroutine launches, sink writes and dialogs are
    recorded as effects in the order the code performs them. *)

From Stdlib Require Import ZArith List Bool String Lia.
From stdpp Require Import base tactics option list gmap fin_maps.

Local Open Scope Z_scope.

(* ===================================================================== *)
(** * Machine integers *)
(* ===================================================================== *)

Module GoInt.

(** Conversion to [uint8]: reduction modulo 256. *)
Definition uint8 (z : Z) : Z := z mod 256.

(** Conversion to [int8]: two's complement on 8 bits. *)
Definition int8 (z : Z) : Z := (z + 128) mod 256 - 128.

Lemma uint8_range z : 0 <= uint8 z < 256.
Proof. unfold uint8. apply Z.mod_pos_bound. lia. Qed.

Lemma int8_range z : -128 <= int8 z <= 127.
Proof. unfold int8. pose proof (Z.mod_pos_bound (z + 128) 256). lia. Qed.

Lemma uint8_id z : 0 <= z < 256 -> uint8 z = z.
Proof. intros H. unfold uint8. apply Z.mod_small. lia. Qed.

Lemma int8_id z : -128 <= z <= 127 -> int8 z = z.
Proof. intros H. unfold int8. rewrite Z.mod_small; lia. Qed.

End GoInt.

Import GoInt.

(* ===================================================================== *)
(** * Errors and call outcomes *)
(* ===================================================================== *)

(** The package-level error values of [devices], and the errors that come
    from the HID and MIDI libraries (carried by their text). *)
Inductive error : Type :=
| ErrMIDIDeviceNotFound
| ErrMIDIDeviceNotInitialized
| ErrShuttleExpressDeviceNotFound
| ErrShuttleExpressDeviceNotOpened
| ErrLibrary (msg : string).

Definition error_text (e : error) : string :=
  match e with
  | ErrMIDIDeviceNotFound => "MIDI Device not found"
  | ErrMIDIDeviceNotInitialized => "MIDI Device not initialized"
  | ErrShuttleExpressDeviceNotFound => "no ShuttlExpress found"
  | ErrShuttleExpressDeviceNotOpened => "ShuttlExpress: No device opened"
  | ErrLibrary msg => msg
  end.

(** How a call ends: it returns a value, it panics, or it blocks forever on
    a channel operation that can never proceed. *)
Inductive outcome (A : Type) : Type :=
| Returns (a : A)
| Panics (msg : string)
| Blocks.

Arguments Returns {A} a.
Arguments Panics {A} msg.
Arguments Blocks {A}.

(* ===================================================================== *)
(** * Commands and control events *)
(* ===================================================================== *)

(** [midiControllerCommand] of midicontroller.go. *)
Record midiControllerCommand : Type := mkCommand {
  controller : Z;   (* uint8 *)
  value : Z;        (* uint8 *)
  repeat : bool
}.

(** The five hardware buttons; each has its own channel in
    [ShuttleStatus]. *)
Inductive button : Type := Button1 | Button2 | Button3 | Button4 | Button5.

Definition button_id (b : button) : Z :=
  match b with
  | Button1 => 1 | Button2 => 2 | Button3 => 3 | Button4 => 4 | Button5 => 5
  end.

(** A value received from one of the seven event channels of
    [ShuttleStatus]: [Wheel_position] and [Dial_direction] carry an [int8],
    [ButtonN_pressed] a [bool]. *)
Inductive ControlEvent : Type :=
| WheelPosition (wp : Z)
| DialStep (dd : Z)
| ButtonEdge (b : button) (pressed : bool).

(* ===================================================================== *)
(** * Event router: [readshuttle] *)
(* ===================================================================== *)

Module Router.

(** The body of one receive case of the [select] in [readshuttle]: the
    [SendCommand] calls it makes, in order.  The arithmetic on [wp] is
    [int8] arithmetic, converted to [uint8] at the end, as in
    [uint8(18*(8-wp))]. *)
Definition readshuttle_case (ev : ControlEvent) : list midiControllerCommand :=
  match ev with
  | WheelPosition wp =>
      if (0 <? wp) && (wp <=? 7) then
        [mkCommand 0 (uint8 (int8 (18 * int8 (8 - wp)))) true]
      else if (-7 <=? wp) && (wp <? 0) then
        [mkCommand 1 (uint8 (int8 (18 * int8 (- wp)))) true]
      else
        [mkCommand 0 255 false; mkCommand 1 255 false]
  | DialStep dd =>
      if dd =? 1 then [mkCommand 2 2 false] else [mkCommand 2 1 false]
  | ButtonEdge Button1 b1 =>
      if b1 then [mkCommand 3 127 false] else [mkCommand 3 0 false]
  | ButtonEdge Button2 b2 =>
      if b2 then [mkCommand 4 127 false] else [mkCommand 4 0 false]
  | ButtonEdge Button3 b3 =>
      if b3 then [mkCommand 5 127 false] else [mkCommand 5 0 false]
  | ButtonEdge Button4 b4 =>
      if b4 then [mkCommand 6 127 false] else [mkCommand 6 0 false]
  | ButtonEdge Button5 b5 =>
      if b5 then [mkCommand 7 127 false] else [mkCommand 7 0 false]
  end.

(** The commands produced for a sequence of received events. *)
Definition readshuttle_cases (evs : list ControlEvent) : list midiControllerCommand :=
  flat_map readshuttle_case evs.

Example wheel_3 : readshuttle_case (WheelPosition 3) = [mkCommand 0 90 true].
Proof. reflexivity. Qed.

Example wheel_minus_2 : readshuttle_case (WheelPosition (-2)) = [mkCommand 1 36 true].
Proof. reflexivity. Qed.

Example wheel_rest :
  readshuttle_case (WheelPosition 0) = [mkCommand 0 255 false; mkCommand 1 255 false].
Proof. reflexivity. Qed.

Lemma wheel_up (p : Z) :
  1 <= p <= 7 ->
  readshuttle_case (WheelPosition p) = [mkCommand 0 (18 * (8 - p)) true].
Proof.
  intros Hp. cbn.
  replace (0 <? p) with true by (symmetry; apply Z.ltb_lt; lia).
  replace (p <=? 7) with true by (symmetry; apply Z.leb_le; lia).
  cbn. rewrite (int8_id (8 - p)) by lia.
  rewrite int8_id by lia. rewrite uint8_id by lia. reflexivity.
Qed.

Lemma wheel_down (p : Z) :
  -7 <= p <= -1 ->
  readshuttle_case (WheelPosition p) = [mkCommand 1 (18 * (- p)) true].
Proof.
  intros Hp. cbn.
  replace (0 <? p) with false by (symmetry; apply Z.ltb_ge; lia).
  replace (-7 <=? p) with true by (symmetry; apply Z.leb_le; lia).
  replace (p <? 0) with true by (symmetry; apply Z.ltb_lt; lia).
  cbn. rewrite (int8_id (- p)) by lia.
  rewrite int8_id by lia. rewrite uint8_id by lia. reflexivity.
Qed.

Lemma wheel_release (p : Z) :
  p = 0 \/ p < -7 \/ 7 < p ->
  readshuttle_case (WheelPosition p) =
    [mkCommand 0 255 false; mkCommand 1 255 false].
Proof.
  intros Hp. cbn.
  destruct (0 <? p) eqn:E1, (p <=? 7) eqn:E2, (-7 <=? p) eqn:E3,
    (p <? 0) eqn:E4; cbn; try reflexivity;
    repeat match goal with
    | H : (_ <? _) = true |- _ => apply Z.ltb_lt in H
    | H : (_ <? _) = false |- _ => apply Z.ltb_ge in H
    | H : (_ <=? _) = true |- _ => apply Z.leb_le in H
    | H : (_ <=? _) = false |- _ => apply Z.leb_gt in H
    end; lia.
Qed.

Lemma button_edge (b : button) (pressed : bool) :
  readshuttle_case (ButtonEdge b pressed) =
    [mkCommand (2 + button_id b) (if pressed then 127 else 0) false].
Proof. destruct b, pressed; reflexivity. Qed.

End Router.

(* ===================================================================== *)
(** * Command dispatcher: [commandExecutor] *)
(* ===================================================================== *)

Module Dispatcher.

(** [midiMaxRepeat]: maximum number a message is repeated. *)
Definition midiMaxRepeat : Z := 50.

(** The local [tickstruct] of [commandExecutor].  [counter] is a Go [int];
    it only ever moves from [midiMaxRepeat] down to 1, so no wrap-around
    is involved. *)
Record tickstruct : Type := mkTick {
  counter : Z;
  tvalue : Z     (* uint8 *)
}.

(** One call [writer.ControlChange(mc.wr, k, v)] on the sink. *)
Record ControlChange : Type := mkCC {
  cc_controller : Z;
  cc_value : Z
}.

(** The loop state of [commandExecutor]: the [repeatcmd] map and whether
    the ticker is running ([tick.Reset]) or stopped ([tick.Stop]). *)
Record executor : Type := mkExecutor {
  repeatcmd : gmap Z tickstruct;
  ticking : bool
}.

(** The state before the first [select]: an empty map, and the ticker
    stopped right after its creation. *)
Definition executor_init : executor := mkExecutor ∅ false.

(** The case taken by one [select] of the loop. *)
Inductive select_case : Type :=
| RecvQuit
| RecvCommand (cmd : midiControllerCommand)
| RecvTick.

(** The body of [for k, v := range repeatcmd] for one entry.  Only the
    current key is updated or deleted, so every entry of the map as it was
    when the loop started is visited once, with its original value. *)
Definition tick_entry (acc : gmap Z tickstruct * list ControlChange)
    (kv : Z * tickstruct) : gmap Z tickstruct * list ControlChange :=
  let '(k, v) := kv in
  if 1 <? counter v then
    (<[k := mkTick (counter v - 1) (tvalue v)]> acc.1, acc.2 ++ [mkCC k (tvalue v)])
  else
    (delete k acc.1, acc.2).

(** The [range] loop of the tick case.  Go leaves the iteration order of a
    map unspecified; the order of [map_to_list] stands for it, and the
    properties below do not depend on it. *)
Definition tick_range (m : gmap Z tickstruct) : gmap Z tickstruct * list ControlChange :=
  foldl tick_entry (m, []) (map_to_list m).

(** [len(repeatcmd) == 0] *)
Definition len_is_zero (m : gmap Z tickstruct) : bool := Nat.eqb (size m) 0.

(** The case [cmd := <-mc.commandch]: the command is written to the sink,
    then entered in or removed from [repeatcmd]. *)
Definition on_command (s : executor) (cmd : midiControllerCommand)
  : executor * list ControlChange :=
  let w := [mkCC (controller cmd) (value cmd)] in
  if repeat cmd then
    (mkExecutor
       (<[controller cmd := mkTick midiMaxRepeat (value cmd)]> (repeatcmd s))
       true, w)
  else
    let m := delete (controller cmd) (repeatcmd s) in
    (mkExecutor m (if len_is_zero m then false else ticking s), w).

(** The case [<-tick.C]. *)
Definition on_tick (s : executor) : executor * list ControlChange :=
  let r := tick_range (repeatcmd s) in
  (mkExecutor r.1 (if len_is_zero r.1 then false else ticking s), r.2).

(** The case [<-mc.quitch]: the goroutine returns, and the deferred
    [tick.Stop()] runs. *)
Definition on_quit (s : executor) : executor :=
  mkExecutor (repeatcmd s) false.

(** What one [select] case contributed to the sink. *)
Record step_record : Type := mkStep {
  taken : select_case;
  written : list ControlChange
}.

(** The [for { select { ... } }] loop over the sequence of cases its
    [select]s take.  It ends at the first [RecvQuit]; later cases are never
    taken.  Returns the last state and one [step_record] per iteration. *)
Fixpoint commandExecutor (s : executor) (cases : list select_case)
  : executor * list step_record :=
  match cases with
  | [] => (s, [])
  | RecvQuit :: _ => (on_quit s, [mkStep RecvQuit []])
  | RecvCommand cmd :: rest =>
      let r := commandExecutor (on_command s cmd).1 rest in
      (r.1, mkStep (RecvCommand cmd) (on_command s cmd).2 :: r.2)
  | RecvTick :: rest =>
      let r := commandExecutor (on_tick s).1 rest in
      (r.1, mkStep RecvTick (on_tick s).2 :: r.2)
  end.

(** All writes of a trace that go to controller [k]. *)
Definition to_controller (k : Z) (ws : list ControlChange) : list ControlChange :=
  List.filter (fun w => cc_controller w =? k) ws.

Definition all_writes (tr : list step_record) : list ControlChange :=
  flat_map written tr.

(** The writes made in tick cases: the retransmissions. *)
Definition tick_writes (tr : list step_record) : list ControlChange :=
  flat_map (fun r => match taken r with RecvTick => written r | _ => [] end) tr.

(** No command for controller [k] among the cases. *)
Definition no_command_for (k : Z) (cases : list select_case) : Prop :=
  Forall (fun c => match c with
                   | RecvCommand cmd => controller cmd <> k
                   | _ => True
                   end) cases.

(** No sustain command for controller [k] among the cases. *)
Definition no_sustain_for (k : Z) (cases : list select_case) : Prop :=
  Forall (fun c => match c with
                   | RecvCommand cmd => controller cmd = k -> repeat cmd = false
                   | _ => True
                   end) cases.

Example sustain_then_ticks :
  let '(s, tr) := commandExecutor executor_init
                    (RecvCommand (mkCommand 0 90 true) :: List.repeat RecvTick 60) in
  (length (to_controller 0 (all_writes tr)), repeatcmd s !! 0, ticking s)
  = (50%nat, None, false).
Proof. vm_compute. reflexivity. Qed.

(** ** The tick loop, entry by entry *)

(** What the loop body does to one entry and what it writes for it. *)
Definition tick_one (v : tickstruct) : option tickstruct :=
  if 1 <? counter v then Some (mkTick (counter v - 1) (tvalue v)) else None.

Definition tick_out (k : Z) (v : tickstruct) : list ControlChange :=
  if 1 <? counter v then [mkCC k (tvalue v)] else [].

Lemma to_controller_app k ws1 ws2 :
  to_controller k (ws1 ++ ws2) = to_controller k ws1 ++ to_controller k ws2.
Proof. apply List.filter_app. Qed.

Lemma to_controller_same k v : to_controller k [mkCC k v] = [mkCC k v].
Proof. unfold to_controller. cbn. rewrite Z.eqb_refl. reflexivity. Qed.

Lemma to_controller_other k k' v : k' <> k -> to_controller k [mkCC k' v] = [].
Proof.
  intros Hne. unfold to_controller. cbn.
  destruct (Z.eqb_spec k' k); [contradiction | reflexivity].
Qed.

Lemma tick_fold_lookup (l : list (Z * tickstruct)) acc k :
  NoDup l.*1 ->
  (foldl tick_entry acc l).1 !! k =
    match (list_to_map l : gmap Z tickstruct) !! k with
    | Some v => tick_one v
    | None => acc.1 !! k
    end.
Proof.
  revert acc. induction l as [|[k' v'] l IH]; intros acc Hnd.
  - cbn. rewrite lookup_empty. reflexivity.
  - cbn [fmap list_fmap fst] in Hnd. apply NoDup_cons in Hnd as [Hnin Hnd].
    cbn [foldl]. rewrite IH by assumption.
    cbn [list_to_map foldr uncurry fst snd].
    destruct (decide (k = k')) as [->|Hne].
    + rewrite lookup_insert_eq.
      rewrite (not_elem_of_list_to_map_1 (M := gmap Z)) by assumption.
      unfold tick_entry, tick_one. destruct (1 <? counter v'); cbn.
      * apply lookup_insert_eq.
      * apply lookup_delete_eq.
    + rewrite lookup_insert_ne by congruence.
      destruct (list_to_map l !! k); [reflexivity|].
      unfold tick_entry. destruct (1 <? counter v'); cbn.
      * rewrite lookup_insert_ne by congruence. reflexivity.
      * rewrite lookup_delete_ne by congruence. reflexivity.
Qed.

Lemma tick_fold_writes (l : list (Z * tickstruct)) acc k :
  NoDup l.*1 ->
  to_controller k (foldl tick_entry acc l).2 =
    to_controller k acc.2 ++
    match (list_to_map l : gmap Z tickstruct) !! k with
    | Some v => tick_out k v
    | None => []
    end.
Proof.
  revert acc. induction l as [|[k' v'] l IH]; intros acc Hnd.
  - cbn. rewrite lookup_empty. rewrite app_nil_r. reflexivity.
  - cbn [fmap list_fmap fst] in Hnd. apply NoDup_cons in Hnd as [Hnin Hnd].
    cbn [foldl]. rewrite IH by assumption.
    cbn [list_to_map foldr uncurry fst snd].
    destruct (decide (k = k')) as [->|Hne].
    + rewrite lookup_insert_eq.
      rewrite (not_elem_of_list_to_map_1 (M := gmap Z)) by assumption.
      rewrite app_nil_r.
      unfold tick_entry, tick_out. destruct (1 <? counter v'); cbn [snd].
      * rewrite to_controller_app, to_controller_same. reflexivity.
      * rewrite app_nil_r. reflexivity.
    + rewrite lookup_insert_ne by congruence. f_equal.
      unfold tick_entry. destruct (1 <? counter v'); cbn [snd].
      * rewrite to_controller_app, to_controller_other by congruence.
        apply app_nil_r.
      * reflexivity.
Qed.

Lemma tick_range_lookup (m : gmap Z tickstruct) k :
  (tick_range m).1 !! k = m !! k ≫= tick_one.
Proof.
  unfold tick_range. rewrite tick_fold_lookup by apply NoDup_fst_map_to_list.
  rewrite list_to_map_to_list. cbn. destruct (m !! k); reflexivity.
Qed.

Lemma tick_range_writes (m : gmap Z tickstruct) k :
  to_controller k (tick_range m).2 =
    match m !! k with Some v => tick_out k v | None => [] end.
Proof.
  unfold tick_range. rewrite tick_fold_writes by apply NoDup_fst_map_to_list.
  rewrite list_to_map_to_list. reflexivity.
Qed.

Lemma len_is_zero_empty (m : gmap Z tickstruct) :
  len_is_zero m = true <-> m = ∅.
Proof.
  unfold len_is_zero. rewrite Nat.eqb_eq. apply map_size_empty_iff.
Qed.

(** ** Runs of the loop *)

(** The retransmissions still owed to controller [k]: an entry with
    counter [n > 1] is re-written [n - 1] more times. *)
Definition budget (s : executor) (k : Z) : Z :=
  match repeatcmd s !! k with
  | Some v => Z.max 0 (counter v - 1)
  | None => 0
  end.

Definition entry_value (s : executor) (k : Z) : Z :=
  match repeatcmd s !! k with
  | Some v => tvalue v
  | None => 0
  end.

Lemma on_command_other s cmd k :
  controller cmd <> k ->
  repeatcmd (on_command s cmd).1 !! k = repeatcmd s !! k /\
  to_controller k (on_command s cmd).2 = [].
Proof.
  intros Hne. unfold on_command. split.
  - destruct (repeat cmd); cbn.
    + apply lookup_insert_ne; assumption.
    + apply lookup_delete_ne; assumption.
  - destruct (repeat cmd); cbn [snd]; apply to_controller_other; assumption.
Qed.

Lemma on_tick_lookup s k :
  repeatcmd (on_tick s).1 !! k = repeatcmd s !! k ≫= tick_one.
Proof. unfold on_tick. cbn. apply tick_range_lookup. Qed.

Lemma on_tick_writes s k :
  to_controller k (on_tick s).2 =
    match repeatcmd s !! k with Some v => tick_out k v | None => [] end.
Proof. unfold on_tick. cbn. apply tick_range_writes. Qed.

(** While no command for [k] arrives, what is written to [k] is the value
    of its entry, at most [budget] times. *)
Lemma writes_within_budget k cases : forall s,
  no_command_for k cases ->
  exists n : nat,
    to_controller k (all_writes (commandExecutor s cases).2)
      = List.repeat (mkCC k (entry_value s k)) n /\
    Z.of_nat n <= budget s k.
Proof.
  induction cases as [|c rest IH]; intros s Hno.
  - exists 0%nat. split; [reflexivity|]. unfold budget.
    destruct (repeatcmd s !! k); lia.
  - apply Forall_cons in Hno as [Hc Hrest]. destruct c as [|cmd|].
    + exists 0%nat. split; [reflexivity|]. unfold budget.
      destruct (repeatcmd s !! k); lia.
    + cbn [commandExecutor snd all_writes flat_map written].
      destruct (on_command_other s cmd k Hc) as [Hl Hw].
      destruct (IH (on_command s cmd).1 Hrest) as (n & Hn & Hb).
      exists n. fold (all_writes (commandExecutor (on_command s cmd).1 rest).2).
      rewrite to_controller_app, Hw, Hn. cbn [app].
      unfold entry_value, budget in *. rewrite Hl in *. auto.
    + cbn [commandExecutor snd all_writes flat_map written].
      destruct (IH (on_tick s).1 Hrest) as (n & Hn & Hb).
      fold (all_writes (commandExecutor (on_tick s).1 rest).2).
      rewrite to_controller_app, Hn, on_tick_writes.
      unfold entry_value, budget in *. rewrite on_tick_lookup in *.
      destruct (repeatcmd s !! k) as [v|]; cbn in *.
      * unfold tick_one, tick_out in *. destruct (Z.ltb_spec 1 (counter v)).
        -- exists (S n). cbn in *. split; [reflexivity | lia].
        -- assert (n = 0%nat) as -> by lia. exists 0%nat. cbn. split; [reflexivity | lia].
      * assert (n = 0%nat) as -> by lia. exists 0%nat. cbn. split; [reflexivity | lia].
Qed.

(** With ticks only, the budget is used up one write per tick. *)
Lemma ticks_use_budget k (n : nat) : forall s,
  to_controller k (all_writes (commandExecutor s (List.repeat RecvTick n)).2)
    = List.repeat (mkCC k (entry_value s k))
        (Z.to_nat (Z.min (Z.of_nat n) (budget s k))).
Proof.
  induction n as [|n IH]; intros s.
  - cbn [List.repeat commandExecutor snd all_writes flat_map to_controller List.filter].
    replace (Z.min (Z.of_nat 0) (budget s k)) with 0; [reflexivity|].
    unfold budget. destruct (repeatcmd s !! k); lia.
  - cbn [List.repeat commandExecutor snd all_writes flat_map written].
    fold (all_writes (commandExecutor (on_tick s).1 (List.repeat RecvTick n)).2).
    rewrite to_controller_app, IH, on_tick_writes.
    unfold entry_value, budget. rewrite on_tick_lookup.
    destruct (repeatcmd s !! k) as [v|]; cbn.
    + unfold tick_one, tick_out. destruct (Z.ltb_spec 1 (counter v)); cbn.
      * replace (Z.to_nat (Z.min (Z.of_nat (S n)) (Z.max 0 (counter v - 1))))
          with (S (Z.to_nat (Z.min (Z.of_nat n) (Z.max 0 (counter v - 1 - 1)))))
          by lia.
        reflexivity.
      * replace (Z.min (Z.of_nat n) 0) with 0 by lia.
        replace (Z.min (Z.of_nat (S n)) (Z.max 0 (counter v - 1))) with 0 by lia.
        reflexivity.
    + replace (Z.min (Z.of_nat n) 0) with 0 by lia.
      replace (Z.min (Z.of_nat (S n)) 0) with 0 by lia.
      reflexivity.
Qed.

(** After [n] ticks an entry with counter [c] has counter [c - n], and it
    is gone as soon as that is not positive. *)
Lemma ticks_lookup k (n : nat) : forall s,
  repeatcmd (commandExecutor s (List.repeat RecvTick n)).1 !! k =
    match repeatcmd s !! k with
    | Some v =>
        if (n =? 0)%nat then Some v
        else if Z.of_nat n <? counter v
             then Some (mkTick (counter v - Z.of_nat n) (tvalue v))
             else None
    | None => None
    end.
Proof.
  induction n as [|n IH]; intros s.
  - cbn. destruct (repeatcmd s !! k); reflexivity.
  - cbn [List.repeat commandExecutor fst]. rewrite IH, on_tick_lookup.
    destruct (repeatcmd s !! k) as [v|]; cbn; [|reflexivity].
    unfold tick_one. destruct (Z.ltb_spec 1 (counter v)); cbn.
    + destruct n as [|n]; cbn [Nat.eqb].
      * destruct (Z.ltb_spec (Z.of_nat 1) (counter v)); [|lia].
        f_equal.
      * destruct (Z.ltb_spec (Z.of_nat (S n)) (counter v - 1)),
          (Z.ltb_spec (Z.of_nat (S (S n))) (counter v)); try lia; [|reflexivity].
        f_equal. f_equal. lia.
    + destruct (Z.ltb_spec (Z.of_nat (S n)) (counter v)); [lia | reflexivity].
Qed.

(** While no sustain command for [k] arrives, an absent entry stays
    absent and no tick writes to [k]. *)
Lemma no_entry_no_tick_write k cases : forall s,
  repeatcmd s !! k = None ->
  no_sustain_for k cases ->
  to_controller k (tick_writes (commandExecutor s cases).2) = [] /\
  repeatcmd (commandExecutor s cases).1 !! k = None.
Proof.
  induction cases as [|c rest IH]; intros s Hnone Hno.
  - split; [reflexivity | assumption].
  - apply Forall_cons in Hno as [Hc Hrest]. destruct c as [|cmd|].
    + split; [reflexivity | assumption].
    + cbn [commandExecutor snd fst tick_writes flat_map taken app].
      apply IH; [|assumption].
      unfold on_command. destruct (decide (controller cmd = k)) as [Heq|Hne].
      * rewrite (Hc Heq). cbn. subst k. apply lookup_delete_eq.
      * destruct (repeat cmd); cbn.
        -- rewrite lookup_insert_ne by assumption. assumption.
        -- rewrite lookup_delete_ne by assumption. assumption.
    + cbn [commandExecutor snd fst tick_writes flat_map taken written].
      fold (tick_writes (commandExecutor (on_tick s).1 rest).2).
      assert (repeatcmd (on_tick s).1 !! k = None) as Hk
        by (rewrite on_tick_lookup, Hnone; reflexivity).
      destruct (IH (on_tick s).1 Hk Hrest) as [Hw Hl].
      split; [|assumption].
      rewrite to_controller_app, Hw, on_tick_writes, Hnone. reflexivity.
Qed.

(** Every case of the loop leaves the ticker stopped when it leaves the
    table empty. *)
Lemma on_command_idle s cmd :
  repeatcmd (on_command s cmd).1 = ∅ -> ticking (on_command s cmd).1 = false.
Proof.
  unfold on_command. destruct (repeat cmd); cbn.
  - intros H. exfalso. exact (insert_non_empty (M := gmap Z) _ _ _ H).
  - intros H. apply len_is_zero_empty in H. rewrite H. reflexivity.
Qed.

Lemma on_tick_idle s :
  repeatcmd (on_tick s).1 = ∅ -> ticking (on_tick s).1 = false.
Proof.
  unfold on_tick. cbn. intros H. apply len_is_zero_empty in H.
  rewrite H. reflexivity.
Qed.

Lemma reachable_idle cases : forall s,
  (repeatcmd s = ∅ -> ticking s = false) ->
  repeatcmd (commandExecutor s cases).1 = ∅ ->
  ticking (commandExecutor s cases).1 = false.
Proof.
  induction cases as [|c rest IH]; intros s Hs.
  - exact Hs.
  - destruct c as [|cmd|]; cbn [commandExecutor fst].
    + reflexivity.
    + apply IH. apply on_command_idle.
    + apply IH. apply on_tick_idle.
Qed.

End Dispatcher.

(* ===================================================================== *)
(** * Effects *)
(* ===================================================================== *)

Inductive goroutine : Type := GoCommandExecutor | GoReadshuttle.

(** The observable actions of [Open], [Close] and [startListeners], in the
    order the code performs them. *)
Inductive effect : Type :=
| CloseSessionQuitch              (* close(quitch) of the main package *)
| CloseControllerQuitch           (* close(mc.quitch) *)
| RtmididrvNew                    (* rtmididrv.New() *)
| DrvOuts                         (* mc.drv.Outs() *)
| OutputOpen (port : string) (result : option error)
                                  (* mc.output.Open() and what it returned *)
| OutputClose (port : string)     (* mc.output.Close() *)
| DrvClose                        (* mc.drv.Close() *)
| LogPrintln (e : error)          (* log.Println(err) *)
| DlgsError (title msg : string)  (* dlgs.Error(title, msg) *)
| Go (g : goroutine).             (* go f(...) *)

(** A channel used only as a signal ([chan struct{}]): nil, made, or
    closed. *)
Inductive signal_chan : Type := NilChan | OpenChan | ClosedChan.

(** [close(ch)]: panics on a nil and on an already closed channel. *)
Definition close_chan (ch : signal_chan) : outcome signal_chan :=
  match ch with
  | NilChan => Panics "close of nil channel"
  | ClosedChan => Panics "close of closed channel"
  | OpenChan => Returns ClosedChan
  end.

Definition nil_dereference : string :=
  "invalid memory address or nil pointer dereference".

(* ===================================================================== *)
(** * MIDI controller: [Open], [SendCommand], [Close] *)
(* ===================================================================== *)

Module Controller.

(** A [midi.Out] of the driver: its name and what its [Open] and [Close]
    return. *)
Record Out : Type := mkOut {
  port_name : string;             (* v.String() *)
  Out_Open : option error;
  Out_Close : option error
}.

(** A [midi.Driver]: what [Outs()] and [Close()] do when called.  The
    driver is library code; a call on it may return or panic. *)
Record Driver : Type := mkDriver {
  Outs : outcome (list Out * option error);
  Driver_Close : outcome (option error)
}.

(** [midiControl].  [commandch] is nil or holds the queue of the buffered
    channel made by [Open]. *)
Record midiControl : Type := mkControl {
  DeviceName : string;
  Delay : Z;                      (* time.Duration, in nanoseconds *)
  Channel : Z;                    (* uint8 *)
  drv : option Driver;
  output : option Out;
  wr : option Z;                  (* the writer and the channel set on it *)
  commandch : option (list midiControllerCommand);
  quitch : signal_chan
}.

(** Capacity of [make(chan *midiControllerCommand, 1)]. *)
Definition commandch_capacity : nat := 1.

Definition set_drv (d : option Driver) (mc : midiControl) : midiControl :=
  mkControl (DeviceName mc) (Delay mc) (Channel mc) d (output mc) (wr mc)
    (commandch mc) (quitch mc).

Definition set_output (o : option Out) (mc : midiControl) : midiControl :=
  mkControl (DeviceName mc) (Delay mc) (Channel mc) (drv mc) o (wr mc)
    (commandch mc) (quitch mc).

Definition set_commandch (q : option (list midiControllerCommand))
    (mc : midiControl) : midiControl :=
  mkControl (DeviceName mc) (Delay mc) (Channel mc) (drv mc) (output mc)
    (wr mc) q (quitch mc).

Definition set_quitch (c : signal_chan) (mc : midiControl) : midiControl :=
  mkControl (DeviceName mc) (Delay mc) (Channel mc) (drv mc) (output mc)
    (wr mc) (commandch mc) c.

(** [strings.Contains(s, substr)] *)
Fixpoint Contains (s substr : string) : bool :=
  String.prefix substr s ||
  match s with
  | EmptyString => false
  | String _ s' => Contains s' substr
  end.

(** [NewMIDIController]: only the four given fields are set. *)
Definition NewMIDIController (driver : option Driver) (devicename : string)
    (delay : Z) (channel : Z) : midiControl :=
  mkControl devicename delay channel driver None None None NilChan.

Definition log_error (err : option error) : list effect :=
  match err with
  | Some e => [LogPrintln e]
  | None => []
  end.

(** The loop [for i, v := range outs] of [Open]: the last port whose name
    contains [DeviceName] is kept in [output]. *)
Definition select_output (outs : list Out) (mc : midiControl) : midiControl :=
  foldl (fun m v => if Contains (port_name v) (DeviceName m)
                    then set_output (Some v) m else m) mc outs.

(** [Open].  [rtmididrv_New] is what [rtmididrv.New()] returns if it is
    called; its first component is stored in [mc.drv] whether or not the
    second is an error, as in the source. *)
Definition Open (rtmididrv_New : Driver * option error) (mc : midiControl)
  : outcome (option error) * midiControl * list effect :=
  let '(mc1, fx1) :=
    match drv mc with
    | None => (set_drv (Some rtmididrv_New.1) mc,
               RtmididrvNew :: log_error rtmididrv_New.2)
    | Some _ => (mc, [])
    end in
  match drv mc1 with
  | None => (Panics nil_dereference, mc1, fx1)
  | Some d =>
      match Outs d with
      | Panics msg => (Panics msg, mc1, fx1 ++ [DrvOuts])
      | Blocks => (Blocks, mc1, fx1 ++ [DrvOuts])
      | Returns (outs, err) =>
          let fx2 := fx1 ++ DrvOuts :: log_error err in
          let mc2 := select_output outs mc1 in
          match output mc2 with
          | None => (Returns (Some ErrMIDIDeviceNotFound), mc2, fx2)
          | Some o =>
              let fx3 := fx2 ++ OutputOpen (port_name o) (Out_Open o)
                               :: log_error (Out_Open o) in
              let mc3 :=
                mkControl (DeviceName mc2) (Delay mc2) (Channel mc2) (drv mc2)
                  (output mc2) (Some (Channel mc2)) (Some []) OpenChan in
              (Returns None, mc3, fx3 ++ [Go GoCommandExecutor])
          end
      end
  end.

(** [SendCommand].  The send [mc.commandch <- cmd] proceeds when the
    buffer has room; on a full buffer it waits for the executor to receive,
    and on a nil channel it can never proceed: both are [Blocks], with the
    state unchanged. *)
Definition SendCommand (mc : midiControl) (controller value : Z) (repeat : bool)
  : outcome (option error) * midiControl :=
  match output mc with
  | None => (Returns (Some ErrMIDIDeviceNotInitialized), mc)
  | Some _ =>
      let cmd := mkCommand controller value repeat in
      match commandch mc with
      | None => (Blocks, mc)
      | Some q =>
          if (length q <? commandch_capacity)%nat
          then (Returns None, set_commandch (Some (q ++ [cmd])) mc)
          else (Blocks, mc)
      end
  end.

(** The receive [cmd := <-mc.commandch] of the executor: takes the oldest
    command of the queue. *)
Definition receive_command (mc : midiControl)
  : option (midiControllerCommand * midiControl) :=
  match commandch mc with
  | Some (cmd :: q) => Some (cmd, set_commandch (Some q) mc)
  | _ => None
  end.

(** [Close]. *)
Definition Close (mc : midiControl)
  : outcome (option error) * midiControl * list effect :=
  match close_chan (quitch mc) with
  | Panics msg => (Panics msg, mc, [])
  | Blocks => (Blocks, mc, [])
  | Returns ch =>
      let mc1 := set_quitch ch mc in
      match output mc with
      | None => (Panics nil_dereference, mc1, [CloseControllerQuitch])
      | Some o =>
          let fx := [CloseControllerQuitch; OutputClose (port_name o)] in
          match drv mc with
          | None => (Panics nil_dereference, mc1, fx)
          | Some d =>
              match Driver_Close d with
              | Panics msg => (Panics msg, mc1, fx ++ [DrvClose])
              | Blocks => (Blocks, mc1, fx ++ [DrvClose])
              | Returns errdrv =>
                  (Returns (match Out_Close o with
                            | Some errout => Some errout
                            | None => errdrv
                            end), mc1, fx ++ [DrvClose])
              end
          end
      end
  end.

(** A controller on which no call of [Open] has returned nil: it is as
    [NewMIDIController] made it, or has gone through calls of [Open] that
    returned an error, panicked or did not return. *)
Inductive never_opened : midiControl -> Prop :=
| never_opened_new driver devicename delay channel :
    never_opened (NewMIDIController driver devicename delay channel)
| never_opened_open mc env :
    never_opened mc ->
    (Open env mc).1.1 <> Returns None ->
    never_opened (Open env mc).1.2.

(** A controller right after a call of [Open] that returned nil. *)
Definition just_opened (mc : midiControl) : Prop :=
  exists env mc0, (Open env mc0).1.1 = Returns None /\ mc = (Open env mc0).1.2.

(** ** Facts about [Open] and [Close] *)

Lemma select_output_fields outs : forall mc,
  drv (select_output outs mc) = drv mc /\
  quitch (select_output outs mc) = quitch mc /\
  commandch (select_output outs mc) = commandch mc /\
  DeviceName (select_output outs mc) = DeviceName mc.
Proof.
  unfold select_output.
  induction outs as [|v outs IH]; intros mc; cbn [foldl]; [auto|].
  destruct (IH (if Contains (port_name v) (DeviceName mc)
                then set_output (Some v) mc else mc)) as (-> & -> & -> & ->).
  destruct (Contains _ _); auto.
Qed.

Definition is_go (fx : effect) : bool :=
  match fx with Go _ => true | _ => false end.

Lemma log_error_no_go err : List.filter is_go (log_error err) = [].
Proof. destruct err; reflexivity. Qed.

(** A call of [Open] that returns nil leaves a controller with its
    channels made and its output and driver set. *)
Lemma Open_nil env mc :
  (Open env mc).1.1 = Returns None ->
  quitch (Open env mc).1.2 = OpenChan /\
  commandch (Open env mc).1.2 = Some [] /\
  (exists o, output (Open env mc).1.2 = Some o) /\
  (exists d, drv (Open env mc).1.2 = Some d).
Proof.
  unfold Open.
  destruct (drv mc) as [d0|] eqn:Edrv; cbn [fst snd set_drv drv].
  - rewrite Edrv. destruct (Outs d0) as [[outs err]| |]; cbn [fst snd]; try discriminate.
    destruct (output (select_output outs mc)) as [o|] eqn:Eo; cbn [fst snd]; try discriminate.
    intros _. cbn. repeat split; eauto.
    destruct (select_output_fields outs mc) as (-> & _). eauto.
  - destruct (Outs env.1) as [[outs err]| |]; cbn [fst snd]; try discriminate.
    destruct (output (select_output outs _)) as [o|] eqn:Eo; cbn [fst snd]; try discriminate.
    intros _. cbn. repeat split; eauto.
    destruct (select_output_fields outs (set_drv (Some env.1) mc)) as (-> & _).
    cbn. eauto.
Qed.

(** A call of [Open] that does not return nil makes no channel and sets
    no output. *)
Lemma Open_not_nil env mc :
  quitch mc = NilChan -> output mc = None ->
  (Open env mc).1.1 <> Returns None ->
  quitch (Open env mc).1.2 = NilChan /\ output (Open env mc).1.2 = None.
Proof.
  intros Hq Ho. unfold Open.
  destruct (drv mc) as [d0|] eqn:Edrv; cbn [fst snd set_drv drv].
  - rewrite Edrv. destruct (Outs d0) as [[outs err]| |]; cbn [fst snd]; auto.
    destruct (output (select_output outs mc)) as [o|] eqn:Eo; cbn [fst snd].
    + intros H. contradiction H. reflexivity.
    + intros _. split; [|assumption].
      destruct (select_output_fields outs mc) as (_ & -> & _). assumption.
  - destruct (Outs env.1) as [[outs err]| |]; cbn [fst snd]; auto.
    destruct (output (select_output outs _)) as [o|] eqn:Eo; cbn [fst snd].
    + intros H. contradiction H. reflexivity.
    + intros _. split; [|assumption].
      destruct (select_output_fields outs (set_drv (Some env.1) mc))
        as (_ & -> & _). assumption.
Qed.

(** The only error [Open] returns is [ErrMIDIDeviceNotFound], and then it
    has opened no port and started no goroutine. *)
Lemma Open_error env mc e :
  (Open env mc).1.1 = Returns (Some e) ->
  e = ErrMIDIDeviceNotFound /\
  List.filter is_go (Open env mc).2 = [] /\
  forall port res, ~ In (OutputOpen port res) (Open env mc).2.
Proof.
  unfold Open.
  destruct (drv mc) as [d0|] eqn:Edrv; cbn [fst snd set_drv drv].
  - rewrite Edrv. destruct (Outs d0) as [[outs err]| |]; cbn [fst snd]; try discriminate.
    destruct (output (select_output outs mc)) as [o|] eqn:Eo; cbn [fst snd]; try discriminate.
    intros [= <-]. split; [reflexivity|]. split.
    + apply log_error_no_go.
    + intros port res [H|H]; [discriminate|].
      destruct err; cbn in H; intuition discriminate.
  - destruct (Outs env.1) as [[outs err]| |]; cbn [fst snd]; try discriminate.
    destruct (output (select_output outs _)) as [o|] eqn:Eo; cbn [fst snd]; try discriminate.
    intros [= <-]. split; [reflexivity|]. split.
    + rewrite List.filter_app. cbn [List.filter is_go].
      rewrite !log_error_no_go. reflexivity.
    + intros port res [H|H]; [discriminate|].
      apply in_app_or in H as [H|H].
      * destruct env.2; cbn in H; intuition discriminate.
      * destruct H as [H|H]; [discriminate|].
        destruct err; cbn in H; intuition discriminate.
Qed.

(** The only goroutine [Open] starts is the executor. *)
Lemma Open_goroutines env mc :
  List.filter is_go (Open env mc).2 = [] \/
  List.filter is_go (Open env mc).2 = [Go GoCommandExecutor].
Proof.
  unfold Open.
  destruct (drv mc) as [d0|] eqn:Edrv; cbn [fst snd set_drv drv].
  - rewrite Edrv. destruct (Outs d0) as [[outs err]| |]; cbn [fst snd]; [|left; reflexivity..].
    destruct (output (select_output outs mc)) as [o|]; cbn [fst snd];
      rewrite ?List.filter_app; cbn [List.filter is_go app];
      rewrite ?log_error_no_go; [right | left]; reflexivity.
  - destruct (Outs env.1) as [[outs err]| |]; cbn [fst snd];
      [|left; rewrite List.filter_app; cbn [List.filter is_go];
        rewrite log_error_no_go; reflexivity..].
    destruct (output (select_output outs _)) as [o|]; cbn [fst snd];
      rewrite ?List.filter_app; cbn [List.filter is_go app];
      rewrite ?log_error_no_go; [right | left]; reflexivity.
Qed.

Lemma Open_no_readshuttle env mc :
  ~ In (Go GoReadshuttle) (List.filter is_go (Open env mc).2).
Proof.
  destruct (Open_goroutines env mc) as [-> | ->].
  - intros [].
  - intros [H|[]]. discriminate H.
Qed.

Lemma never_opened_nil mc :
  never_opened mc -> quitch mc = NilChan /\ output mc = None.
Proof.
  induction 1 as [driver devicename delay channel | mc env _ [IHq IHo] Hres].
  - split; reflexivity.
  - apply Open_not_nil; assumption.
Qed.

Lemma just_opened_fields mc :
  just_opened mc ->
  quitch mc = OpenChan /\ commandch mc = Some [] /\
  (exists o, output mc = Some o) /\ (exists d, drv mc = Some d).
Proof. intros (env & mc0 & Hres & ->). apply Open_nil. assumption. Qed.

End Controller.

(* ===================================================================== *)
(** * Session controller: [startListeners] *)
(* ===================================================================== *)

Module Session.

Import Controller.

Definition applicationName : string := "ShuttleMidi v0.1.3".

Definition newline : string := String (Ascii.ascii_of_nat 10) EmptyString.

Definition open_failed_text : string :=
  "Unable to open MIDI device. Please select the correct device in the context menu."
  ++ newline.

(** The package-level variables [mcontrol] and [quitch]. *)
Record globals : Type := mkGlobals {
  mcontrol : option midiControl;
  quitch : signal_chan
}.

(** Both are nil when the program starts. *)
Definition globals_init : globals := mkGlobals None NilChan.

(** [100*time.Millisecond] *)
Definition delay_100ms : Z := 100 * 1000000.

(** The first statement of [startListeners]:
    [if quitch != nil { close(quitch); mcontrol.Close() }]. *)
Definition stop_previous (g : globals) : outcome unit * globals * list effect :=
  match quitch g with
  | NilChan => (Returns tt, g, [])
  | ch =>
      match close_chan ch with
      | Panics msg => (Panics msg, g, [])
      | Blocks => (Blocks, g, [])
      | Returns ch' =>
          match mcontrol g with
          | None => (Panics nil_dereference, mkGlobals None ch', [CloseSessionQuitch])
          | Some mc =>
              let r := Close mc in
              (match r.1.1 with
               | Returns _ => Returns tt
               | Panics msg => Panics msg
               | Blocks => Blocks
               end,
               mkGlobals (Some r.1.2) ch',
               CloseSessionQuitch :: r.2)
          end
      end
  end.

(** [startListeners(midiname, se)].  [rtmididrv_New] is what
    [rtmididrv.New()] returns when [Open] calls it. *)
Definition startListeners (rtmididrv_New : Driver * option error)
    (midiname : string) (g : globals) : outcome unit * globals * list effect :=
  let p := stop_previous g in
  match p.1.1 with
  | Panics msg => (Panics msg, p.1.2, p.2)
  | Blocks => (Blocks, p.1.2, p.2)
  | Returns _ =>
      let mc := NewMIDIController None midiname delay_100ms 0 in
      let r := Open rtmididrv_New mc in
      let g' := mkGlobals (Some r.1.2) OpenChan in
      match r.1.1 with
      | Panics msg => (Panics msg, g', p.2 ++ r.2)
      | Blocks => (Blocks, g', p.2 ++ r.2)
      | Returns (Some err) =>
          (Returns tt, g',
           p.2 ++ r.2 ++ [DlgsError applicationName (open_failed_text ++ error_text err)])
      | Returns None =>
          (Returns tt, g', p.2 ++ r.2 ++ [Go GoReadshuttle])
      end
  end.

(** A session is active: [startListeners] has run, its [Open] has returned
    nil, and nothing has been closed since. *)
Definition session_active (g : globals) : Prop :=
  quitch g = OpenChan /\
  exists mc, mcontrol g = Some mc /\ just_opened mc.

(** The controller [startListeners] creates and opens. *)
Definition fresh_controller (midiname : string) : midiControl :=
  NewMIDIController None midiname delay_100ms 0.

(** Tearing down the previous session starts nothing. *)
Lemma Close_no_go mc : List.filter is_go (Close mc).2 = [].
Proof.
  unfold Close. destruct (close_chan (Controller.quitch mc)); cbn [snd]; try reflexivity.
  destruct (output mc); cbn [snd]; try reflexivity.
  destruct (drv mc) as [d|]; cbn [snd]; try reflexivity.
  destruct (Driver_Close d); reflexivity.
Qed.

Lemma stop_previous_no_go g : List.filter is_go (stop_previous g).2 = [].
Proof.
  unfold stop_previous. destruct (quitch g); cbn; try reflexivity.
  destruct (mcontrol g) as [mc|]; cbn; [apply Close_no_go | reflexivity].
Qed.

(** With a session active, the teardown signals the consumer, then closes
    the controller: its executor is signalled, its port and its driver are
    closed. *)
Lemma stop_previous_active g :
  session_active g ->
  exists mc o,
    mcontrol g = Some mc /\ output mc = Some o /\
    (stop_previous g).2 =
      [CloseSessionQuitch; CloseControllerQuitch; OutputClose (port_name o); DrvClose].
Proof.
  intros (Hq & mc & Hmc & Hj).
  destruct (just_opened_fields mc Hj) as (Hmq & _ & [o Ho] & [d Hd]).
  exists mc, o. split; [assumption|]. split; [assumption|].
  unfold stop_previous. rewrite Hq, Hmc. cbn.
  unfold Close. rewrite Hmq, Ho, Hd. cbn.
  destruct (Driver_Close d); reflexivity.
Qed.

End Session.

(* ===================================================================== *)
(** * Report decoder: [readdevice] *)
(* ===================================================================== *)

Module Decoder.

(** An event channel of [ShuttleStatus] as the decoder meets it.  The
    channels have no buffer, so what a send does depends on the receiving
    side as well:
    - [chan_nil]: the field is still nil, no [readshuttle] has made it;
    - [chan_made]: made by a [readshuttle] that is receiving on it, or will
      be as soon as it has made its channels: a send is taken;
    - [chan_unserved]: made by a [readshuttle] that has since returned (its
      [quitch] was closed) or that will never come back to its [select]: the
      field is not nil, and no goroutine will ever receive from it. *)
Inductive event_chan : Type := chan_nil | chan_made | chan_unserved.

Definition non_nil (c : event_chan) : bool :=
  match c with chan_nil => false | chan_made | chan_unserved => true end.

(** [ShuttleStatus]: the seven event channels and the last value seen for
    every control. *)
Record ShuttleStatus : Type := mkStatus {
  Wheel_position : event_chan;
  Dial_direction : event_chan;
  Button1_pressed : event_chan;
  Button2_pressed : event_chan;
  Button3_pressed : event_chan;
  Button4_pressed : event_chan;
  Button5_pressed : event_chan;
  wheel_value : Z;          (* int8 *)
  dial_value : Z;           (* uint8 *)
  button1_value : bool;
  button2_value : bool;
  button3_value : bool;
  button4_value : bool;
  button5_value : bool
}.

(** [ShuttleStatus{}]: Go's zero value, as [NewShuttlExpress] creates it. *)
Definition status_zero : ShuttleStatus :=
  mkStatus chan_nil chan_nil chan_nil chan_nil chan_nil chan_nil chan_nil
    0 0 false false false false false.

(** The assignments [se.X = make(chan ...)] at the start of
    [readshuttle], which then receives on all seven channels. *)
Definition make_channels (st : ShuttleStatus) : ShuttleStatus :=
  mkStatus chan_made chan_made chan_made chan_made chan_made chan_made chan_made
    (wheel_value st) (dial_value st)
    (button1_value st) (button2_value st) (button3_value st)
    (button4_value st) (button5_value st).

(** What [readshuttle] leaves behind when it returns: the channels it made
    stay in the fields, and nobody receives on them any more. *)
Definition abandon (c : event_chan) : event_chan :=
  match c with
  | chan_made => chan_unserved
  | c => c
  end.

Definition consumer_returns (st : ShuttleStatus) : ShuttleStatus :=
  mkStatus (abandon (Wheel_position st)) (abandon (Dial_direction st))
    (abandon (Button1_pressed st)) (abandon (Button2_pressed st))
    (abandon (Button3_pressed st)) (abandon (Button4_pressed st))
    (abandon (Button5_pressed st))
    (wheel_value st) (dial_value st)
    (button1_value st) (button2_value st) (button3_value st)
    (button4_value st) (button5_value st).

(** Every channel is made and served by [readshuttle]. *)
Definition all_made (st : ShuttleStatus) : Prop :=
  Wheel_position st = chan_made /\ Dial_direction st = chan_made /\
  Button1_pressed st = chan_made /\ Button2_pressed st = chan_made /\
  Button3_pressed st = chan_made /\ Button4_pressed st = chan_made /\
  Button5_pressed st = chan_made.

Definition set_wheel_value (w : Z) (st : ShuttleStatus) : ShuttleStatus :=
  mkStatus (Wheel_position st) (Dial_direction st) (Button1_pressed st)
    (Button2_pressed st) (Button3_pressed st) (Button4_pressed st)
    (Button5_pressed st) w (dial_value st)
    (button1_value st) (button2_value st) (button3_value st)
    (button4_value st) (button5_value st).

Definition set_dial_value (d : Z) (st : ShuttleStatus) : ShuttleStatus :=
  mkStatus (Wheel_position st) (Dial_direction st) (Button1_pressed st)
    (Button2_pressed st) (Button3_pressed st) (Button4_pressed st)
    (Button5_pressed st) (wheel_value st) d
    (button1_value st) (button2_value st) (button3_value st)
    (button4_value st) (button5_value st).

Definition button_chan (b : button) (st : ShuttleStatus) : event_chan :=
  match b with
  | Button1 => Button1_pressed st
  | Button2 => Button2_pressed st
  | Button3 => Button3_pressed st
  | Button4 => Button4_pressed st
  | Button5 => Button5_pressed st
  end.

Definition button_value (b : button) (st : ShuttleStatus) : bool :=
  match b with
  | Button1 => button1_value st
  | Button2 => button2_value st
  | Button3 => button3_value st
  | Button4 => button4_value st
  | Button5 => button5_value st
  end.

Definition set_button_value (b : button) (v : bool) (st : ShuttleStatus)
  : ShuttleStatus :=
  mkStatus (Wheel_position st) (Dial_direction st) (Button1_pressed st)
    (Button2_pressed st) (Button3_pressed st) (Button4_pressed st)
    (Button5_pressed st) (wheel_value st) (dial_value st)
    (match b with Button1 => v | _ => button1_value st end)
    (match b with Button2 => v | _ => button2_value st end)
    (match b with Button3 => v | _ => button3_value st end)
    (match b with Button4 => v | _ => button4_value st end)
    (match b with Button5 => v | _ => button5_value st end).

(** ** Fields of a report *)

(** [buf[i]] of the 48-byte buffer: a byte, 0 where the read left the
    buffer as [make] zeroed it. *)
Definition byte_at (buf : list Z) (i : nat) : Z := List.nth i buf 0.

(** [int8(buf[0])] *)
Definition wheel_pos (buf : list Z) : Z := int8 (byte_at buf 0).

(** [uint8(buf[1])] *)
Definition dial_pos (buf : list Z) : Z := uint8 (byte_at buf 1).

(** [buf[3]&(1<<4) > 0] to [buf[3]&(1<<7) > 0], and [buf[4]&(1<<0) > 0] *)
Definition button_bit (b : button) (buf : list Z) : bool :=
  match b with
  | Button1 => 0 <? Z.land (byte_at buf 3) (Z.shiftl 1 4)
  | Button2 => 0 <? Z.land (byte_at buf 3) (Z.shiftl 1 5)
  | Button3 => 0 <? Z.land (byte_at buf 3) (Z.shiftl 1 6)
  | Button4 => 0 <? Z.land (byte_at buf 3) (Z.shiftl 1 7)
  | Button5 => 0 <? Z.land (byte_at buf 4) (Z.shiftl 1 0)
  end.

(** ** The loop body as a state and output computation *)

(** A computation over [ShuttleStatus] that sends events.  The result
    [None] means the goroutine is blocked for ever in a send that no
    receiver will take; the state and the delivered events are those reached
    before it. *)
Definition M (A : Type) : Type :=
  ShuttleStatus -> option A * ShuttleStatus * list ControlEvent.

Definition ret {A} (a : A) : M A := fun st => (Some a, st, []).

Definition bind {A B} (m : M A) (f : A -> M B) : M B :=
  fun st =>
    let r := m st in
    match r.1.1 with
    | None => (None, r.1.2, r.2)
    | Some a => let r' := f a r.1.2 in (r'.1.1, r'.1.2, r.2 ++ r'.2)
    end.

Definition get : M ShuttleStatus := fun st => (Some st, st, []).

Definition modify (f : ShuttleStatus -> ShuttleStatus) : M unit :=
  fun st => (Some tt, f st, []).

(** [ch <- ev].  The event channels have no buffer: the send completes
    only when a receiver takes the value.  On a channel that [readshuttle]
    serves it completes and the event is delivered; on a nil channel and on
    a channel that nobody serves it never completes, and nothing is
    delivered. *)
Definition send (ch : ShuttleStatus -> event_chan) (ev : ControlEvent) : M unit :=
  fun st =>
    match ch st with
    | chan_made => (Some tt, st, [ev])
    | chan_nil | chan_unserved => (None, st, [])
    end.

Definition when (c : bool) (m : M unit) : M unit := if c then m else ret tt.

Declare Scope decoder_scope.
Delimit Scope decoder_scope with dec.
Notation "x <- m ;; k" := (bind m (fun x => k))
  (at level 100, m at next level, right associativity) : decoder_scope.
Notation "m ;; k" := (bind m (fun _ => k))
  (at level 100, right associativity) : decoder_scope.

Local Open Scope decoder_scope.

Definition decode_wheel (buf : list Z) : M unit :=
  st <- get ;;
  when (negb (wheel_pos buf =? wheel_value st) && non_nil (Wheel_position st))
    (send Wheel_position (WheelPosition (wheel_pos buf)) ;;
     modify (set_wheel_value (wheel_pos buf))).

Definition decode_dial (buf : list Z) : M unit :=
  st <- get ;;
  when (negb (dial_pos buf =? dial_value st) && non_nil (Dial_direction st))
    (let dial_delta := int8 (uint8 (dial_pos buf - dial_value st)) in
     when ((dial_delta =? 1) || (dial_delta =? -1))
       (send Dial_direction (DialStep dial_delta)) ;;
     modify (set_dial_value (dial_pos buf))).

(** The five button statements.  All five test [se.Button1_pressed != nil],
    as the source does, and send on the button's own channel. *)
Definition decode_button (b : button) (buf : list Z) : M unit :=
  st <- get ;;
  when (negb (Bool.eqb (button_bit b buf) (button_value b st))
        && non_nil (Button1_pressed st))
    (send (button_chan b) (ButtonEdge b (button_bit b buf)) ;;
     modify (set_button_value b (button_bit b buf))).

Definition decode_buttons (buf : list Z) : M unit :=
  decode_button Button1 buf ;;
  decode_button Button2 buf ;;
  decode_button Button3 buf ;;
  decode_button Button4 buf ;;
  decode_button Button5 buf.

(** One iteration of the loop of [readdevice], after a successful read. *)
Definition decode (buf : list Z) : M unit :=
  decode_wheel buf ;;
  decode_dial buf ;;
  decode_buttons buf.

(** ** The polling loop *)

(** What [se.devhandle.Read(buf)] gives: the buffer it filled, or an
    error. *)
Inductive read_result : Type :=
| ReadOk (buf : list Z)
| ReadErr (e : error).

(** [ShuttlExpress]: [devhandle] is [true] when the handle is not nil. *)
Record ShuttlExpress : Type := mkShuttle {
  devhandle : bool;
  err : option error;
  status : ShuttleStatus
}.

(** How far the goroutine got on the reads it was given. *)
Inductive loop_end : Type :=
| Returned            (* [return]: the goroutine has ended *)
| WaitingInRead       (* blocked in [Read], waiting for the next report *)
| BlockedInSend.      (* blocked for ever in a send nobody will take *)

Record run : Type := mkRun {
  final : ShuttlExpress;
  emitted : list ControlEvent;
  reads_done : nat;
  ended : loop_end
}.

(** The [for] loop of [readdevice] on the results of its successive
    reads. *)
Fixpoint readdevice_loop (se : ShuttlExpress) (reads : list read_result) : run :=
  match reads with
  | [] => mkRun se [] 0 WaitingInRead
  | ReadErr e :: _ =>
      mkRun (mkShuttle (devhandle se) (Some e) (status se)) [] 1 Returned
  | ReadOk buf :: rest =>
      let r := decode buf (status se) in
      let se' := mkShuttle (devhandle se) (err se) r.1.2 in
      match r.1.1 with
      | None => mkRun se' r.2 1 BlockedInSend
      | Some _ =>
          let k := readdevice_loop se' rest in
          mkRun (final k) (r.2 ++ emitted k) (S (reads_done k)) (ended k)
      end
  end.

(** [readdevice] *)
Definition readdevice (se : ShuttlExpress) (reads : list read_result) : run :=
  if devhandle se then readdevice_loop se reads
  else mkRun (mkShuttle (devhandle se) (Some ErrShuttleExpressDeviceNotOpened)
                (status se)) [] 0 Returned.

(** The events of one kind in a list of events. *)
Definition is_wheel (ev : ControlEvent) : bool :=
  match ev with WheelPosition _ => true | _ => false end.

Definition is_dial (ev : ControlEvent) : bool :=
  match ev with DialStep _ => true | _ => false end.

Definition button_eqb (a b : button) : bool :=
  match a, b with
  | Button1, Button1 | Button2, Button2 | Button3, Button3
  | Button4, Button4 | Button5, Button5 => true
  | _, _ => false
  end.

Definition is_button (b : button) (ev : ControlEvent) : bool :=
  match ev with ButtonEdge b' _ => button_eqb b b' | _ => false end.

Definition wheel_events (evs : list ControlEvent) : list ControlEvent :=
  List.filter is_wheel evs.

Definition dial_events (evs : list ControlEvent) : list ControlEvent :=
  List.filter is_dial evs.

Definition button_events (b : button) (evs : list ControlEvent) : list ControlEvent :=
  List.filter (is_button b) evs.

(** A report with the given wheel byte, counter byte and status bytes. *)
Definition report (wheel dial b3 b4 : Z) : list Z :=
  [wheel; dial; 0; b3; b4] ++ List.repeat 0 43.

Example decode_first :
  decode (report 3 17 16 0) (make_channels status_zero)
  = (Some tt,
     mkStatus chan_made chan_made chan_made chan_made chan_made chan_made chan_made
       3 17 true false false false false,
     [WheelPosition 3; ButtonEdge Button1 true]).
Proof. reflexivity. Qed.

(** ** Reasoning about computations in [M] *)

(** [keeps f m]: running [m] leaves the field [f] of the state as it was. *)
Definition keeps {A B} (f : ShuttleStatus -> B) (m : M A) : Prop :=
  forall st, f (m st).1.2 = f st.

(** [silent q m]: [m] sends no event selected by [q]. *)
Definition silent {A} (q : ControlEvent -> bool) (m : M A) : Prop :=
  forall st, List.filter q (m st).2 = [].

(** [safe m]: with all channels made, [m] completes and leaves them made. *)
Definition safe {A} (m : M A) : Prop :=
  forall st, all_made st ->
    (exists a, (m st).1.1 = Some a) /\ all_made (m st).1.2.

Section Combinators.
Context {C : Type}.
Variable f : ShuttleStatus -> C.
Variable q : ControlEvent -> bool.

Lemma keeps_ret {A} (a : A) : keeps f (ret a).
Proof. intros st. reflexivity. Qed.

Lemma keeps_get : keeps f get.
Proof. intros st. reflexivity. Qed.

Lemma keeps_send ch ev : keeps f (send ch ev).
Proof. intros st. unfold send. destruct (ch st); reflexivity. Qed.

Lemma keeps_modify g : (forall st, f (g st) = f st) -> keeps f (modify g).
Proof. intros H st. apply H. Qed.

Lemma keeps_bind {A B} (m : M A) (k : A -> M B) :
  keeps f m -> (forall a, keeps f (k a)) -> keeps f (bind m k).
Proof.
  intros Hm Hk st. unfold bind. specialize (Hm st).
  destruct (m st).1.1 as [a|]; cbn; [|assumption].
  rewrite Hk. assumption.
Qed.

Lemma keeps_when c m : keeps f m -> keeps f (when c m).
Proof. intros Hm. destruct c; [exact Hm | apply keeps_ret]. Qed.

Lemma silent_ret {A} (a : A) : silent q (ret a).
Proof. intros st. reflexivity. Qed.

Lemma silent_get : silent q get.
Proof. intros st. reflexivity. Qed.

Lemma silent_modify g : silent q (modify g).
Proof. intros st. reflexivity. Qed.

Lemma silent_send ch ev : q ev = false -> silent q (send ch ev).
Proof.
  intros H st. unfold send. destruct (ch st); cbn; try reflexivity.
  rewrite H. reflexivity.
Qed.

Lemma silent_bind {A B} (m : M A) (k : A -> M B) :
  silent q m -> (forall a, silent q (k a)) -> silent q (bind m k).
Proof.
  intros Hm Hk st. unfold bind. specialize (Hm st).
  destruct (m st).1.1 as [a|]; cbn; [|assumption].
  rewrite List.filter_app, Hm, Hk. reflexivity.
Qed.

Lemma silent_when c m : silent q m -> silent q (when c m).
Proof. intros Hm. destruct c; [exact Hm | apply silent_ret]. Qed.

Lemma safe_ret {A} (a : A) : safe (ret a).
Proof. intros st H. split; [exists a; reflexivity | assumption]. Qed.

Lemma safe_get : safe get.
Proof. intros st H. split; [exists st; reflexivity | assumption]. Qed.

Lemma safe_modify g : (forall st, all_made st -> all_made (g st)) -> safe (modify g).
Proof. intros Hg st H. split; [exists tt; reflexivity | apply Hg, H]. Qed.

Lemma safe_send ch ev :
  (forall st, all_made st -> ch st = chan_made) -> safe (send ch ev).
Proof.
  intros Hch st H. unfold send. rewrite (Hch st H).
  split; [exists tt; reflexivity | assumption].
Qed.

Lemma safe_bind {A B} (m : M A) (k : A -> M B) :
  safe m -> (forall a, safe (k a)) -> safe (bind m k).
Proof.
  intros Hm Hk st H. unfold bind.
  destruct (Hm st H) as [[a Ha] Hst]. rewrite Ha. cbn.
  apply Hk. assumption.
Qed.

Lemma safe_when c m : safe m -> safe (when c m).
Proof. intros Hm. destruct c; [exact Hm | apply safe_ret]. Qed.

End Combinators.

(** Walks through a computation built from the combinators. *)
Ltac frame :=
  repeat first
    [ progress intros
    | apply keeps_bind | apply keeps_when | apply keeps_get | apply keeps_ret
    | apply keeps_send | apply keeps_modify
    | apply silent_bind | apply silent_when | apply silent_get | apply silent_ret
    | apply silent_modify | apply silent_send
    | apply safe_bind | apply safe_when | apply safe_get | apply safe_ret
    | apply safe_send | apply safe_modify
    | reflexivity ].

(** ** The statements of the loop body, one by one *)

Lemma decode_wheel_run buf st :
  decode_wheel buf st =
    if negb (wheel_pos buf =? wheel_value st) && non_nil (Wheel_position st)
    then match Wheel_position st with
         | chan_made =>
             (Some tt, set_wheel_value (wheel_pos buf) st,
              [WheelPosition (wheel_pos buf)])
         | chan_nil | chan_unserved => (None, st, [])
         end
    else (Some tt, st, []).
Proof.
  unfold decode_wheel, bind, get, when, send, modify, ret. cbn.
  destruct (negb (wheel_pos buf =? wheel_value st)); cbn; [|reflexivity].
  destruct (Wheel_position st) eqn:E; cbn; rewrite ?E; reflexivity.
Qed.

(** [int8(dial_pos - se.dial_value)] *)
Definition dial_delta (buf : list Z) (st : ShuttleStatus) : Z :=
  int8 (uint8 (dial_pos buf - dial_value st)).

Lemma decode_dial_run buf st :
  decode_dial buf st =
    if negb (dial_pos buf =? dial_value st) && non_nil (Dial_direction st)
    then if (dial_delta buf st =? 1) || (dial_delta buf st =? -1)
         then match Dial_direction st with
              | chan_made =>
                  (Some tt, set_dial_value (dial_pos buf) st,
                   [DialStep (dial_delta buf st)])
              | chan_nil | chan_unserved => (None, st, [])
              end
         else (Some tt, set_dial_value (dial_pos buf) st, [])
    else (Some tt, st, []).
Proof.
  unfold decode_dial, bind, get, when, send, modify, ret, dial_delta. cbn.
  destruct (negb (dial_pos buf =? dial_value st)); cbn; [|reflexivity].
  destruct (Dial_direction st) eqn:E; cbn; [reflexivity| |];
    (destruct ((_ =? 1) || (_ =? -1)); cbn; rewrite ?E; reflexivity).
Qed.

Lemma decode_button_run b buf st :
  decode_button b buf st =
    if negb (Bool.eqb (button_bit b buf) (button_value b st))
       && non_nil (Button1_pressed st)
    then match button_chan b st with
         | chan_made => (Some tt, set_button_value b (button_bit b buf) st,
                         [ButtonEdge b (button_bit b buf)])
         | chan_nil | chan_unserved => (None, st, [])
         end
    else (Some tt, st, []).
Proof.
  unfold decode_button, bind, get, when, send, modify, ret. cbn.
  destruct (negb _ && _); cbn; [|reflexivity].
  destruct (button_chan b st); reflexivity.
Qed.



Lemma bind_returned {A B} (m : M A) (k : A -> M B) st a :
  (m st).1.1 = Some a ->
  bind m k st =
    ((k a (m st).1.2).1.1, (k a (m st).1.2).1.2, (m st).2 ++ (k a (m st).1.2).2).
Proof. intros H. unfold bind. rewrite H. reflexivity. Qed.

Lemma bind_blocked {A B} (m : M A) (k : A -> M B) st :
  (m st).1.1 = None -> bind m k st = (None, (m st).1.2, (m st).2).
Proof. intros H. unfold bind. rewrite H. reflexivity. Qed.

(** What comes after [m] does not matter for the events it is silent on,
    nor for the fields it keeps, whether or not [m] completes. *)
Lemma bind_filter {A B} (q : ControlEvent -> bool) (m : M A) (k : A -> M B) st :
  (forall a, silent q (k a)) ->
  List.filter q (bind m k st).2 = List.filter q (m st).2.
Proof.
  intros Hk. unfold bind. destruct (m st).1.1 as [a|]; cbn [snd]; [|reflexivity].
  rewrite List.filter_app, Hk, app_nil_r. reflexivity.
Qed.

Lemma bind_field {A B C} (f : ShuttleStatus -> C) (m : M A) (k : A -> M B) st :
  (forall a, keeps f (k a)) -> f (bind m k st).1.2 = f (m st).1.2.
Proof.
  intros Hk. unfold bind. destruct (m st).1.1 as [a|]; cbn [fst snd]; [|reflexivity].
  apply Hk.
Qed.

(** The state in which the dial statement and the button statements run. *)
Definition after_wheel buf st : ShuttleStatus := (decode_wheel buf st).1.2.
Definition after_dial buf st : ShuttleStatus :=
  (decode_dial buf (after_wheel buf st)).1.2.


(** Which statements touch which fields and send which events. *)
Lemma decode_keeps_channels buf :
  keeps Wheel_position (decode buf) /\ keeps Dial_direction (decode buf) /\
  keeps Button1_pressed (decode buf) /\ keeps Button2_pressed (decode buf) /\
  keeps Button3_pressed (decode buf) /\ keeps Button4_pressed (decode buf) /\
  keeps Button5_pressed (decode buf).
Proof.
  unfold decode, decode_buttons, decode_wheel, decode_dial, decode_button.
  repeat split; frame.
Qed.

Lemma decode_wheel_keeps_dial buf :
  keeps dial_value (decode_wheel buf) /\ keeps Dial_direction (decode_wheel buf).
Proof. unfold decode_wheel. split; frame. Qed.


Lemma decode_dial_keeps_wheel buf :
  keeps wheel_value (decode_dial buf) /\ silent is_wheel (decode_dial buf).
Proof. unfold decode_dial. split; frame. Qed.

Lemma decode_buttons_keep buf :
  keeps wheel_value (decode_buttons buf) /\ keeps dial_value (decode_buttons buf) /\
  silent is_wheel (decode_buttons buf) /\ silent is_dial (decode_buttons buf).
Proof. unfold decode_buttons, decode_button. repeat split; frame. Qed.

Lemma decode_safe buf : safe (decode buf).
Proof.
  unfold decode, decode_buttons, decode_wheel, decode_dial, decode_button.
  frame;
    match goal with
    | H : all_made _ |- _ => try (destruct H as (?&?&?&?&?&?&?); assumption)
    end;
    match goal with
    | H : all_made _ |- all_made _ => exact H
    | H : all_made ?s |- button_chan ?b ?s = _ =>
        destruct H as (?&?&?&?&?&?&?); destruct b; assumption
    | _ => idtac
    end.
Qed.

(** ** A whole iteration *)

Lemma wheel_events_decode buf st :
  wheel_events (decode buf st).2 = wheel_events (decode_wheel buf st).2.
Proof.
  unfold decode, wheel_events. apply bind_filter. intros _.
  unfold decode_dial, decode_buttons, decode_button. frame.
Qed.

Lemma wheel_value_decode buf st :
  wheel_value (decode buf st).1.2 = wheel_value (decode_wheel buf st).1.2.
Proof.
  unfold decode. apply bind_field. intros _.
  unfold decode_dial, decode_buttons, decode_button. frame.
Qed.

Lemma decode_dial_after_wheel buf st :
  decode_dial buf (after_wheel buf st) =
    ((decode_dial buf st).1.1,
     (if negb (dial_pos buf =? dial_value st) && non_nil (Dial_direction st)
      then match (decode_dial buf st).1.1 with
           | Some _ => set_dial_value (dial_pos buf) (after_wheel buf st)
           | None => after_wheel buf st
           end
      else after_wheel buf st),
     (decode_dial buf st).2).
Proof.
  rewrite !decode_dial_run. unfold dial_delta.
  destruct (decode_wheel_keeps_dial buf) as [Hv Hc].
  specialize (Hv st). specialize (Hc st).
  fold (after_wheel buf st) in Hv, Hc. rewrite Hv, Hc.
  destruct (negb _ && _); [|reflexivity].
  destruct ((_ =? 1) || (_ =? -1)); [|reflexivity].
  destruct (Dial_direction st); reflexivity.
Qed.

Lemma dial_value_after_dial buf st :
  dial_value (after_dial buf st) = dial_value (decode_dial buf st).1.2.
Proof.
  unfold after_dial. rewrite decode_dial_after_wheel. cbn [fst snd].
  rewrite decode_dial_run.
  pose proof (proj1 (decode_wheel_keeps_dial buf) st) as Hv.
  fold (after_wheel buf st) in Hv.
  destruct (negb _ && _); [|exact Hv].
  destruct ((_ =? 1) || (_ =? -1)); [|reflexivity].
  destruct (Dial_direction st); cbn [fst snd]; try exact Hv. reflexivity.
Qed.


Lemma dial_value_decode buf st :
  (decode_wheel buf st).1.1 = Some tt ->
  dial_value (decode buf st).1.2 = dial_value (decode_dial buf st).1.2.
Proof.
  intros Hw. unfold decode.
  rewrite (bind_returned _ _ _ tt) by exact Hw. cbn [fst snd].
  fold (after_wheel buf st).
  rewrite bind_field
    by (intros _; unfold decode_buttons, decode_button; frame).
  apply dial_value_after_dial.
Qed.

(** When the wheel statement blocks, the iteration ends there. *)
Lemma decode_blocked_at_wheel buf st :
  (decode_wheel buf st).1.1 = None -> decode buf st = (None, st, []).
Proof.
  intros Hw. unfold decode. rewrite bind_blocked by exact Hw.
  revert Hw. rewrite decode_wheel_run.
  destruct (negb _ && _); [|discriminate].
  destruct (Wheel_position st); [reflexivity | discriminate | reflexivity].
Qed.

(** With every channel made, the events of an iteration are the changes of
    the report against the stored values, and the stored values become
    those of the report. *)
Definition button_change (buf : list Z) (st : ShuttleStatus) (b : button)
  : list ControlEvent :=
  if Bool.eqb (button_bit b buf) (button_value b st) then []
  else [ButtonEdge b (button_bit b buf)].

Definition decoded_events (buf : list Z) (st : ShuttleStatus) : list ControlEvent :=
  (if wheel_pos buf =? wheel_value st then []
   else [WheelPosition (wheel_pos buf)]) ++
  (if dial_pos buf =? dial_value st then []
   else if (dial_delta buf st =? 1) || (dial_delta buf st =? -1)
        then [DialStep (dial_delta buf st)] else []) ++
  flat_map (button_change buf st) [Button1; Button2; Button3; Button4; Button5].

Definition decoded_status (buf : list Z) (st : ShuttleStatus) : ShuttleStatus :=
  mkStatus (Wheel_position st) (Dial_direction st) (Button1_pressed st)
    (Button2_pressed st) (Button3_pressed st) (Button4_pressed st)
    (Button5_pressed st) (wheel_pos buf) (dial_pos buf)
    (button_bit Button1 buf) (button_bit Button2 buf) (button_bit Button3 buf)
    (button_bit Button4 buf) (button_bit Button5 buf).

Lemma bind_step {A B} (m : M A) (k : A -> M B) st a st1 o1 :
  m st = (Some a, st1, o1) ->
  bind m k st = ((k a st1).1.1, (k a st1).1.2, o1 ++ (k a st1).2).
Proof. intros H. unfold bind. rewrite H. reflexivity. Qed.

Lemma decode_wheel_made buf st :
  Wheel_position st = chan_made ->
  decode_wheel buf st =
    (Some tt, set_wheel_value (wheel_pos buf) st,
     if wheel_pos buf =? wheel_value st then []
     else [WheelPosition (wheel_pos buf)]).
Proof.
  intros H. rewrite decode_wheel_run, H.
  destruct (Z.eqb_spec (wheel_pos buf) (wheel_value st)) as [->|_]; cbn;
    [|reflexivity].
  destruct st; reflexivity.
Qed.

Lemma decode_dial_made buf st :
  Dial_direction st = chan_made ->
  decode_dial buf st =
    (Some tt, set_dial_value (dial_pos buf) st,
     if dial_pos buf =? dial_value st then []
     else if (dial_delta buf st =? 1) || (dial_delta buf st =? -1)
          then [DialStep (dial_delta buf st)] else []).
Proof.
  intros H. rewrite decode_dial_run, H.
  destruct (Z.eqb_spec (dial_pos buf) (dial_value st)) as [->|_]; cbn.
  - destruct st; reflexivity.
  - destruct ((dial_delta buf st =? 1) || (dial_delta buf st =? -1)); reflexivity.
Qed.

Lemma decode_button_made b buf st :
  Button1_pressed st = chan_made ->
  button_chan b st = chan_made ->
  decode_button b buf st =
    (Some tt, set_button_value b (button_bit b buf) st, button_change buf st b).
Proof.
  intros H1 Hb. rewrite decode_button_run, H1, Hb. unfold button_change.
  destruct (Bool.eqb_spec (button_bit b buf) (button_value b st)) as [E|_];
    cbn; [|reflexivity].
  rewrite E. destruct st, b; reflexivity.
Qed.

Lemma decode_all_made buf st :
  all_made st ->
  decode buf st = (Some tt, decoded_status buf st, decoded_events buf st).
Proof.
  intros (Hw & Hd & H1 & H2 & H3 & H4 & H5).
  unfold decode, decode_buttons.
  rewrite (bind_step _ _ _ _ _ _ (decode_wheel_made buf st Hw)).
  rewrite (bind_step _ _ _ _ _ _ (decode_dial_made buf (set_wheel_value _ st) Hd)).
  rewrite (bind_step _ _ _ _ _ _
             (decode_button_made Button1 buf
                (set_dial_value _ (set_wheel_value _ st)) H1 H1)).
  rewrite (bind_step _ _ _ _ _ _
             (decode_button_made Button2 buf
                (set_button_value _ _ (set_dial_value _ (set_wheel_value _ st)))
                H1 H2)).
  rewrite (bind_step _ _ _ _ _ _
             (decode_button_made Button3 buf
                (set_button_value _ _
                   (set_button_value _ _ (set_dial_value _ (set_wheel_value _ st))))
                H1 H3)).
  rewrite (bind_step _ _ _ _ _ _
             (decode_button_made Button4 buf
                (set_button_value _ _
                   (set_button_value _ _
                      (set_button_value _ _
                         (set_dial_value _ (set_wheel_value _ st)))))
                H1 H4)).
  rewrite (decode_button_made Button5 buf
             (set_button_value _ _
                (set_button_value _ _
                   (set_button_value _ _
                      (set_button_value _ _
                         (set_dial_value _ (set_wheel_value _ st))))))
             H1 H5).
  unfold decoded_status, decoded_events. cbn [flat_map fst snd].
  rewrite app_nil_r. unfold button_change, dial_delta.
  destruct st; reflexivity.
Qed.

(** ** No consumer yet: every channel nil *)

Definition all_nil (st : ShuttleStatus) : Prop :=
  Wheel_position st = chan_nil /\ Dial_direction st = chan_nil /\
  Button1_pressed st = chan_nil /\ Button2_pressed st = chan_nil /\
  Button3_pressed st = chan_nil /\ Button4_pressed st = chan_nil /\
  Button5_pressed st = chan_nil.

Lemma decode_wheel_nil buf st :
  Wheel_position st = chan_nil -> decode_wheel buf st = (Some tt, st, []).
Proof.
  intros H. rewrite decode_wheel_run, H. cbn. rewrite andb_false_r. reflexivity.
Qed.

Lemma decode_dial_nil buf st :
  Dial_direction st = chan_nil -> decode_dial buf st = (Some tt, st, []).
Proof.
  intros H. rewrite decode_dial_run, H. cbn. rewrite andb_false_r. reflexivity.
Qed.

Lemma decode_button_nil b buf st :
  Button1_pressed st = chan_nil -> decode_button b buf st = (Some tt, st, []).
Proof.
  intros H. rewrite decode_button_run, H. cbn. rewrite andb_false_r. reflexivity.
Qed.

Lemma decode_all_nil buf st :
  all_nil st -> decode buf st = (Some tt, st, []).
Proof.
  intros (Hw & Hd & H1 & _).
  unfold decode, decode_buttons.
  rewrite (bind_step _ _ _ _ _ _ (decode_wheel_nil buf st Hw)).
  rewrite (bind_step _ _ _ _ _ _ (decode_dial_nil buf st Hd)).
  rewrite (bind_step _ _ _ _ _ _ (decode_button_nil Button1 buf st H1)).
  rewrite (bind_step _ _ _ _ _ _ (decode_button_nil Button2 buf st H1)).
  rewrite (bind_step _ _ _ _ _ _ (decode_button_nil Button3 buf st H1)).
  rewrite (bind_step _ _ _ _ _ _ (decode_button_nil Button4 buf st H1)).
  rewrite (decode_button_nil Button5 buf st H1).
  reflexivity.
Qed.

(** ** Events of one kind in a whole iteration *)

Lemma wheel_events_made buf st :
  Wheel_position st = chan_made ->
  wheel_events (decode buf st).2 =
    (if wheel_pos buf =? wheel_value st then []
     else [WheelPosition (wheel_pos buf)]) /\
  wheel_value (decode buf st).1.2 = wheel_pos buf.
Proof.
  intros H. rewrite wheel_events_decode, wheel_value_decode.
  rewrite decode_wheel_made by assumption. cbn [fst snd].
  split; [|reflexivity].
  destruct (wheel_pos buf =? wheel_value st); reflexivity.
Qed.


Lemma button_events_decoded b buf st :
  button_events b (decoded_events buf st) = button_change buf st b.
Proof.
  unfold decoded_events, button_events. rewrite !List.filter_app.
  cbn [flat_map]. rewrite !List.filter_app.
  assert (Hw : List.filter (is_button b)
                 (if wheel_pos buf =? wheel_value st then []
                  else [WheelPosition (wheel_pos buf)]) = [])
    by (destruct (wheel_pos buf =? wheel_value st); reflexivity).
  assert (Hd : List.filter (is_button b)
                 (if dial_pos buf =? dial_value st then []
                  else if (dial_delta buf st =? 1) || (dial_delta buf st =? -1)
                       then [DialStep (dial_delta buf st)] else []) = []).
  { destruct (dial_pos buf =? dial_value st); [reflexivity|].
    destruct ((dial_delta buf st =? 1) || (dial_delta buf st =? -1)); reflexivity. }
  assert (Hb : forall b', List.filter (is_button b) (button_change buf st b')
                          = if button_eqb b b' then button_change buf st b' else []).
  { intros b'. unfold button_change.
    destruct (Bool.eqb (button_bit b' buf) (button_value b' st)); cbn;
      destruct (button_eqb b b'); reflexivity. }
  rewrite Hw, Hd, !Hb. destruct b; cbn; rewrite ?app_nil_r; reflexivity.
Qed.

(** ** The polling loop on a sequence of reports *)

(** The wheel events of a sequence of wheel positions, by the
    specification's words: one event for every position that differs from
    the one before it. *)
Fixpoint wheel_changes (prev : Z) (ws : list Z) : list ControlEvent :=
  match ws with
  | [] => []
  | w :: rest =>
      (if w =? prev then [] else [WheelPosition w]) ++ wheel_changes w rest
  end.

Lemma loop_reports bufs : forall se,
  all_made (status se) ->
  ended (readdevice_loop se (List.map ReadOk bufs)) = WaitingInRead /\
  reads_done (readdevice_loop se (List.map ReadOk bufs)) = length bufs /\
  wheel_events (emitted (readdevice_loop se (List.map ReadOk bufs)))
    = wheel_changes (wheel_value (status se)) (List.map wheel_pos bufs).
Proof.
  induction bufs as [|buf bufs IH]; intros se Hmade.
  - repeat split; reflexivity.
  - cbn [List.map readdevice_loop].
    destruct (decode_safe buf (status se) Hmade) as [[[] Hret] Hmade'].
    rewrite Hret. cbn [ended reads_done emitted].
    destruct (IH (mkShuttle (devhandle se) (err se) (decode buf (status se)).1.2)
                Hmade') as (He & Hn & Hw).
    split; [assumption|]. split; [cbn; f_equal; assumption|].
    unfold wheel_events in *. rewrite List.filter_app, Hw.
    destruct Hmade as (Hwp & _).
    destruct (wheel_events_made buf (status se) Hwp) as [Hev Hval].
    unfold wheel_events in Hev. rewrite Hev. cbn [status wheel_changes].
    rewrite Hval. reflexivity.
Qed.

(** A read error met while the loop is polling. *)
Lemma loop_read_error pre : forall se e post,
  ended (readdevice_loop se pre) = WaitingInRead ->
  ended (readdevice_loop se (pre ++ ReadErr e :: post)) = Returned /\
  err (final (readdevice_loop se (pre ++ ReadErr e :: post))) = Some e /\
  status (final (readdevice_loop se (pre ++ ReadErr e :: post)))
    = status (final (readdevice_loop se pre)) /\
  emitted (readdevice_loop se (pre ++ ReadErr e :: post))
    = emitted (readdevice_loop se pre) /\
  reads_done (readdevice_loop se (pre ++ ReadErr e :: post)) = S (length pre).
Proof.
  induction pre as [|rd pre IH]; intros se e post Hend.
  - repeat split; reflexivity.
  - destruct rd as [buf|e']; [|discriminate Hend].
    cbn [app readdevice_loop] in *.
    destruct (decode buf (status se)).1.1; [|discriminate Hend].
    cbn [ended final emitted reads_done] in *.
    destruct (IH _ e post Hend) as (H1 & H2 & H3 & H4 & H5).
    repeat split; try assumption.
    + rewrite H4. reflexivity.
    + cbn. f_equal. assumption.
Qed.

(** What [readshuttle] can observe of the decoder: the values it receives
    on the seven channels.  The decoder closes no channel, and [err] is a
    field the main package cannot read. *)
Definition consumer_view (r : run) : list ControlEvent := emitted r.

(** The decoder signals a read failure to its consumer when the failure
    changes what the consumer observes. *)
Definition signals_termination (se : ShuttlExpress) (pre : list read_result)
    (e : error) : Prop :=
  consumer_view (readdevice se (pre ++ [ReadErr e]))
    <> consumer_view (readdevice se pre).

(** ** Channels that nobody serves *)

(** Every channel is made, and no [readshuttle] receives on any of them:
    the state [consumer_returns] leaves when all channels were served. *)
Definition all_unserved (st : ShuttleStatus) : Prop :=
  Wheel_position st = chan_unserved /\ Dial_direction st = chan_unserved /\
  Button1_pressed st = chan_unserved /\ Button2_pressed st = chan_unserved /\
  Button3_pressed st = chan_unserved /\ Button4_pressed st = chan_unserved /\
  Button5_pressed st = chan_unserved.

Lemma decode_wheel_unserved buf st :
  Wheel_position st = chan_unserved ->
  decode_wheel buf st =
    (if wheel_pos buf =? wheel_value st then Some tt else None, st, []).
Proof.
  intros H. rewrite decode_wheel_run, H.
  destruct (wheel_pos buf =? wheel_value st); reflexivity.
Qed.

Lemma decode_dial_unserved buf st :
  Dial_direction st = chan_unserved ->
  decode_dial buf st =
    if (dial_delta buf st =? 1) || (dial_delta buf st =? -1)
    then (if dial_pos buf =? dial_value st then Some tt else None, st, [])
    else (Some tt,
          if dial_pos buf =? dial_value st then st
          else set_dial_value (dial_pos buf) st, []).
Proof.
  intros H. rewrite decode_dial_run, H.
  destruct (dial_pos buf =? dial_value st);
    destruct ((dial_delta buf st =? 1) || (dial_delta buf st =? -1)); reflexivity.
Qed.

Lemma decode_button_unserved b buf st :
  Button1_pressed st = chan_unserved ->
  button_chan b st = chan_unserved ->
  decode_button b buf st =
    (if Bool.eqb (button_bit b buf) (button_value b st) then Some tt else None,
     st, []).
Proof.
  intros H1 Hb. rewrite decode_button_run, H1, Hb.
  destruct (Bool.eqb (button_bit b buf) (button_value b st)); reflexivity.
Qed.

(** Some button bit of the report differs from its stored value. *)
Definition buttons_differ (buf : list Z) (st : ShuttleStatus) : bool :=
  existsb (fun b => negb (Bool.eqb (button_bit b buf) (button_value b st)))
    [Button1; Button2; Button3; Button4; Button5].

Lemma decode_buttons_unserved buf st :
  all_unserved st ->
  decode_buttons buf st =
    (if buttons_differ buf st then None else Some tt, st, []).
Proof.
  intros (_ & _ & H1 & H2 & H3 & H4 & H5).
  pose proof (decode_button_unserved Button1 buf st H1 H1) as P1.
  pose proof (decode_button_unserved Button2 buf st H1 H2) as P2.
  pose proof (decode_button_unserved Button3 buf st H1 H3) as P3.
  pose proof (decode_button_unserved Button4 buf st H1 H4) as P4.
  pose proof (decode_button_unserved Button5 buf st H1 H5) as P5.
  unfold decode_buttons, buttons_differ. cbn [existsb].
  revert P1 P2 P3 P4 P5.
  destruct (Bool.eqb (button_bit Button1 buf) (button_value Button1 st));
    destruct (Bool.eqb (button_bit Button2 buf) (button_value Button2 st));
    destruct (Bool.eqb (button_bit Button3 buf) (button_value Button3 st));
    destruct (Bool.eqb (button_bit Button4 buf) (button_value Button4 st));
    destruct (Bool.eqb (button_bit Button5 buf) (button_value Button5 st));
    intros P1 P2 P3 P4 P5; cbn [negb orb];
    repeat first
      [ rewrite (bind_step _ _ _ tt st [] P1); cbn [fst snd app]
      | rewrite (bind_step _ _ _ tt st [] P2); cbn [fst snd app]
      | rewrite (bind_step _ _ _ tt st [] P3); cbn [fst snd app]
      | rewrite (bind_step _ _ _ tt st [] P4); cbn [fst snd app]
      | rewrite bind_blocked by (rewrite ?P1, ?P2, ?P3, ?P4; reflexivity) ];
    rewrite ?P1, ?P2, ?P3, ?P4, ?P5; reflexivity.
Qed.

(** With no channel served, an iteration delivers nothing and touches at
    most the stored counter; it blocks at the first wheel byte, dial step or
    button bit that differs. *)
Lemma decode_all_unserved buf st :
  all_unserved st ->
  (decode buf st).2 = [] /\
  ((decode buf st).1.2 = st \/
   (decode buf st).1.2 = set_dial_value (dial_pos buf) st) /\
  (wheel_pos buf <> wheel_value st -> (decode buf st).1.1 = None) /\
  (buttons_differ buf st = true -> (decode buf st).1.1 = None).
Proof.
  intros Hu. pose proof Hu as (Hw & Hd & _).
  unfold decode.
  destruct (Z.eqb_spec (wheel_pos buf) (wheel_value st)) as [Heq|Hne].
  - rewrite (bind_step _ _ _ tt st [])
      by (rewrite decode_wheel_unserved by assumption;
          rewrite Heq, Z.eqb_refl; reflexivity).
    cbn [fst snd app].
    pose proof (decode_dial_unserved buf st Hd) as Hdial.
    destruct ((dial_delta buf st =? 1) || (dial_delta buf st =? -1)).
    + destruct (dial_pos buf =? dial_value st).
      * rewrite (bind_step _ _ _ tt st []) by exact Hdial.
        rewrite (decode_buttons_unserved buf st Hu). cbn [fst snd app].
        split; [reflexivity|]. split; [left; reflexivity|].
        split; [contradiction|]. intros ->. reflexivity.
      * rewrite bind_blocked by (rewrite Hdial; reflexivity).
        rewrite Hdial. cbn [fst snd].
        split; [reflexivity|]. split; [left; reflexivity|].
        split; [contradiction | reflexivity].
    + destruct (dial_pos buf =? dial_value st).
      * rewrite (bind_step _ _ _ tt st []) by exact Hdial.
        rewrite (decode_buttons_unserved buf st Hu). cbn [fst snd app].
        split; [reflexivity|]. split; [left; reflexivity|].
        split; [contradiction|]. intros ->. reflexivity.
      * rewrite (bind_step _ _ _ tt (set_dial_value (dial_pos buf) st) [])
          by exact Hdial.
        rewrite (decode_buttons_unserved buf (set_dial_value (dial_pos buf) st) Hu).
        cbn [fst snd app].
        split; [reflexivity|]. split; [right; reflexivity|].
        split; [contradiction|].
        change (buttons_differ buf (set_dial_value (dial_pos buf) st))
          with (buttons_differ buf st).
        intros ->. reflexivity.
  - rewrite bind_blocked
      by (rewrite decode_wheel_unserved by assumption;
          destruct (Z.eqb_spec (wheel_pos buf) (wheel_value st));
          [contradiction | reflexivity]).
    rewrite decode_wheel_unserved by assumption. cbn [fst snd].
    split; [reflexivity|]. split; [left; reflexivity|].
    split; reflexivity.
Qed.


End Decoder.

(* ===================================================================== *)
(** * Properties of the specification *)
(* ===================================================================== *)

Import Router Dispatcher.

(** C1 (router table).  Every event received by [readshuttle] leads to the
    [SendCommand] calls of the fixed table and to no others: a wheel position
    [p] in 1..7 gives the single command (0, 18*(8-p), repeat); [p] in
    -7..-1 gives the single command (1, 18*(-p), repeat); 0 and every
    position outside -7..7 give the two commands (0, 255, no repeat) and
    (1, 255, no repeat) in that order; a dial step +1 gives (2, 2, no
    repeat) and -1 gives (2, 1, no repeat); an edge of button [id] in 1..5
    gives (2+id, 127 if pressed else 0, no repeat). *)
Theorem router_fixed_table :
  (forall p : Z, 1 <= p <= 7 ->
     readshuttle_case (WheelPosition p) = [mkCommand 0 (18 * (8 - p)) true]) /\
  (forall p : Z, -7 <= p <= -1 ->
     readshuttle_case (WheelPosition p) = [mkCommand 1 (18 * (- p)) true]) /\
  (forall p : Z, p = 0 \/ p < -7 \/ 7 < p ->
     readshuttle_case (WheelPosition p)
       = [mkCommand 0 255 false; mkCommand 1 255 false]) /\
  readshuttle_case (DialStep 1) = [mkCommand 2 2 false] /\
  readshuttle_case (DialStep (-1)) = [mkCommand 2 1 false] /\
  (forall (b : button) (pressed : bool),
     1 <= button_id b <= 5 /\
     readshuttle_case (ButtonEdge b pressed)
       = [mkCommand (2 + button_id b) (if pressed then 127 else 0) false]).
Proof.
  split; [exact wheel_up|].
  split; [exact wheel_down|].
  split; [exact wheel_release|].
  split; [reflexivity|].
  split; [reflexivity|].
  intros b pressed. split; [destruct b; cbn; lia | apply button_edge].
Qed.

Lemma router_fixed_table_witness :
  readshuttle_case (WheelPosition 3) = [mkCommand 0 90 true] /\
  readshuttle_case (WheelPosition (-2)) = [mkCommand 1 36 true] /\
  readshuttle_case (WheelPosition 0) = [mkCommand 0 255 false; mkCommand 1 255 false] /\
  readshuttle_case (WheelPosition (-128)) = [mkCommand 0 255 false; mkCommand 1 255 false].
Proof.
  destruct router_fixed_table as (Hup & Hdown & Hrest & _).
  split; [apply (Hup 3); lia|].
  split; [apply (Hdown (-2)); lia|].
  split; [apply (Hrest 0); lia | apply (Hrest (-128)); lia].
Defined.

(** C2 (repeat budget).  On a tick, an entry of the repeat table whose
    counter is greater than 1 is written once more and its counter
    decremented; an entry whose counter is not greater than 1 is removed and
    not written.  A sustain command enters the table with counter 50, so as
    long as no other command for its controller arrives its (controller,
    value) is written at least once and at most 50 times, the first write
    included, whatever else the loop receives; with ticks only, the writes
    number [min (ticks + 1) 50], and from the 50th tick on the entry is
    gone. *)
Theorem sustain_repeat_budget :
  (forall (s : executor) (k : Z) (v : tickstruct),
     repeatcmd s !! k = Some v ->
     (1 < counter v ->
        repeatcmd (on_tick s).1 !! k = Some (mkTick (counter v - 1) (tvalue v)) /\
        to_controller k (on_tick s).2 = [mkCC k (tvalue v)]) /\
     (counter v <= 1 ->
        repeatcmd (on_tick s).1 !! k = None /\
        to_controller k (on_tick s).2 = [])) /\
  (forall (s : executor) (cmd : midiControllerCommand),
     repeat cmd = true ->
     repeatcmd (on_command s cmd).1 !! controller cmd
       = Some (mkTick 50 (value cmd)) /\
     (on_command s cmd).2 = [mkCC (controller cmd) (value cmd)]) /\
  (forall (s : executor) (cmd : midiControllerCommand) (cases : list select_case),
     repeat cmd = true ->
     no_command_for (controller cmd) cases ->
     exists n : nat,
       to_controller (controller cmd)
         (all_writes (commandExecutor s (RecvCommand cmd :: cases)).2)
         = List.repeat (mkCC (controller cmd) (value cmd)) n /\
       (1 <= n <= 50)%nat) /\
  (forall (s : executor) (cmd : midiControllerCommand) (ticks : nat),
     repeat cmd = true ->
     to_controller (controller cmd)
       (all_writes (commandExecutor s (RecvCommand cmd :: List.repeat RecvTick ticks)).2)
       = List.repeat (mkCC (controller cmd) (value cmd)) (Nat.min (S ticks) 50) /\
     ((50 <= ticks)%nat ->
      repeatcmd (commandExecutor s (RecvCommand cmd :: List.repeat RecvTick ticks)).1
        !! controller cmd = None)).
Proof.
  assert (Hins : forall s cmd, repeat cmd = true ->
            repeatcmd (on_command s cmd).1 !! controller cmd
              = Some (mkTick 50 (value cmd)) /\
            (on_command s cmd).2 = [mkCC (controller cmd) (value cmd)]).
  { intros s cmd Hr. unfold on_command. rewrite Hr. cbn.
    split; [apply lookup_insert_eq | reflexivity]. }
  split; [|split; [exact Hins|split]].
  - intros s k v Hk. rewrite on_tick_lookup, on_tick_writes, Hk. cbn.
    unfold tick_one, tick_out. split; intros Hc.
    + destruct (Z.ltb_spec 1 (counter v)); [split; reflexivity | lia].
    + destruct (Z.ltb_spec 1 (counter v)); [lia | split; reflexivity].
  - intros s cmd cases Hr Hno.
    destruct (Hins s cmd Hr) as [Hl Hw].
    destruct (writes_within_budget (controller cmd) cases (on_command s cmd).1 Hno)
      as (n & Hn & Hb).
    exists (S n).
    cbn [commandExecutor snd all_writes flat_map written].
    fold (all_writes (commandExecutor (on_command s cmd).1 cases).2).
    rewrite to_controller_app, Hw, to_controller_same, Hn.
    unfold entry_value, budget in *. rewrite Hl in *. cbn in *.
    split; [reflexivity | lia].
  - intros s cmd ticks Hr.
    destruct (Hins s cmd Hr) as [Hl Hw].
    cbn [commandExecutor snd fst all_writes flat_map written].
    fold (all_writes (commandExecutor (on_command s cmd).1 (List.repeat RecvTick ticks)).2).
    rewrite to_controller_app, Hw, to_controller_same, ticks_use_budget, ticks_lookup.
    unfold entry_value, budget. rewrite Hl. cbn [counter tvalue].
    split.
    + replace (Nat.min (S ticks) 50)
        with (S (Z.to_nat (Z.min (Z.of_nat ticks) (Z.max 0 (50 - 1))))) by lia.
      reflexivity.
    + intros Hn. destruct ticks as [|t]; [lia|]. cbn [Nat.eqb].
      destruct (Z.ltb_spec (Z.of_nat (S t)) 50); [lia | reflexivity].
Qed.

Lemma sustain_repeat_budget_witness :
  exists n : nat,
    to_controller 0
      (all_writes
         (commandExecutor executor_init
            [RecvCommand (mkCommand 0 90 true); RecvTick;
             RecvCommand (mkCommand 3 127 false); RecvTick]).2)
      = List.repeat (mkCC 0 90) n /\
    (1 <= n <= 50)%nat.
Proof.
  destruct sustain_repeat_budget as (_ & _ & Hbound & _).
  apply (Hbound executor_init (mkCommand 0 90 true)
           [RecvTick; RecvCommand (mkCommand 3 127 false); RecvTick]).
  - reflexivity.
  - repeat constructor. cbn. lia.
Defined.

(** C4 (cancellation).  A command without repeat removes the entry of its
    controller from the repeat table at once; from then on, as long as no
    command with repeat arrives for that controller, no tick writes to it.
    Every case of the loop that leaves the table empty leaves the ticker
    stopped, and so does every run from the initial state. *)
Theorem non_sustain_cancels :
  (forall (s : executor) (cmd : midiControllerCommand),
     repeat cmd = false ->
     repeatcmd (on_command s cmd).1 !! controller cmd = None) /\
  (forall (s : executor) (cmd : midiControllerCommand) (cases : list select_case),
     repeat cmd = false ->
     no_sustain_for (controller cmd) cases ->
     to_controller (controller cmd)
       (tick_writes (commandExecutor s (RecvCommand cmd :: cases)).2) = []) /\
  (forall (s : executor) (cmd : midiControllerCommand),
     repeatcmd (on_command s cmd).1 = ∅ -> ticking (on_command s cmd).1 = false) /\
  (forall s : executor,
     repeatcmd (on_tick s).1 = ∅ -> ticking (on_tick s).1 = false) /\
  (forall s : executor, ticking (on_quit s) = false) /\
  (forall cases : list select_case,
     repeatcmd (commandExecutor executor_init cases).1 = ∅ ->
     ticking (commandExecutor executor_init cases).1 = false).
Proof.
  assert (Hdel : forall s cmd, repeat cmd = false ->
            repeatcmd (on_command s cmd).1 !! controller cmd = None).
  { intros s cmd Hr. unfold on_command. rewrite Hr. cbn. apply lookup_delete_eq. }
  split; [exact Hdel|].
  split.
  - intros s cmd cases Hr Hno.
    cbn [commandExecutor snd tick_writes flat_map taken app].
    apply no_entry_no_tick_write; [apply Hdel|]; assumption.
  - split; [exact on_command_idle|].
    split; [exact on_tick_idle|].
    split; [reflexivity|].
    intros cases. apply reachable_idle. reflexivity.
Qed.

Lemma non_sustain_cancels_witness :
  to_controller 0
    (tick_writes
       (commandExecutor
          (mkExecutor {[ 0 := mkTick 37 90; 1 := mkTick 12 36 ]} true)
          [RecvCommand (mkCommand 0 255 false); RecvTick;
           RecvCommand (mkCommand 1 18 true); RecvTick; RecvTick]).2) = [].
Proof.
  destruct non_sustain_cancels as (_ & Hquiet & _).
  apply (Hquiet (mkExecutor {[ 0 := mkTick 37 90; 1 := mkTick 12 36 ]} true)
           (mkCommand 0 255 false)
           [RecvTick; RecvCommand (mkCommand 1 18 true); RecvTick; RecvTick]).
  - reflexivity.
  - repeat constructor. cbn. intros H. discriminate H.
Defined.

Import Controller.

(** C9 (guard of [SendCommand]).  On a controller whose [output] is nil,
    [SendCommand] returns [ErrMIDIDeviceNotInitialized] and leaves the
    mailbox, like the rest of the controller, as it was; this is the case of
    every controller on which no [Open] has returned nil.  With [output]
    set, the call returns as soon as the mailbox has room, it returns nil,
    and the mailbox then holds exactly one more command, the one sent; right
    after a successful [Open] the mailbox is empty, so the call returns at
    once.  Whenever the call returns with [output] set, this is what it
    has done.  On a full mailbox the call waits, with nothing enqueued, and
    goes through as soon as the executor has received the pending
    command. *)
Theorem SendCommand_guard :
  (forall (mc : midiControl) (c v : Z) (r : bool),
     output mc = None ->
     SendCommand mc c v r = (Returns (Some ErrMIDIDeviceNotInitialized), mc)) /\
  (forall (mc : midiControl) (c v : Z) (r : bool),
     never_opened mc ->
     SendCommand mc c v r = (Returns (Some ErrMIDIDeviceNotInitialized), mc)) /\
  (forall (mc : midiControl) (c v : Z) (r : bool) (o : Out)
          (q : list midiControllerCommand),
     output mc = Some o ->
     commandch mc = Some q ->
     (length q < commandch_capacity)%nat ->
     SendCommand mc c v r
       = (Returns None, set_commandch (Some (q ++ [mkCommand c v r])) mc)) /\
  (forall (mc : midiControl) (c v : Z) (r : bool),
     just_opened mc ->
     SendCommand mc c v r
       = (Returns None, set_commandch (Some [mkCommand c v r]) mc)) /\
  (forall (mc mc' : midiControl) (c v : Z) (r : bool) (o : Out) (e : option error),
     output mc = Some o ->
     SendCommand mc c v r = (Returns e, mc') ->
     e = None /\
     exists q, commandch mc = Some q /\
               mc' = set_commandch (Some (q ++ [mkCommand c v r])) mc) /\
  (forall (mc : midiControl) (c v : Z) (r : bool) (o : Out)
          (pending : midiControllerCommand),
     output mc = Some o ->
     commandch mc = Some [pending] ->
     SendCommand mc c v r = (Blocks, mc) /\
     exists mc1,
       receive_command mc = Some (pending, mc1) /\
       SendCommand mc1 c v r
         = (Returns None, set_commandch (Some [mkCommand c v r]) mc1)).
Proof.
  assert (Hnil : forall mc c v r, output mc = None ->
            SendCommand mc c v r = (Returns (Some ErrMIDIDeviceNotInitialized), mc)).
  { intros mc c v r Ho. unfold SendCommand. rewrite Ho. reflexivity. }
  assert (Hroom : forall mc c v r o q,
            output mc = Some o -> commandch mc = Some q ->
            (length q < commandch_capacity)%nat ->
            SendCommand mc c v r
              = (Returns None, set_commandch (Some (q ++ [mkCommand c v r])) mc)).
  { intros mc c v r o q Ho Hq Hlen. unfold SendCommand. rewrite Ho, Hq.
    destruct (Nat.ltb_spec (length q) commandch_capacity); [reflexivity | lia]. }
  split; [exact Hnil|].
  split.
  { intros mc c v r Hn. apply Hnil. apply never_opened_nil. assumption. }
  split; [exact Hroom|].
  split.
  { intros mc c v r Hj.
    destruct (just_opened_fields mc Hj) as (_ & Hq & [o Ho] & _).
    apply (Hroom mc c v r o [] Ho Hq). unfold commandch_capacity. cbn. lia. }
  split.
  { intros mc mc' c v r o e Ho. unfold SendCommand. rewrite Ho.
    destruct (commandch mc) as [q|]; [|discriminate].
    destruct (length q <? commandch_capacity)%nat; [|discriminate].
    intros [= <- <-]. split; [reflexivity|]. exists q. split; reflexivity. }
  intros mc c v r o pending Ho Hq. split.
  - unfold SendCommand. rewrite Ho, Hq. reflexivity.
  - exists (set_commandch (Some []) mc). split.
    + unfold receive_command. rewrite Hq. reflexivity.
    + unfold SendCommand. cbn. rewrite Ho. reflexivity.
Qed.

Lemma SendCommand_guard_witness :
  SendCommand (NewMIDIController None "ShuttleMIDI" 100000000 0) 0 90 true
    = (Returns (Some ErrMIDIDeviceNotInitialized),
       NewMIDIController None "ShuttleMIDI" 100000000 0) /\
  SendCommand
    (mkControl "ShuttleMIDI" 100000000 0 None (Some (mkOut "ShuttleMIDI 1" None None))
       (Some 0) (Some []) OpenChan) 0 90 true
    = (Returns None,
       mkControl "ShuttleMIDI" 100000000 0 None (Some (mkOut "ShuttleMIDI 1" None None))
         (Some 0) (Some [mkCommand 0 90 true]) OpenChan).
Proof.
  destruct SendCommand_guard as (Hnil & _ & Hroom & _).
  split.
  - apply Hnil. reflexivity.
  - assert (Hlen : (length (@nil midiControllerCommand) < commandch_capacity)%nat)
      by (unfold commandch_capacity; cbn; lia).
    exact (Hroom
             (mkControl "ShuttleMIDI" 100000000 0 None
                (Some (mkOut "ShuttleMIDI 1" None None)) (Some 0) (Some []) OpenChan)
             0 90 true (mkOut "ShuttleMIDI 1" None None) [] eq_refl eq_refl Hlen).
Defined.

(** C10 ([Close] needs a successful [Open]).  On every controller on which
    no call of [Open] has returned nil, both [quitch] and [output] are nil
    and [Close] panics: its first statement closes the nil [quitch]; and a
    nil [output] alone makes [Close] panic as well, at [mc.output.Close()].
    After an [Open] that returned nil, [Close] does not panic in its own
    code: it returns whenever the driver's own [Close] returns. *)
Theorem Close_needs_Open :
  (forall mc : midiControl,
     never_opened mc ->
     quitch mc = NilChan /\ output mc = None /\
     Close mc = (Panics "close of nil channel", mc, [])) /\
  (forall mc : midiControl,
     quitch mc = OpenChan -> output mc = None ->
     (Close mc).1.1 = Panics nil_dereference) /\
  (forall (mc : midiControl) (d : Driver) (errdrv : option error),
     just_opened mc ->
     drv mc = Some d ->
     Driver_Close d = Returns errdrv ->
     exists (o : Out),
       output mc = Some o /\
       Close mc = (Returns (match Out_Close o with
                            | Some errout => Some errout
                            | None => errdrv
                            end),
                   set_quitch ClosedChan mc,
                   [CloseControllerQuitch; OutputClose (port_name o); DrvClose])).
Proof.
  split; [|split].
  - intros mc Hn. destruct (never_opened_nil mc Hn) as [Hq Ho].
    split; [assumption|]. split; [assumption|].
    unfold Close. rewrite Hq. reflexivity.
  - intros mc Hq Ho. unfold Close. rewrite Hq, Ho. reflexivity.
  - intros mc d errdrv Hj Hd Hc.
    destruct (just_opened_fields mc Hj) as (Hq & _ & [o Ho] & _).
    exists o. split; [assumption|].
    unfold Close. rewrite Hq, Ho, Hd, Hc. reflexivity.
Qed.

Lemma Close_needs_Open_witness :
  Close (NewMIDIController None "ShuttleMIDI" 100000000 0)
    = (Panics "close of nil channel",
       NewMIDIController None "ShuttleMIDI" 100000000 0, []).
Proof.
  destruct Close_needs_Open as (Hnever & _).
  apply (Hnever (NewMIDIController None "ShuttleMIDI" 100000000 0)).
  apply never_opened_new.
Defined.

Import Session.

(** A driver with one port, named as the default configuration expects. *)
Definition one_port_driver : Driver :=
  mkDriver (Returns ([mkOut "ShuttleMIDI 1" None None], None)) (Returns None).

(** The same driver when its port cannot be opened. *)
Definition busy_port_driver : Driver :=
  mkDriver
    (Returns ([mkOut "ShuttleMIDI 1" (Some (ErrLibrary "port busy")) None], None))
    (Returns None).

(** The globals after a first, successful [startListeners "ShuttleMIDI"]. *)
Definition running_session : globals :=
  (startListeners (one_port_driver, None) "ShuttleMIDI" globals_init).1.2.

Lemma running_session_active : session_active running_session.
Proof.
  split; [reflexivity|].
  exists (Open (one_port_driver, None) (fresh_controller "ShuttleMIDI")).1.2.
  split; [reflexivity|].
  exists (one_port_driver, None), (fresh_controller "ShuttleMIDI").
  split; reflexivity.
Defined.

(** C8, as stated, fails when the port is found and its own [Open] fails:
    [Open] only logs that error and returns nil, so [startListeners] shows
    no dialog and starts the consumer. *)
Lemma port_open_failure_starts_consumer :
  ~ (forall (port : string) (e : error),
       In (OutputOpen port (Some e))
          (startListeners (busy_port_driver, None) "ShuttleMIDI" running_session).2 ->
       ~ In (Go GoReadshuttle)
            (startListeners (busy_port_driver, None) "ShuttleMIDI" running_session).2).
Proof.
  intros H.
  apply (H "ShuttleMIDI 1"%string (ErrLibrary "port busy")); vm_compute; tauto.
Qed.

(** C8 (restart of a session), amended.  When [startListeners] runs while a
    session is active, its first four actions are: close the session's
    [quitch] (the consumer is signalled to stop), close the controller's
    [quitch], close the old port, close the old driver; every action of the
    new [Open] comes after them.  Whenever the teardown has returned and the
    new [Open] returns an error, that error is [ErrMIDIDeviceNotFound],
    [startListeners] returns, it has started no goroutine (neither the
    executor nor the consumer), no port has been opened, and the last action
    is the error dialog carrying the error's text.  The consumer is started
    only when the new [Open] has returned nil. *)
Theorem startListeners_restart :
  (forall (env : Driver * option error) (midiname : string) (g : globals),
     session_active g ->
     exists (mc : midiControl) (o : Out) (tail : list effect),
       mcontrol g = Some mc /\ output mc = Some o /\
       (startListeners env midiname g).2 =
         CloseSessionQuitch :: CloseControllerQuitch ::
         OutputClose (port_name o) :: DrvClose :: tail /\
       (tail = [] \/
        exists rest, tail = (Open env (fresh_controller midiname)).2 ++ rest)) /\
  (forall (env : Driver * option error) (midiname : string) (g : globals)
          (err : error),
     (stop_previous g).1.1 = Returns tt ->
     (Open env (fresh_controller midiname)).1.1 = Returns (Some err) ->
     err = ErrMIDIDeviceNotFound /\
     (startListeners env midiname g).1.1 = Returns tt /\
     (startListeners env midiname g).2 =
       (stop_previous g).2 ++ (Open env (fresh_controller midiname)).2 ++
       [DlgsError applicationName (open_failed_text ++ error_text err)] /\
     List.filter is_go (startListeners env midiname g).2 = [] /\
     (forall port res,
        ~ In (OutputOpen port res) (Open env (fresh_controller midiname)).2)) /\
  (forall (env : Driver * option error) (midiname : string) (g : globals),
     In (Go GoReadshuttle) (startListeners env midiname g).2 ->
     (Open env (fresh_controller midiname)).1.1 = Returns None).
Proof.
  split; [|split].
  - intros env midiname g Hact.
    destruct (stop_previous_active g Hact) as (mc & o & Hmc & Ho & Hfx).
    exists mc, o.
    unfold startListeners. fold (fresh_controller midiname).
    destruct (stop_previous g).1.1 as [u|msg|] eqn:Hres; cbn [snd].
    + destruct (Open env (fresh_controller midiname)).1.1 as [[e|]|msg|];
        cbn [snd]; rewrite Hfx; cbn [app].
      * eexists. repeat split; try eassumption. right. eexists. reflexivity.
      * eexists. repeat split; try eassumption. right. eexists. reflexivity.
      * eexists. repeat split; try eassumption. right. exists [].
        rewrite app_nil_r. reflexivity.
      * eexists. repeat split; try eassumption. right. exists [].
        rewrite app_nil_r. reflexivity.
    + rewrite Hfx. exists []. repeat split; try assumption. left. reflexivity.
    + rewrite Hfx. exists []. repeat split; try assumption. left. reflexivity.
  - intros env midiname g err Hstop Hopen.
    destruct (Open_error env (fresh_controller midiname) err Hopen)
      as (Herr & Hgo & Hport).
    unfold startListeners. fold (fresh_controller midiname).
    rewrite Hstop, Hopen. cbn [fst snd].
    split; [assumption|].
    split; [reflexivity|]. split; [reflexivity|]. split; [|exact Hport].
    rewrite !List.filter_app, stop_previous_no_go, Hgo. reflexivity.
  - intros env midiname g Hin.
    assert (Hgo : In (Go GoReadshuttle)
                    (List.filter is_go (startListeners env midiname g).2))
      by (apply List.filter_In; split; [assumption | reflexivity]).
    revert Hgo. clear Hin.
    unfold startListeners. fold (fresh_controller midiname).
    destruct (stop_previous g).1.1 as [u|msg|] eqn:Hres; cbn [snd].
    + destruct (Open env (fresh_controller midiname)).1.1 as [[e|]|msg|] eqn:Hopen;
        cbn [snd]; rewrite ?List.filter_app, ?stop_previous_no_go; cbn [app];
        try reflexivity.
      * rewrite (proj1 (proj2 (Open_error _ _ _ Hopen))). intros [].
      * intros H. exfalso. revert H. apply Open_no_readshuttle.
      * intros H. exfalso. revert H. apply Open_no_readshuttle.
    + rewrite stop_previous_no_go. intros [].
    + rewrite stop_previous_no_go. intros [].
Qed.

Lemma startListeners_restart_witness :
  (exists (mc : midiControl) (o : Out) (tail : list effect),
     mcontrol running_session = Some mc /\ output mc = Some o /\
     (startListeners (one_port_driver, None) "loopMIDI Port" running_session).2 =
       CloseSessionQuitch :: CloseControllerQuitch ::
       OutputClose (port_name o) :: DrvClose :: tail /\
     (tail = [] \/
      exists rest,
        tail = (Open (one_port_driver, None)
                  (fresh_controller "loopMIDI Port"%string)).2 ++ rest)) /\
  (startListeners (one_port_driver, None) "loopMIDI Port" running_session).1.1
    = Returns tt /\
  List.filter is_go
    (startListeners (one_port_driver, None) "loopMIDI Port" running_session).2 = [].
Proof.
  destruct startListeners_restart as (Horder & Hfail & _).
  split.
  - apply Horder. exact running_session_active.
  - destruct (Hfail (one_port_driver, None) "loopMIDI Port"%string running_session
                ErrMIDIDeviceNotFound) as (_ & Hret & _ & Hgo & _).
    + reflexivity.
    + reflexivity.
    + split; assumption.
Defined.

Import Decoder.

(** A fresh device as [NewShuttlExpress] returns it: the handle is open and
    no channel has been made yet. *)
Definition fresh_device : ShuttlExpress := mkShuttle true None status_zero.

(** The same device once [readshuttle] has made its channels. *)
Definition attached_device : ShuttlExpress :=
  mkShuttle true None (make_channels status_zero).

Lemma attached_all_made : all_made (status attached_device).
Proof. repeat split. Defined.

(** C5, as stated, fails before the consumer has made the channel: the
    report's wheel byte differs from the stored value, yet no event is
    sent (and the stored value stays). *)
Lemma wheel_event_needs_channel :
  ~ (wheel_events (decode (report 3 0 0 0) status_zero).2 <> [] <->
     wheel_pos (report 3 0 0 0) <> wheel_value status_zero).
Proof. intros [_ H]. apply H; [discriminate | reflexivity]. Qed.

(** C5 (wheel edge detection), amended.  While the [Wheel_position] channel
    is made and [readshuttle] receives on it, a report sends a wheel event
    exactly when its wheel byte differs from the stored wheel value, the
    event carries the new position, and the stored value changes exactly
    when an event is sent; after the report the stored value is the
    report's.  So of two reports decoded one after the other in that
    situation, the second sends a wheel event exactly when its wheel byte
    differs from the first's, and with all channels made and served a
    sequence of reports sends one wheel event for every position that
    differs from the one before it, the first being compared with the value
    stored before the sequence.  While the channel is nil, no wheel event is
    sent and the stored value is kept.  While the channel is made but nobody
    receives on it, no wheel event is delivered and the stored value is
    kept; a wheel byte that differs blocks the goroutine in its send for
    good. *)
Theorem wheel_edge_detection :
  (forall (buf : list Z) (st : ShuttleStatus),
     Wheel_position st = chan_made ->
     wheel_events (decode buf st).2 =
       (if wheel_pos buf =? wheel_value st then []
        else [WheelPosition (wheel_pos buf)]) /\
     wheel_value (decode buf st).1.2 = wheel_pos buf /\
     (wheel_events (decode buf st).2 <> [] <-> wheel_pos buf <> wheel_value st) /\
     (wheel_value (decode buf st).1.2 <> wheel_value st <->
      wheel_events (decode buf st).2 <> [])) /\
  (forall (prev buf : list Z) (st : ShuttleStatus),
     Wheel_position st = chan_made ->
     (wheel_events (decode buf (decode prev st).1.2).2 <> [] <->
      wheel_pos buf <> wheel_pos prev)) /\
  (forall (bufs : list (list Z)) (se : ShuttlExpress),
     all_made (status se) ->
     wheel_events (emitted (readdevice_loop se (List.map ReadOk bufs)))
       = wheel_changes (wheel_value (status se)) (List.map wheel_pos bufs)) /\
  (forall (buf : list Z) (st : ShuttleStatus),
     Wheel_position st = chan_nil ->
     wheel_events (decode buf st).2 = [] /\
     wheel_value (decode buf st).1.2 = wheel_value st) /\
  (forall (buf : list Z) (st : ShuttleStatus),
     Wheel_position st = chan_unserved ->
     wheel_events (decode buf st).2 = [] /\
     wheel_value (decode buf st).1.2 = wheel_value st /\
     (wheel_pos buf <> wheel_value st -> decode buf st = (None, st, []))).
Proof.
  assert (Hmade : forall buf st, Wheel_position st = chan_made ->
            wheel_events (decode buf st).2 =
              (if wheel_pos buf =? wheel_value st then []
               else [WheelPosition (wheel_pos buf)]) /\
            wheel_value (decode buf st).1.2 = wheel_pos buf /\
            (wheel_events (decode buf st).2 <> [] <->
             wheel_pos buf <> wheel_value st) /\
            (wheel_value (decode buf st).1.2 <> wheel_value st <->
             wheel_events (decode buf st).2 <> [])).
  { intros buf st Hm.
    destruct (wheel_events_made buf st Hm) as [Hev Hval].
    rewrite Hev, Hval. split; [reflexivity|]. split; [reflexivity|].
    destruct (Z.eqb_spec (wheel_pos buf) (wheel_value st)) as [Heq|Hne].
    + split; split; intros H; congruence.
    + split; split; intros H; congruence. }
  split; [exact Hmade|]. split; [|split; [|split]].
  - intros prev buf st Hm.
    assert (Hm' : Wheel_position (decode prev st).1.2 = chan_made).
    { destruct (decode_keeps_channels prev) as (Hk & _). rewrite (Hk st). exact Hm. }
    destruct (Hmade buf _ Hm') as (_ & _ & Hiff & _).
    destruct (Hmade prev st Hm) as (_ & Hval & _).
    rewrite Hval in Hiff. exact Hiff.
  - intros bufs se Hm. apply loop_reports. assumption.
  - intros buf st Hnil.
    rewrite wheel_events_decode, wheel_value_decode.
    rewrite decode_wheel_nil by assumption. split; reflexivity.
  - intros buf st Hun.
    rewrite wheel_events_decode, wheel_value_decode.
    rewrite decode_wheel_unserved by assumption. cbn [fst snd].
    split; [reflexivity|]. split; [reflexivity|].
    intros Hne. apply decode_blocked_at_wheel.
    rewrite decode_wheel_unserved by assumption. cbn [fst].
    destruct (Z.eqb_spec (wheel_pos buf) (wheel_value st));
      [contradiction | reflexivity].
Qed.

Lemma wheel_edge_detection_witness :
  wheel_events
    (emitted (readdevice_loop attached_device
                (List.map ReadOk [report 3 0 0 0; report 3 0 0 0; report 0 0 0 0])))
  = wheel_changes 0 [3; 3; 0].
Proof.
  destruct wheel_edge_detection as (_ & _ & Hseq & _).
  exact (Hseq [report 3 0 0 0; report 3 0 0 0; report 0 0 0 0] attached_device
           attached_all_made).
Defined.

(** The first report after the channel has been made is compared with the
    value stored before, not with the report decoded before it: wheel byte 3
    decoded while the channel is nil, then wheel byte 3 again once it is
    made, sends [WheelPosition 3]. *)
Example wheel_first_report_after_make :
  wheel_events
    (decode (report 3 0 0 0)
       (make_channels (decode (report 3 0 0 0) status_zero).1.2)).2
  = [WheelPosition 3].
Proof. reflexivity. Qed.




(** A counter decoded while the channel is nil leaves the baseline where it
    was: counter 5 decoded with a nil channel, then counter 6 once the
    channel is made, meets the baseline 0 and sends no dial event. *)
Example dial_first_report_after_make :
  dial_events
    (decode (report 0 6 0 0)
       (make_channels (decode (report 0 5 0 0) status_zero).1.2)).2 = [].
Proof. reflexivity. Qed.

(** C6, as stated, fails before the consumer has made the channels: the bit
    of button 1 differs from its stored value, and no event is sent. *)
Lemma button_event_needs_channel :
  ~ (button_bit Button1 (report 0 0 16 0) <> button_value Button1 status_zero ->
     In (ButtonEdge Button1 (button_bit Button1 (report 0 0 16 0)))
        (decode (report 0 0 16 0) status_zero).2).
Proof. intros H. apply H. discriminate. Qed.

(** C6 (changes are sent), amended.  With every channel made and
    [readshuttle] receiving on them, an iteration completes, and for the
    wheel and for each of the five buttons it sends the event of the control
    exactly when the report differs from the stored value, and nothing else
    for that control; afterwards the stored value is the report's.  With
    every channel nil, that is before [readshuttle] has made them, an
    iteration sends nothing and keeps every stored value.  With every
    channel made but no [readshuttle] receiving any more, an iteration
    delivers nothing either and keeps the stored wheel and button values;
    the first wheel byte or button bit that differs blocks the goroutine in
    its send for good. *)
Theorem changes_emit_with_consumer :
  (forall (buf : list Z) (st : ShuttleStatus),
     all_made st ->
     (decode buf st).1.1 = Some tt /\
     wheel_events (decode buf st).2 =
       (if wheel_pos buf =? wheel_value st then []
        else [WheelPosition (wheel_pos buf)]) /\
     wheel_value (decode buf st).1.2 = wheel_pos buf /\
     (forall b : button,
        button_events b (decode buf st).2 =
          (if Bool.eqb (button_bit b buf) (button_value b st) then []
           else [ButtonEdge b (button_bit b buf)]) /\
        button_value b (decode buf st).1.2 = button_bit b buf)) /\
  (forall (buf : list Z) (st : ShuttleStatus) (b : button),
     all_made st ->
     button_bit b buf <> button_value b st ->
     In (ButtonEdge b (button_bit b buf)) (decode buf st).2) /\
  (forall (buf : list Z) (st : ShuttleStatus),
     all_made st ->
     wheel_pos buf <> wheel_value st ->
     In (WheelPosition (wheel_pos buf)) (decode buf st).2) /\
  (forall (buf : list Z) (st : ShuttleStatus),
     all_nil st -> decode buf st = (Some tt, st, [])) /\
  (forall (buf : list Z) (st : ShuttleStatus),
     all_unserved st ->
     (decode buf st).2 = [] /\
     wheel_value (decode buf st).1.2 = wheel_value st /\
     (forall b : button, button_value b (decode buf st).1.2 = button_value b st) /\
     (wheel_pos buf <> wheel_value st -> (decode buf st).1.1 = None) /\
     (forall b : button,
        button_bit b buf <> button_value b st -> (decode buf st).1.1 = None)).
Proof.
  assert (Hbtn : forall buf st b, all_made st ->
            button_events b (decode buf st).2 = button_change buf st b).
  { intros buf st b Hmade. rewrite decode_all_made by assumption.
    apply button_events_decoded. }
  split; [|split; [|split; [|split]]].
  - intros buf st Hmade.
    split; [rewrite decode_all_made by assumption; reflexivity|].
    destruct (wheel_events_made buf st (proj1 Hmade)) as [Hev Hval].
    split; [assumption|]. split; [assumption|].
    intros b. split; [apply Hbtn; assumption|].
    rewrite decode_all_made by assumption. destruct b; reflexivity.
  - intros buf st b Hmade Hne.
    assert (Hin : In (ButtonEdge b (button_bit b buf))
                    (button_events b (decode buf st).2)).
    { rewrite Hbtn by assumption. unfold button_change.
      destruct (Bool.eqb_spec (button_bit b buf) (button_value b st));
        [contradiction | left; reflexivity]. }
    unfold button_events in Hin. apply List.filter_In in Hin. apply Hin.
  - intros buf st Hmade Hne.
    destruct (wheel_events_made buf st (proj1 Hmade)) as [Hev _].
    assert (Hin : In (WheelPosition (wheel_pos buf))
                    (wheel_events (decode buf st).2)).
    { rewrite Hev. destruct (Z.eqb_spec (wheel_pos buf) (wheel_value st));
        [contradiction | left; reflexivity]. }
    unfold wheel_events in Hin. apply List.filter_In in Hin. apply Hin.
  - intros buf st Hnil. apply decode_all_nil. assumption.
  - intros buf st Hun.
    destruct (decode_all_unserved buf st Hun) as (Hev & Hst & Hw & Hb).
    split; [exact Hev|].
    split; [destruct Hst as [-> | ->]; reflexivity|].
    split; [intros b; destruct Hst as [-> | ->]; destruct b; reflexivity|].
    split; [exact Hw|].
    intros b Hne. apply Hb. unfold buttons_differ. apply existsb_exists.
    exists b. split; [destruct b; cbn; tauto|].
    destruct (Bool.eqb_spec (button_bit b buf) (button_value b st));
      [contradiction | reflexivity].
Qed.

Lemma changes_emit_with_consumer_witness :
  In (ButtonEdge Button5 (button_bit Button5 (report 0 0 0 1)))
     (decode (report 0 0 0 1) (make_channels status_zero)).2.
Proof.
  destruct changes_emit_with_consumer as (_ & Hbtn & _).
  apply (Hbtn (report 0 0 0 1) (make_channels status_zero) Button5).
  - repeat split.
  - discriminate.
Defined.

(** After the consumer has returned and no new one has been started, as
    when a restart fails to open its sink, the first wheel change blocks the
    decoder; nothing is delivered and the next report is never read. *)
Example change_without_consumer :
  readdevice_loop
    (mkShuttle true None (consumer_returns (make_channels status_zero)))
    [ReadOk (report 3 0 0 0); ReadOk (report 0 0 16 0)]
  = mkRun (mkShuttle true None (consumer_returns (make_channels status_zero)))
      [] 1 BlockedInSend.
Proof. reflexivity. Qed.

(** C7, as stated, fails: a read failure changes nothing of what the
    consumer observes.  After one report and a failing read the consumer has
    received what it would have received had the device stayed silent. *)
Lemma read_failure_not_signalled :
  ~ signals_termination attached_device [ReadOk (report 3 0 0 0)]
      (ErrLibrary "hid: read failed").
Proof. intros H. apply H. reflexivity. Qed.

(** C7 (read failure), amended.  When a read fails, [readdevice] stores the
    error in [err] and returns: the failing read is its last read, whatever
    the device would have delivered afterwards.  It sends nothing to its
    consumer on that occasion: the events sent are those of the reports read
    before, and the stored values are left as those reports left them.
    Called with a nil handle, it stores [ErrShuttleExpressDeviceNotOpened]
    and returns without reading. *)
Theorem read_failure_stops_polling :
  (forall (se : ShuttlExpress) (pre post : list read_result) (e : error),
     devhandle se = true ->
     ended (readdevice se pre) = WaitingInRead ->
     ended (readdevice se (pre ++ ReadErr e :: post)) = Returned /\
     err (final (readdevice se (pre ++ ReadErr e :: post))) = Some e /\
     reads_done (readdevice se (pre ++ ReadErr e :: post)) = S (length pre) /\
     emitted (readdevice se (pre ++ ReadErr e :: post)) = emitted (readdevice se pre) /\
     status (final (readdevice se (pre ++ ReadErr e :: post)))
       = status (final (readdevice se pre))) /\
  (forall (se : ShuttlExpress) (pre : list read_result) (e : error),
     devhandle se = true ->
     ended (readdevice se pre) = WaitingInRead ->
     ~ signals_termination se pre e) /\
  (forall (se : ShuttlExpress) (reads : list read_result),
     devhandle se = false ->
     readdevice se reads =
       mkRun (mkShuttle false (Some ErrShuttleExpressDeviceNotOpened) (status se))
         [] 0 Returned).
Proof.
  assert (Hloop : forall se pre post e,
            devhandle se = true ->
            ended (readdevice se pre) = WaitingInRead ->
            ended (readdevice se (pre ++ ReadErr e :: post)) = Returned /\
            err (final (readdevice se (pre ++ ReadErr e :: post))) = Some e /\
            reads_done (readdevice se (pre ++ ReadErr e :: post)) = S (length pre) /\
            emitted (readdevice se (pre ++ ReadErr e :: post))
              = emitted (readdevice se pre) /\
            status (final (readdevice se (pre ++ ReadErr e :: post)))
              = status (final (readdevice se pre))).
  { intros se pre post e Hh. unfold readdevice. rewrite Hh. intros Hend.
    destruct (loop_read_error pre se e post Hend) as (H1 & H2 & H3 & H4 & H5).
    repeat split; assumption. }
  split; [exact Hloop|]. split.
  - intros se pre e Hh Hend Hsig. apply Hsig. unfold consumer_view.
    apply (Hloop se pre [] e Hh Hend).
  - intros se reads Hh. unfold readdevice. rewrite Hh. reflexivity.
Qed.

Lemma read_failure_stops_polling_witness :
  ended (readdevice attached_device
           ([ReadOk (report 3 0 0 0)] ++
            ReadErr (ErrLibrary "hid: read failed") :: [ReadOk (report 0 0 0 0)]))
    = Returned /\
  reads_done (readdevice attached_device
                ([ReadOk (report 3 0 0 0)] ++
                 ReadErr (ErrLibrary "hid: read failed") :: [ReadOk (report 0 0 0 0)]))
    = 2%nat.
Proof.
  destruct read_failure_stops_polling as (Hstop & _).
  destruct (Hstop attached_device [ReadOk (report 3 0 0 0)]
              [ReadOk (report 0 0 0 0)] (ErrLibrary "hid: read failed"))
    as (Hend & _ & Hn & _).
  - reflexivity.
  - reflexivity.
  - split; assumption.
Defined.

(** The end-to-end example of the specification: the reports wheel=3,
    wheel=3, wheel=0 lead to the command (0, 90, repeat) once, to nothing for
    the second report, then to the two release commands. *)
Example end_to_end :
  readshuttle_cases
    (emitted (readdevice attached_device
                (List.map ReadOk [report 3 0 0 0; report 3 0 0 0; report 0 0 0 0])))
  = [mkCommand 0 90 true; mkCommand 0 255 false; mkCommand 1 255 false].
Proof. reflexivity. Qed.

(* ===================================================================== *)
(** * Further properties of the dispatcher *)
(* ===================================================================== *)

Module DispatcherFacts.

Import Dispatcher.

(** The writes of the [range] loop, entry by entry, in iteration order. *)
Lemma tick_fold_written (l : list (Z * tickstruct)) acc :
  (foldl tick_entry acc l).2 = acc.2 ++ flat_map (fun kv => tick_out kv.1 kv.2) l.
Proof.
  revert acc. induction l as [|[k v] l IH]; intros acc.
  - cbn. rewrite app_nil_r. reflexivity.
  - cbn [foldl flat_map]. rewrite IH. unfold tick_entry, tick_out. cbn [fst snd].
    destruct (1 <? counter v); cbn [snd].
    + rewrite <- app_assoc. reflexivity.
    + reflexivity.
Qed.

Lemma tick_range_table (m : gmap Z tickstruct) :
  (tick_range m).1 = omap tick_one m.
Proof.
  apply map_eq. intros k. rewrite tick_range_lookup, lookup_omap. reflexivity.
Qed.

(** X1 (a tick in closed form).  The tick case turns the repeat table into
    the table in which every counter above 1 is decremented and every other
    entry is dropped; it writes (k, v) exactly for the entries (k, v) whose
    counter is above 1, so never for a controller that is not in the table,
    and it makes at most as many writes as the table has entries. *)
Theorem tick_closed_form :
  forall s : executor,
    repeatcmd (on_tick s).1 = omap tick_one (repeatcmd s) /\
    (forall k v : Z,
       In (mkCC k v) (on_tick s).2 <->
       exists e, repeatcmd s !! k = Some e /\ 1 < counter e /\ tvalue e = v) /\
    (length (on_tick s).2 <= size (repeatcmd s))%nat.
Proof.
  intros s. unfold on_tick. cbn [fst snd]. split; [apply tick_range_table|].
  unfold tick_range. rewrite tick_fold_written. cbn [snd app]. split.
  - intros k v. rewrite in_flat_map. split.
    + intros ([k' e] & Hin & Hout). cbn [fst snd] in Hout.
      apply list_elem_of_In, elem_of_map_to_list in Hin.
      unfold tick_out in Hout. destruct (Z.ltb_spec 1 (counter e)); [|destruct Hout].
      destruct Hout as [[= -> <-]|[]]. exists e. auto.
    + intros (e & Hk & Hc & <-). exists (k, e). split.
      * apply list_elem_of_In, elem_of_map_to_list. assumption.
      * cbn [fst snd]. unfold tick_out.
        destruct (Z.ltb_spec 1 (counter e)); [left; reflexivity | lia].
  - rewrite <- length_map_to_list.
    induction (map_to_list (repeatcmd s)) as [|[k e] l IH]; [cbn; lia|].
    cbn [flat_map fst snd]. rewrite length_app. unfold tick_out at 1.
    destruct (1 <? counter e); cbn [length]; lia.
Qed.

(** Every counter in the table lies between 1 and [midiMaxRepeat]. *)
Definition counters_ok (s : executor) : Prop :=
  forall k e, repeatcmd s !! k = Some e -> 1 <= counter e <= midiMaxRepeat.

Lemma on_command_counters s cmd : counters_ok s -> counters_ok (on_command s cmd).1.
Proof.
  intros Hs k e. unfold on_command. destruct (repeat cmd); cbn.
  - destruct (decide (controller cmd = k)) as [->|Hne].
    + rewrite lookup_insert_eq. intros [= <-]. cbn. unfold midiMaxRepeat. lia.
    + rewrite lookup_insert_ne by assumption. apply Hs.
  - destruct (decide (controller cmd = k)) as [->|Hne].
    + rewrite lookup_delete_eq. discriminate.
    + rewrite lookup_delete_ne by assumption. apply Hs.
Qed.

Lemma on_tick_counters s : counters_ok s -> counters_ok (on_tick s).1.
Proof.
  intros Hs k e. rewrite on_tick_lookup.
  destruct (repeatcmd s !! k) as [e0|] eqn:Hk; cbn; [|discriminate].
  unfold tick_one. destruct (Z.ltb_spec 1 (counter e0)); [|discriminate].
  intros [= <-]. cbn. specialize (Hs k e0 Hk). lia.
Qed.

Lemma run_counters cases : forall s,
  counters_ok s -> counters_ok (commandExecutor s cases).1.
Proof.
  induction cases as [|c rest IH]; intros s Hs; [exact Hs|].
  destruct c as [|cmd|]; cbn [commandExecutor fst].
  - exact Hs.
  - apply IH, on_command_counters, Hs.
  - apply IH, on_tick_counters, Hs.
Qed.

(** X2 (counters stay in range).  In every state the loop reaches from its
    initial state, every entry of the repeat table has a counter between 1
    and 50: a counter never reaches 0, and an entry is never re-written more
    than 49 times. *)
Theorem counters_in_range :
  forall (cases : list select_case) (k : Z) (e : tickstruct),
    repeatcmd (commandExecutor executor_init cases).1 !! k = Some e ->
    1 <= counter e <= 50.
Proof.
  intros cases k e. apply (run_counters cases executor_init).
  intros k' e'. cbn. rewrite lookup_empty. discriminate.
Qed.

Lemma counters_in_range_witness :
  1 <= counter (mkTick 48 90) <= 50.
Proof.
  apply (counters_in_range
           [RecvCommand (mkCommand 0 90 true); RecvTick; RecvTick] 0 (mkTick 48 90)).
  vm_compute. reflexivity.
Defined.

(** The ticker runs exactly when the table is not empty. *)
Definition ticker_matches (s : executor) : Prop :=
  ticking s = negb (len_is_zero (repeatcmd s)).

Lemma len_is_zero_false (m : gmap Z tickstruct) :
  len_is_zero m = false <-> m <> ∅.
Proof.
  rewrite <- len_is_zero_empty. destruct (len_is_zero m); split; congruence.
Qed.

Lemma on_command_ticker s cmd : ticker_matches s -> ticker_matches (on_command s cmd).1.
Proof.
  unfold ticker_matches, on_command. intros Hs. destruct (repeat cmd); cbn.
  - symmetry. apply negb_true_iff, len_is_zero_false.
    apply (insert_non_empty (M := gmap Z)).
  - destruct (len_is_zero (delete (controller cmd) (repeatcmd s))) eqn:E;
      [reflexivity|].
    rewrite Hs. cbn. apply negb_true_iff, len_is_zero_false.
    apply len_is_zero_false in E. intros Hempty. apply E.
    rewrite Hempty. apply delete_empty.
Qed.

Lemma on_tick_ticker s : ticker_matches s -> ticker_matches (on_tick s).1.
Proof.
  unfold ticker_matches, on_tick. intros Hs. cbn.
  destruct (len_is_zero (tick_range (repeatcmd s)).1) eqn:E; [reflexivity|].
  rewrite Hs. cbn. apply negb_true_iff, len_is_zero_false.
  apply len_is_zero_false in E. intros Hempty. apply E.
  rewrite Hempty, tick_range_table. apply omap_empty.
Qed.

(** No [RecvQuit] among the cases: the loop is still running. *)
Definition no_quit (cases : list select_case) : Prop :=
  Forall (fun c => c <> RecvQuit) cases.

Lemma run_ticker cases : forall s,
  no_quit cases -> ticker_matches s -> ticker_matches (commandExecutor s cases).1.
Proof.
  induction cases as [|c rest IH]; intros s Hnq Hs; [exact Hs|].
  apply Forall_cons in Hnq as [Hc Hrest].
  destruct c as [|cmd|]; cbn [commandExecutor fst].
  - contradiction Hc. reflexivity.
  - apply IH; [assumption | apply on_command_ticker, Hs].
  - apply IH; [assumption | apply on_tick_ticker, Hs].
Qed.

(** X3 (ticker and table agree).  As long as the loop has not been told to
    quit, the ticker is running if and only if the repeat table is not
    empty: no entry is ever left waiting without ticks, and no tick is
    requested for an empty table. *)
Theorem ticker_runs_iff_entries :
  forall cases : list select_case,
    no_quit cases ->
    (ticking (commandExecutor executor_init cases).1 = true <->
     repeatcmd (commandExecutor executor_init cases).1 <> ∅).
Proof.
  intros cases Hnq.
  assert (H : ticker_matches (commandExecutor executor_init cases).1)
    by (apply run_ticker; [assumption | reflexivity]).
  unfold ticker_matches in H. rewrite H, negb_true_iff. apply len_is_zero_false.
Qed.

Lemma ticker_runs_iff_entries_witness :
  ticking (commandExecutor executor_init
             [RecvCommand (mkCommand 1 36 true); RecvTick;
              RecvCommand (mkCommand 3 127 false)]).1 = true.
Proof.
  apply (ticker_runs_iff_entries
           [RecvCommand (mkCommand 1 36 true); RecvTick;
            RecvCommand (mkCommand 3 127 false)]).
  - repeat constructor; discriminate.
  - vm_compute. discriminate.
Defined.

Lemma run_last_idle cases : forall s,
  cases <> [] ->
  repeatcmd (commandExecutor s cases).1 = ∅ ->
  ticking (commandExecutor s cases).1 = false.
Proof.
  intros s Hne. destruct cases as [|c rest]; [contradiction Hne; reflexivity|].
  destruct c as [|cmd|]; cbn [commandExecutor fst].
  - reflexivity.
  - apply reachable_idle, on_command_idle.
  - apply reachable_idle, on_tick_idle.
Qed.

(** X4 (the table drains).  Once the table holds only counters of at most
    50, as it always does, 50 ticks in a row without a command empty it and
    stop the ticker, whatever it held; further ticks write nothing. *)
Theorem fifty_ticks_drain :
  forall (s : executor) (n : nat),
    counters_ok s ->
    (50 <= n)%nat ->
    repeatcmd (commandExecutor s (List.repeat RecvTick n)).1 = ∅ /\
    ticking (commandExecutor s (List.repeat RecvTick n)).1 = false /\
    (on_tick (commandExecutor s (List.repeat RecvTick n)).1).2 = [].
Proof.
  intros s n Hok Hn.
  assert (Hempty : repeatcmd (commandExecutor s (List.repeat RecvTick n)).1 = ∅).
  { apply map_eq. intros k. rewrite ticks_lookup, lookup_empty.
    destruct (repeatcmd s !! k) as [e|] eqn:Hk; [|reflexivity].
    specialize (Hok k e Hk). unfold midiMaxRepeat in Hok.
    destruct n as [|n]; [lia|]. cbn [Nat.eqb].
    destruct (Z.ltb_spec (Z.of_nat (S n)) (counter e)); [lia | reflexivity]. }
  split; [assumption|]. split.
  - apply run_last_idle; [|assumption]. destruct n; [lia | discriminate].
  - unfold on_tick. cbn [snd]. rewrite Hempty. reflexivity.
Qed.

Lemma fifty_ticks_drain_witness :
  repeatcmd
    (commandExecutor (mkExecutor {[ 0 := mkTick 50 90; 1 := mkTick 7 36 ]} true)
       (List.repeat RecvTick 50)).1 = ∅.
Proof.
  apply (fifty_ticks_drain
           (mkExecutor {[ 0 := mkTick 50 90; 1 := mkTick 7 36 ]} true) 50).
  - intros k e. cbn [repeatcmd]. intros Hk.
    apply lookup_insert_Some in Hk as [[_ <-]|[_ Hk]];
      [cbn; unfold midiMaxRepeat; lia|].
    apply lookup_singleton_Some in Hk as [_ <-]. cbn. unfold midiMaxRepeat. lia.
  - lia.
Defined.

Lemma run_app pre : forall s post,
  no_quit pre ->
  commandExecutor s (pre ++ post) =
    ((commandExecutor (commandExecutor s pre).1 post).1,
     (commandExecutor s pre).2 ++ (commandExecutor (commandExecutor s pre).1 post).2).
Proof.
  induction pre as [|c pre IH]; intros s post Hnq.
  - cbn. destruct (commandExecutor s post). reflexivity.
  - apply Forall_cons in Hnq as [Hc Hpre].
    destruct c as [|cmd|]; [contradiction Hc; reflexivity| |];
      cbn [app commandExecutor fst snd]; rewrite IH by assumption; reflexivity.
Qed.

(** X5 (quit ends the loop).  When the quit signal is taken, the loop
    returns with the ticker stopped: whatever commands and ticks are still
    pending are never handled and nothing more is written; the writes are
    those made before the signal. *)
Theorem quit_ends_loop :
  forall (s : executor) (pre post : list select_case),
    no_quit pre ->
    commandExecutor s (pre ++ RecvQuit :: post) =
      (on_quit (commandExecutor s pre).1,
       (commandExecutor s pre).2 ++ [mkStep RecvQuit []]) /\
    ticking (commandExecutor s (pre ++ RecvQuit :: post)).1 = false /\
    all_writes (commandExecutor s (pre ++ RecvQuit :: post)).2
      = all_writes (commandExecutor s pre).2.
Proof.
  intros s pre post Hnq. rewrite run_app by assumption.
  cbn [commandExecutor fst snd]. split; [reflexivity|]. split; [reflexivity|].
  unfold all_writes. rewrite flat_map_app. cbn. rewrite app_nil_r. reflexivity.
Qed.

Lemma quit_ends_loop_witness :
  all_writes
    (commandExecutor executor_init
       ([RecvCommand (mkCommand 0 90 true); RecvTick] ++
        RecvQuit :: [RecvTick; RecvCommand (mkCommand 0 255 false)])).2
  = [mkCC 0 90; mkCC 0 90].
Proof.
  destruct (quit_ends_loop executor_init
              [RecvCommand (mkCommand 0 90 true); RecvTick]
              [RecvTick; RecvCommand (mkCommand 0 255 false)]) as (_ & _ & H).
  - repeat constructor; discriminate.
  - rewrite H. vm_compute. reflexivity.
Defined.

(** The cases that concern controller [k]: ticks, the quit signal and the
    commands for [k]. *)
Definition concerns (k : Z) (c : select_case) : bool :=
  match c with
  | RecvCommand cmd => controller cmd =? k
  | _ => true
  end.

Lemma on_command_same_lookup s1 s2 cmd k :
  repeatcmd s1 !! k = repeatcmd s2 !! k ->
  repeatcmd (on_command s1 cmd).1 !! k = repeatcmd (on_command s2 cmd).1 !! k.
Proof.
  intros H. unfold on_command. destruct (repeat cmd); cbn.
  - rewrite !lookup_insert. destruct (decide (controller cmd = k)); auto.
  - rewrite !lookup_delete. destruct (decide (controller cmd = k)); auto.
Qed.

Lemma writes_depend_on_entry k cases : forall s1 s2,
  repeatcmd s1 !! k = repeatcmd s2 !! k ->
  to_controller k (all_writes (commandExecutor s1 cases).2) =
  to_controller k
    (all_writes (commandExecutor s2 (List.filter (concerns k) cases)).2).
Proof.
  induction cases as [|c rest IH]; intros s1 s2 Hk; [reflexivity|].
  destruct c as [|cmd|]; cbn [List.filter concerns].
  - reflexivity.
  - destruct (Z.eqb_spec (controller cmd) k) as [Heq|Hne].
    + cbn [commandExecutor snd all_writes flat_map written].
      fold (all_writes (commandExecutor (on_command s1 cmd).1 rest).2).
      fold (all_writes (commandExecutor (on_command s2 cmd).1
                          (List.filter (concerns k) rest)).2).
      rewrite !to_controller_app. f_equal.
      * unfold on_command. destruct (repeat cmd); reflexivity.
      * apply IH. apply on_command_same_lookup. assumption.
    + cbn [commandExecutor snd all_writes flat_map written].
      fold (all_writes (commandExecutor (on_command s1 cmd).1 rest).2).
      destruct (on_command_other s1 cmd k Hne) as [Hl Hw].
      rewrite to_controller_app, Hw. cbn [app].
      apply IH. rewrite Hl. assumption.
  - cbn [commandExecutor snd all_writes flat_map written].
    fold (all_writes (commandExecutor (on_tick s1).1 rest).2).
    fold (all_writes (commandExecutor (on_tick s2).1
                        (List.filter (concerns k) rest)).2).
    rewrite !to_controller_app, !on_tick_writes, Hk. f_equal.
    apply IH. rewrite !on_tick_lookup, Hk. reflexivity.
Qed.

(** X6 (controllers do not interfere).  What the loop writes to a
    controller depends only on the ticks and on the commands for that
    controller: taking the commands for all other controllers out of the run
    leaves the writes to it the same, in number, order and value. *)
Theorem controllers_independent :
  forall (s : executor) (k : Z) (cases : list select_case),
    to_controller k (all_writes (commandExecutor s cases).2) =
    to_controller k
      (all_writes (commandExecutor s (List.filter (concerns k) cases)).2).
Proof. intros s k cases. apply writes_depend_on_entry. reflexivity. Qed.

End DispatcherFacts.

(* ===================================================================== *)
(** * Further properties of the router, and of router and dispatcher
      together *)
(* ===================================================================== *)

Module PipelineFacts.

Import Router Dispatcher DispatcherFacts.

(** X7 (what the router can send).  Whatever event it receives, also a
    wheel position or a dial value outside their usual range, [readshuttle]
    only sends commands for the controllers 0 to 7 with a value between 0
    and 255, and it asks for repetition only on the controllers 0 and 1,
    with a value that is a multiple of 18 between 18 and 126. *)
Theorem router_output_range :
  forall (ev : ControlEvent) (cmd : midiControllerCommand),
    In cmd (readshuttle_case ev) ->
    0 <= controller cmd <= 7 /\
    0 <= value cmd <= 255 /\
    (repeat cmd = true ->
     (controller cmd = 0 \/ controller cmd = 1) /\
     18 <= value cmd <= 126 /\ value cmd mod 18 = 0).
Proof.
  intros ev cmd Hin. destruct ev as [wp|dd|b pressed].
  - destruct (Z_lt_le_dec 0 wp) as [Hpos|Hneg].
    + destruct (Z_le_gt_dec wp 7) as [H7|H7].
      * rewrite wheel_up in Hin by lia. destruct Hin as [<-|[]]. cbn.
        split; [lia|]. split; [lia|]. intros _. split; [left; reflexivity|].
        split; [lia|]. rewrite Z.mul_comm. apply Z.mod_mul. lia.
      * rewrite wheel_release in Hin by lia.
        destruct Hin as [<-|[<-|[]]]; cbn; (split; [lia|]; split; [lia|]);
          discriminate.
    + destruct (Z_le_gt_dec (-7) wp) as [H7|H7].
      * destruct (Z.eq_dec wp 0) as [->|Hnz].
        -- destruct Hin as [<-|[<-|[]]]; cbn; (split; [lia|]; split; [lia|]);
             discriminate.
        -- rewrite wheel_down in Hin by lia. destruct Hin as [<-|[]]. cbn.
           split; [lia|]. split; [lia|]. intros _. split; [right; reflexivity|].
           split; [lia|]. rewrite Z.mul_comm. apply Z.mod_mul. lia.
      * rewrite wheel_release in Hin by lia.
        destruct Hin as [<-|[<-|[]]]; cbn; (split; [lia|]; split; [lia|]);
          discriminate.
  - cbn in Hin. destruct (dd =? 1); destruct Hin as [<-|[]]; cbn;
      (split; [lia|]; split; [lia|]); discriminate.
  - rewrite button_edge in Hin. destruct Hin as [<-|[]].
    destruct b, pressed; cbn; (split; [lia|]; split; [lia|]); discriminate.
Qed.

Lemma router_output_range_witness :
  0 <= controller (mkCommand 1 126 true) <= 7 /\
  0 <= value (mkCommand 1 126 true) <= 255 /\
  (repeat (mkCommand 1 126 true) = true ->
   (controller (mkCommand 1 126 true) = 0 \/ controller (mkCommand 1 126 true) = 1) /\
   18 <= value (mkCommand 1 126 true) <= 126 /\
   value (mkCommand 1 126 true) mod 18 = 0).
Proof.
  apply (router_output_range (WheelPosition (-7)) (mkCommand 1 126 true)).
  left. reflexivity.
Defined.

(** The commands of the loop's cases all come from [readshuttle]. *)
Definition from_router (cases : list select_case) : Prop :=
  Forall (fun c => match c with
                   | RecvCommand cmd => exists ev, In cmd (readshuttle_case ev)
                   | _ => True
                   end) cases.

(** Only the two wheel controllers have an entry. *)
Definition only_wheel (s : executor) : Prop :=
  forall k e, repeatcmd s !! k = Some e -> k = 0 \/ k = 1.

Lemma router_repeat_controller ev cmd :
  In cmd (readshuttle_case ev) -> repeat cmd = true ->
  controller cmd = 0 \/ controller cmd = 1.
Proof.
  intros Hin Hr. destruct ev as [wp|dd|b pressed].
  - cbn in Hin. destruct ((0 <? wp) && (wp <=? 7)).
    + destruct Hin as [<-|[]]. left. reflexivity.
    + destruct ((-7 <=? wp) && (wp <? 0)).
      * destruct Hin as [<-|[]]. right. reflexivity.
      * destruct Hin as [<-|[<-|[]]]; discriminate Hr.
  - cbn in Hin. destruct (dd =? 1); destruct Hin as [<-|[]]; discriminate Hr.
  - rewrite button_edge in Hin. destruct Hin as [<-|[]]. discriminate Hr.
Qed.

Lemma run_only_wheel cases : forall s,
  from_router cases -> only_wheel s -> only_wheel (commandExecutor s cases).1.
Proof.
  induction cases as [|c rest IH]; intros s Hfr Hs; [exact Hs|].
  apply Forall_cons in Hfr as [Hc Hrest].
  destruct c as [|cmd|]; cbn [commandExecutor fst].
  - exact Hs.
  - apply IH; [assumption|]. intros k e. unfold on_command.
    destruct (repeat cmd) eqn:Hr; cbn.
    + destruct (decide (controller cmd = k)) as [<-|Hne].
      * intros _. destruct Hc as [ev Hin].
        apply (router_repeat_controller ev cmd Hin Hr).
      * rewrite lookup_insert_ne by assumption. apply Hs.
    + destruct (decide (controller cmd = k)) as [<-|Hne].
      * rewrite lookup_delete_eq. discriminate.
      * rewrite lookup_delete_ne by assumption. apply Hs.
  - apply IH; [assumption|]. intros k e. rewrite on_tick_lookup.
    destruct (repeatcmd s !! k) as [e0|] eqn:Hk; cbn; [|discriminate].
    intros _. apply (Hs k e0 Hk).
Qed.

(** X8 (the wheel at rest silences the dispatcher).  Whatever the router
    has sent before and whatever ticks have come in between, once the two
    commands of a wheel event at rest (position 0, or outside -7..7) have
    been handled, the repeat table is empty and the ticker is stopped:
    nothing is re-sent any more. *)
Theorem wheel_rest_silences :
  forall (cases : list select_case) (p : Z),
    from_router cases ->
    no_quit cases ->
    p = 0 \/ p < -7 \/ 7 < p ->
    repeatcmd
      (commandExecutor executor_init
         (cases ++ List.map RecvCommand (readshuttle_case (WheelPosition p)))).1 = ∅ /\
    ticking
      (commandExecutor executor_init
         (cases ++ List.map RecvCommand (readshuttle_case (WheelPosition p)))).1 = false.
Proof.
  intros cases p Hfr Hnq Hp.
  assert (Hempty :
    repeatcmd
      (commandExecutor executor_init
         (cases ++ List.map RecvCommand (readshuttle_case (WheelPosition p)))).1 = ∅).
  { rewrite run_app by assumption. cbn [fst].
    rewrite wheel_release by assumption.
    cbn [List.map commandExecutor fst on_command repeat controller value].
    cbn [repeatcmd].
    assert (Hw : only_wheel (commandExecutor executor_init cases).1).
    { apply run_only_wheel; [assumption|]. intros k e. cbn.
      rewrite lookup_empty. discriminate. }
    apply map_eq. intros k. rewrite lookup_empty.
    destruct (decide (k = 1)) as [->|H1]; [apply lookup_delete_eq|].
    rewrite lookup_delete_ne by congruence.
    destruct (decide (k = 0)) as [->|H0]; [apply lookup_delete_eq|].
    rewrite lookup_delete_ne by congruence.
    destruct (repeatcmd (commandExecutor executor_init cases).1 !! k) as [e|] eqn:Hk;
      [|reflexivity].
    destruct (Hw k e Hk); contradiction. }
  split; [assumption|].
  apply run_last_idle; [|assumption].
  rewrite wheel_release by assumption. cbn. destruct cases; discriminate.
Qed.

Lemma wheel_rest_silences_witness :
  repeatcmd
    (commandExecutor executor_init
       ([RecvCommand (mkCommand 0 90 true); RecvTick;
         RecvCommand (mkCommand 3 127 false)] ++
        List.map RecvCommand (readshuttle_case (WheelPosition 0)))).1 = ∅.
Proof.
  apply (wheel_rest_silences
           [RecvCommand (mkCommand 0 90 true); RecvTick;
            RecvCommand (mkCommand 3 127 false)] 0).
  - repeat constructor.
    + exists (WheelPosition 3). left. reflexivity.
    + exists (ButtonEdge Button1 true). left. reflexivity.
  - repeat constructor; discriminate.
  - left. reflexivity.
Defined.

(** The ticks among the cases. *)
Definition ticks_in (cases : list select_case) : nat :=
  length (List.filter (fun c => match c with RecvTick => true | _ => false end) cases).

(** An entry after [n] ticks: its counter has gone down by [n], and the
    entry is gone once that leaves nothing. *)
Definition aged (n : nat) (o : option tickstruct) : option tickstruct :=
  match o with
  | Some v =>
      if Z.of_nat n <? counter v
      then Some (mkTick (counter v - Z.of_nat n) (tvalue v))
      else None
  | None => None
  end.

Lemma aged_tick n v :
  1 <= counter v -> aged n (tick_one v) = aged (S n) (Some v).
Proof.
  intros Hc. unfold tick_one, aged.
  destruct (Z.ltb_spec 1 (counter v)); cbn [counter tvalue].
  - destruct (Z.ltb_spec (Z.of_nat n) (counter v - 1)),
      (Z.ltb_spec (Z.of_nat (S n)) (counter v)); try lia; [|reflexivity].
    f_equal. f_equal. lia.
  - destruct (Z.ltb_spec (Z.of_nat (S n)) (counter v)); [lia | reflexivity].
Qed.

(** While no command for [k] arrives, the entry of [k] only ages. *)
Lemma run_ages_entry k cases : forall s v,
  no_quit cases -> no_command_for k cases ->
  repeatcmd s !! k = Some v -> 1 <= counter v ->
  repeatcmd (commandExecutor s cases).1 !! k = aged (ticks_in cases) (Some v).
Proof.
  induction cases as [|c rest IH]; intros s v Hnq Hno Hk Hc.
  - cbn [commandExecutor fst]. rewrite Hk. unfold aged.
    change (Z.of_nat (ticks_in [])) with 0.
    destruct (Z.ltb_spec 0 (counter v)); [|lia].
    destruct v as [c t]. cbn [counter tvalue]. f_equal. f_equal. lia.
  - apply Forall_cons in Hnq as [Hq Hnq]. apply Forall_cons in Hno as [Hcmd Hno].
    destruct c as [|cmd|]; [contradiction Hq; reflexivity| |];
      cbn [commandExecutor fst].
    + apply IH; try assumption.
      rewrite (proj1 (on_command_other s cmd k Hcmd)). exact Hk.
    + change (ticks_in (RecvTick :: rest)) with (S (ticks_in rest)).
      rewrite <- aged_tick by assumption.
      assert (Hk' : repeatcmd (on_tick s).1 !! k = tick_one v)
        by (rewrite on_tick_lookup, Hk; reflexivity).
      destruct (tick_one v) as [v'|] eqn:Hv.
      * apply IH; try assumption.
        unfold tick_one in Hv. destruct (Z.ltb_spec 1 (counter v)); [|discriminate].
        injection Hv as <-. cbn. lia.
      * cbn [aged].
        apply (no_entry_no_tick_write k rest (on_tick s).1 Hk').
        eapply Forall_impl; [exact Hno|].
        intros [|cmd|]; cbn; try tauto.
Qed.

(** X9 (a change of direction without rest).  When the wheel goes from a
    position in 1..7 straight to a position in -7..-1, the router sends the
    command for controller 1 and none for controller 0.  So, whatever the
    dispatcher handles between the two events other than a command for
    controller 0, afterwards it holds a full entry (counter 50) for
    controller 1, and the entry of controller 0 is still there with what its
    counter has left: 50 less the number n of ticks in between, as long as
    n < 50.  The next tick re-sends the value of controller 1, and that of
    controller 0 as well when n < 49.  From 50 ticks on the entry of
    controller 0 is gone. *)
Theorem direction_change_keeps_both :
  forall (s : executor) (p q : Z) (mid : list select_case),
    1 <= p <= 7 ->
    -7 <= q <= -1 ->
    no_quit mid ->
    no_command_for 0 mid ->
    let n := Z.of_nat (ticks_in mid) in
    let s' := (commandExecutor s
                 (List.map RecvCommand (readshuttle_case (WheelPosition p)) ++
                  mid ++
                  List.map RecvCommand (readshuttle_case (WheelPosition q)))).1 in
    repeatcmd s' !! 1 = Some (mkTick 50 (18 * (- q))) /\
    to_controller 1 (on_tick s').2 = [mkCC 1 (18 * (- q))] /\
    repeatcmd s' !! 0 =
      (if n <? 50 then Some (mkTick (50 - n) (18 * (8 - p))) else None) /\
    to_controller 0 (on_tick s').2 =
      (if n <? 49 then [mkCC 0 (18 * (8 - p))] else []).
Proof.
  intros s p q mid Hp Hq Hnq Hno n s'.
  assert (Hs' : s' =
    (on_command
       (commandExecutor (on_command s (mkCommand 0 (18 * (8 - p)) true)).1 mid).1
       (mkCommand 1 (18 * (- q)) true)).1).
  { unfold s'. rewrite wheel_up, wheel_down by assumption.
    cbn [List.map app commandExecutor fst]. rewrite run_app by assumption.
    reflexivity. }
  assert (H1 : repeatcmd s' !! 1 = Some (mkTick 50 (18 * (- q)))).
  { rewrite Hs'. unfold on_command at 1. cbn. apply lookup_insert_eq. }
  assert (H0 : repeatcmd s' !! 0 =
                 (if n <? 50 then Some (mkTick (50 - n) (18 * (8 - p))) else None)).
  { rewrite Hs'.
    assert (Hne : controller (mkCommand 1 (18 * (- q)) true) <> 0)
      by discriminate.
    rewrite (proj1 (on_command_other _ _ 0 Hne)).
    rewrite (run_ages_entry 0 mid _ (mkTick 50 (18 * (8 - p)))); try assumption.
    - reflexivity.
    - unfold on_command. cbn. apply lookup_insert_eq.
    - cbn. lia. }
  split; [exact H1|]. split; [|split; [exact H0|]].
  - rewrite on_tick_writes, H1. reflexivity.
  - rewrite on_tick_writes, H0. unfold tick_out.
    destruct (Z.ltb_spec n 50), (Z.ltb_spec n 49); try lia; cbn [counter tvalue].
    + destruct (Z.ltb_spec 1 (50 - n)); [reflexivity | lia].
    + destruct (Z.ltb_spec 1 (50 - n)); [lia | reflexivity].
    + reflexivity.
Qed.

Lemma direction_change_keeps_both_witness :
  repeatcmd
    (commandExecutor executor_init
       (List.map RecvCommand (readshuttle_case (WheelPosition 3)) ++
        [RecvTick; RecvCommand (mkCommand 3 127 false); RecvTick] ++
        List.map RecvCommand (readshuttle_case (WheelPosition (-2))))).1 !! 0
  = Some (mkTick 48 90).
Proof.
  destruct (direction_change_keeps_both executor_init 3 (-2)
              [RecvTick; RecvCommand (mkCommand 3 127 false); RecvTick])
    as (_ & _ & H & _).
  - lia.
  - lia.
  - repeat constructor; discriminate.
  - repeat constructor; discriminate.
  - exact H.
Defined.

End PipelineFacts.

(* ===================================================================== *)
(** * Further properties of the MIDI controller *)
(* ===================================================================== *)

Module ControllerFacts.

Import Controller.

(** The ports whose name contains [name], in the driver's order. *)
Definition matching (name : string) (outs : list Out) : list Out :=
  List.filter (fun v => Contains (port_name v) name) outs.

Lemma select_output_last outs : forall mc,
  output (select_output outs mc) =
    match last (matching (DeviceName mc) outs) with
    | Some o => Some o
    | None => output mc
    end.
Proof.
  unfold select_output.
  induction outs as [|v outs IH]; intros mc; [reflexivity|].
  cbn [foldl matching List.filter]. fold (matching (DeviceName mc) outs).
  rewrite IH. destruct (Contains (port_name v) (DeviceName mc)) eqn:Hc.
  - cbn [DeviceName set_output output]. rewrite last_cons.
    destruct (last (matching (DeviceName mc) outs)); reflexivity.
  - reflexivity.
Qed.

(** X10 (which port [Open] takes).  On a controller made by
    [NewMIDIController] without a driver, when the driver lists its ports,
    [Open] takes the last listed port whose name contains the device name,
    opens it and returns nil; when no listed port does, it returns
    [ErrMIDIDeviceNotFound] with [output] still nil, no port opened and no
    goroutine started.  Errors of [rtmididrv.New] and of [Outs] do not change
    this outcome. *)
Theorem Open_takes_last_match :
  forall (d : Driver) (e err : option error) (name : string) (delay channel : Z)
         (outs : list Out),
    Outs d = Returns (outs, err) ->
    match last (matching name outs) with
    | Some o =>
        (Open (d, e) (NewMIDIController None name delay channel)).1.1 = Returns None /\
        output (Open (d, e) (NewMIDIController None name delay channel)).1.2 = Some o /\
        In (OutputOpen (port_name o) (Out_Open o))
           (Open (d, e) (NewMIDIController None name delay channel)).2
    | None =>
        (Open (d, e) (NewMIDIController None name delay channel)).1.1
          = Returns (Some ErrMIDIDeviceNotFound) /\
        output (Open (d, e) (NewMIDIController None name delay channel)).1.2 = None /\
        Controller.quitch (Open (d, e) (NewMIDIController None name delay channel)).1.2
          = NilChan /\
        List.filter is_go (Open (d, e) (NewMIDIController None name delay channel)).2 = []
    end.
Proof.
  intros d e err name delay channel outs Houts.
  pose proof (select_output_last outs
                (set_drv (Some d) (NewMIDIController None name delay channel))) as Hsel.
  cbn [DeviceName set_drv NewMIDIController output] in Hsel.
  unfold Open. cbn [drv NewMIDIController fst snd set_drv]. rewrite Houts.
  cbn [NewMIDIController set_drv DeviceName Delay Channel drv output wr commandch
         Controller.quitch] in *.
  destruct (last (matching name outs)) as [o|]; rewrite Hsel; cbn [fst snd output].
  - split; [reflexivity|]. split; [reflexivity|].
    apply in_or_app. left. apply in_or_app. right. left. reflexivity.
  - split; [reflexivity|]. split; [assumption|]. split.
    + rewrite (proj1 (proj2 (select_output_fields outs _))). reflexivity.
    + rewrite List.filter_app. cbn [List.filter is_go].
      rewrite !log_error_no_go. reflexivity.
Qed.

Lemma Open_takes_last_match_witness :
  output
    (Open (mkDriver (Returns ([mkOut "loopMIDI Port" None None;
                                mkOut "ShuttleMIDI" None None;
                                mkOut "ShuttleMIDI 1" None None], None))
             (Returns None), None)
       (NewMIDIController None "ShuttleMIDI" 100000000 0)).1.2
  = Some (mkOut "ShuttleMIDI 1" None None).
Proof.
  pose proof (Open_takes_last_match
                (mkDriver (Returns ([mkOut "loopMIDI Port" None None;
                                     mkOut "ShuttleMIDI" None None;
                                     mkOut "ShuttleMIDI 1" None None], None))
                   (Returns None))
                None None "ShuttleMIDI" 100000000 0
                [mkOut "loopMIDI Port" None None; mkOut "ShuttleMIDI" None None;
                 mkOut "ShuttleMIDI 1" None None] eq_refl) as H.
  cbv beta iota in H. exact (proj1 (proj2 H)).
Defined.

Lemma Contains_empty s : Contains s "" = true.
Proof. destruct s; reflexivity. Qed.

Lemma matching_empty outs : matching "" outs = outs.
Proof.
  unfold matching. induction outs as [|v l IH]; [reflexivity|].
  cbn [List.filter]. rewrite Contains_empty, IH. reflexivity.
Qed.

(** X11 (an empty device name).  Every port name contains the empty
    string, so with an empty device name [Open] takes the last port the
    driver lists, whatever its name. *)
Theorem Open_empty_name_takes_last :
  forall (d : Driver) (e err : option error) (delay channel : Z)
         (outs : list Out) (o : Out),
    Outs d = Returns (outs, err) ->
    last outs = Some o ->
    (Open (d, e) (NewMIDIController None "" delay channel)).1.1 = Returns None /\
    output (Open (d, e) (NewMIDIController None "" delay channel)).1.2 = Some o.
Proof.
  intros d e err delay channel outs o Houts Hlast.
  pose proof (select_output_last outs
                (set_drv (Some d) (NewMIDIController None "" delay channel))) as Hsel.
  cbn [DeviceName set_drv NewMIDIController output] in Hsel.
  rewrite matching_empty, Hlast in Hsel.
  unfold Open. cbn [drv NewMIDIController fst snd set_drv]. rewrite Houts.
  cbn [NewMIDIController set_drv DeviceName Delay Channel drv output wr commandch
         Controller.quitch] in *.
  rewrite Hsel. split; reflexivity.
Qed.

Lemma Open_empty_name_takes_last_witness :
  output
    (Open (mkDriver (Returns ([mkOut "Microsoft GS Wavetable Synth" None None;
                                mkOut "loopMIDI Port" None None], None))
             (Returns None), None)
       (NewMIDIController None "" 100000000 0)).1.2
  = Some (mkOut "loopMIDI Port" None None).
Proof.
  apply (Open_empty_name_takes_last
           (mkDriver (Returns ([mkOut "Microsoft GS Wavetable Synth" None None;
                                mkOut "loopMIDI Port" None None], None))
              (Returns None))
           None None 100000000 0
           [mkOut "Microsoft GS Wavetable Synth" None None;
            mkOut "loopMIDI Port" None None]
           (mkOut "loopMIDI Port" None None)).
  - reflexivity.
  - reflexivity.
Defined.

(** X12 ([Open] on a controller that has an output).  Once [output] is
    set, [Open] never returns an error again: when the driver lists its
    ports, it returns nil even if no port matches any more, keeps a port in
    [output], replaces the mailbox by an empty one, so that a command still
    waiting in it is lost, and starts one more executor. *)
Theorem Open_again_never_fails :
  forall (env : Driver * option error) (mc : midiControl) (o : Out),
    output mc = Some o ->
    (forall e, (Open env mc).1.1 <> Returns (Some e)) /\
    (forall (d : Driver) (outs : list Out) (err : option error),
       drv mc = Some d ->
       Outs d = Returns (outs, err) ->
       (Open env mc).1.1 = Returns None /\
       (exists o', output (Open env mc).1.2 = Some o') /\
       (matching (DeviceName mc) outs = [] -> output (Open env mc).1.2 = Some o) /\
       commandch (Open env mc).1.2 = Some [] /\
       List.filter is_go (Open env mc).2 = [Go GoCommandExecutor]).
Proof.
  intros env mc o Ho.
  assert (Hkeep : forall outs mc', output mc' = Some o ->
            exists o', output (select_output outs mc') = Some o' /\
                       (matching (DeviceName mc') outs = [] -> o' = o)).
  { intros outs mc' Ho'. rewrite select_output_last.
    destruct (last (matching (DeviceName mc') outs)) as [o'|] eqn:Hl.
    - exists o'. split; [reflexivity|]. intros Hnil. rewrite Hnil in Hl.
      discriminate Hl.
    - exists o. split; [assumption | reflexivity]. }
  split.
  - intros e. unfold Open.
    destruct (drv mc) as [d0|] eqn:Edrv; cbn [fst snd set_drv drv].
    + rewrite Edrv. destruct (Outs d0) as [[outs err]| |]; cbn [fst snd];
        try discriminate.
      destruct (Hkeep outs mc Ho) as (o' & -> & _). discriminate.
    + destruct (Outs env.1) as [[outs err]| |]; cbn [fst snd]; try discriminate.
      destruct (Hkeep outs (set_drv (Some env.1) mc) Ho) as (o' & -> & _).
      discriminate.
  - intros d outs err Hd Houts. unfold Open. rewrite Hd. cbn [fst snd].
    rewrite Hd, Houts. destruct (Hkeep outs mc Ho) as (o' & Ho' & Hsame).
    rewrite Ho'. cbn [fst snd output commandch].
    split; [reflexivity|]. split; [exists o'; reflexivity|].
    split; [intros Hnil; f_equal; apply Hsame, Hnil|].
    split; [reflexivity|].
    rewrite !List.filter_app. cbn [List.filter is_go app].
    rewrite !log_error_no_go. reflexivity.
Qed.

Lemma Open_again_never_fails_witness :
  (Open (mkDriver (Returns ([], None)) (Returns None), None)
     (mkControl "ShuttleMIDI" 100000000 0
        (Some (mkDriver (Returns ([], None)) (Returns None)))
        (Some (mkOut "ShuttleMIDI 1" None None)) (Some 0)
        (Some [mkCommand 0 90 true]) ClosedChan)).1.1 = Returns None.
Proof.
  destruct (Open_again_never_fails
              (mkDriver (Returns ([], None)) (Returns None), None)
              (mkControl "ShuttleMIDI" 100000000 0
                 (Some (mkDriver (Returns ([], None)) (Returns None)))
                 (Some (mkOut "ShuttleMIDI 1" None None)) (Some 0)
                 (Some [mkCommand 0 90 true]) ClosedChan)
              (mkOut "ShuttleMIDI 1" None None) eq_refl) as [_ H].
  apply (H (mkDriver (Returns ([], None)) (Returns None)) [] None eq_refl eq_refl).
Defined.

(** X13 ([Close] is final but does not reset the controller).  A [Close]
    on a controller with an open [quitch] leaves [quitch] closed whether or
    not the rest of [Close] succeeds, so a second [Close] panics at its
    first statement without touching port or driver.  [Close] leaves
    [output] and the mailbox as they were, so the nil-output guard of
    [SendCommand] does not notice that the controller has been closed: with
    [output] set, a call after [Close] never returns
    [ErrMIDIDeviceNotInitialized], and while the mailbox has room it still
    returns nil and leaves the command in the mailbox.  (On a full mailbox
    the call waits for the executor, which [Close] has told to quit; nothing
    is stated about that case.) *)
Theorem Close_twice_panics :
  forall mc : midiControl,
    Controller.quitch mc = OpenChan ->
    Close (Close mc).1.2 =
      (Panics "close of closed channel", (Close mc).1.2, []) /\
    output (Close mc).1.2 = output mc /\
    commandch (Close mc).1.2 = commandch mc /\
    (forall (c v : Z) (r : bool) (o : Out),
       output mc = Some o ->
       (SendCommand (Close mc).1.2 c v r).1 <>
         Returns (Some ErrMIDIDeviceNotInitialized)) /\
    (forall (c v : Z) (r : bool) (o : Out) (q : list midiControllerCommand),
       output mc = Some o ->
       commandch mc = Some q ->
       (length q < commandch_capacity)%nat ->
       SendCommand (Close mc).1.2 c v r =
         (Returns None,
          set_commandch (Some (q ++ [mkCommand c v r])) (Close mc).1.2)).
Proof.
  intros mc Hq.
  assert (Hst : (Close mc).1.2 = set_quitch ClosedChan mc).
  { unfold Close. rewrite Hq. cbn [close_chan].
    destruct (output mc); [|reflexivity].
    destruct (drv mc) as [d|]; [|reflexivity].
    destruct (Driver_Close d); reflexivity. }
  rewrite Hst. split; [reflexivity|]. split; [reflexivity|].
  split; [reflexivity|]. split.
  - intros c v r o Ho. unfold SendCommand. cbn [set_quitch output commandch].
    rewrite Ho. destruct (commandch mc) as [q|]; [|discriminate].
    destruct (length q <? commandch_capacity)%nat; discriminate.
  - intros c v r o q Ho Hch Hlen. unfold SendCommand.
    cbn [set_quitch output commandch]. rewrite Ho, Hch.
    destruct (Nat.ltb_spec (length q) commandch_capacity); [reflexivity | lia].
Qed.

Lemma Close_twice_panics_witness :
  SendCommand
    (Close (mkControl "ShuttleMIDI" 100000000 0
              (Some (mkDriver (Returns ([], None)) (Returns None)))
              (Some (mkOut "ShuttleMIDI 1" None None)) (Some 0) (Some [])
              OpenChan)).1.2 0 90 true
  = (Returns None,
     mkControl "ShuttleMIDI" 100000000 0
       (Some (mkDriver (Returns ([], None)) (Returns None)))
       (Some (mkOut "ShuttleMIDI 1" None None)) (Some 0)
       (Some [mkCommand 0 90 true]) ClosedChan).
Proof.
  destruct (Close_twice_panics
              (mkControl "ShuttleMIDI" 100000000 0
                 (Some (mkDriver (Returns ([], None)) (Returns None)))
                 (Some (mkOut "ShuttleMIDI 1" None None)) (Some 0) (Some [])
                 OpenChan) eq_refl) as (_ & _ & _ & _ & H).
  assert (Hlen : (length (@nil midiControllerCommand) < commandch_capacity)%nat)
    by (unfold commandch_capacity; cbn; lia).
  exact (H 0 90 true (mkOut "ShuttleMIDI 1" None None) [] eq_refl eq_refl Hlen).
Defined.

(** ** [GetMIDIDevices] *)

(** The deferred [drv.Close()] of [GetMIDIDevices]: it runs when the
    function returns and when it panics; its result is dropped, a panic of
    its own takes over. *)
Definition deferred_close {A} (drv : Driver) (res : outcome A) : outcome A :=
  match res with
  | Blocks => Blocks
  | _ =>
      match Driver_Close drv with
      | Returns _ => res
      | Panics msg => Panics msg
      | Blocks => Blocks
      end
  end.

(** The part of [GetMIDIDevices] from [drv.Outs()] on.  The result slice is
    made with [make], so it is not nil even when there is no port. *)
Definition list_port_names (drv : Driver)
  : outcome (option (list string) * option error) :=
  match Outs drv with
  | Panics msg => Panics msg
  | Blocks => Blocks
  | Returns (outs, Some err) => Returns (None, Some err)
  | Returns (outs, None) => Returns (Some (List.map port_name outs), None)
  end.

(** [GetMIDIDevices(driver)]: the names of the driver's ports, or an
    error; with the effects on the driver. *)
Definition GetMIDIDevices (rtmididrv_New : Driver * option error)
    (driver : option Driver)
  : outcome (option (list string) * option error) * list effect :=
  match driver with
  | None =>
      match rtmididrv_New.2 with
      | Some err => (Returns (None, Some err), [RtmididrvNew])
      | None =>
          let drv := rtmididrv_New.1 in
          (deferred_close drv (list_port_names drv),
           [RtmididrvNew; DrvOuts] ++
           match list_port_names drv with
           | Blocks => []
           | _ => [DrvClose]
           end)
      end
  | Some drv => (list_port_names drv, [DrvOuts])
  end.

(** X14 ([GetMIDIDevices]).  A driver passed in is only asked for its
    ports: it is neither created anew nor closed.  Without a driver, a
    failing [rtmididrv.New] is returned as the error and nothing else
    happens; otherwise the created driver is closed exactly once after
    [Outs] has returned, also when [Outs] failed, and what its [Close]
    returns is dropped.  When [Outs] returns an error, the call returns
    that error and no list; when [Outs] returns ports without an error, the
    call returns their names, one per port and in the driver's order, and no
    error.  So a list that is returned is never partial. *)
Theorem GetMIDIDevices_behaviour :
  (forall (env : Driver * option error) (drv : Driver),
     (GetMIDIDevices env (Some drv)).2 = [DrvOuts]) /\
  (forall (drv : Driver) (err : error),
     GetMIDIDevices (drv, Some err) None = (Returns (None, Some err), [RtmididrvNew])) /\
  (forall (drv : Driver) (outs : list Out) (err : option error),
     Outs drv = Returns (outs, err) ->
     (GetMIDIDevices (drv, None) None).2 = [RtmididrvNew; DrvOuts; DrvClose]) /\
  (forall (env : Driver * option error) (driver : option Driver)
          (names : list string) (e : option error),
     (GetMIDIDevices env driver).1 = Returns (Some names, e) ->
     e = None /\
     exists outs,
       Outs (match driver with Some drv => drv | None => env.1 end)
         = Returns (outs, None) /\
       names = List.map port_name outs /\ length names = length outs) /\
  (forall (env : Driver * option error) (driver : option Driver)
          (outs : list Out) (err : error),
     Outs (match driver with Some drv => drv | None => env.1 end)
       = Returns (outs, Some err) ->
     forall names e, (GetMIDIDevices env driver).1 <> Returns (Some names, e)) /\
  (forall (env : Driver * option error) (drv : Driver)
          (outs : list Out) (err : error),
     Outs drv = Returns (outs, Some err) ->
     (GetMIDIDevices env (Some drv)).1 = Returns (None, Some err)) /\
  (forall (env : Driver * option error) (drv : Driver) (outs : list Out),
     Outs drv = Returns (outs, None) ->
     (GetMIDIDevices env (Some drv)).1 =
       Returns (Some (List.map port_name outs), None)) /\
  (forall (drv : Driver) (outs : list Out) (err : error) (errclose : option error),
     Outs drv = Returns (outs, Some err) ->
     Driver_Close drv = Returns errclose ->
     (GetMIDIDevices (drv, None) None).1 = Returns (None, Some err)) /\
  (forall (drv : Driver) (outs : list Out) (errclose : option error),
     Outs drv = Returns (outs, None) ->
     Driver_Close drv = Returns errclose ->
     (GetMIDIDevices (drv, None) None).1 =
       Returns (Some (List.map port_name outs), None)).
Proof.
  assert (Hnames : forall drv names e,
            list_port_names drv = Returns (Some names, e) ->
            e = None /\
            exists outs, Outs drv = Returns (outs, None) /\
                         names = List.map port_name outs /\
                         length names = length outs).
  { intros drv names e. unfold list_port_names.
    destruct (Outs drv) as [[outs [err|]]| |]; try discriminate.
    intros [= <- <-]. split; [reflexivity|]. exists outs.
    split; [reflexivity|]. split; [reflexivity|]. apply length_map. }
  assert (Hdefer : forall (drv : Driver) names e,
            deferred_close drv (list_port_names drv) = Returns (Some names, e) ->
            list_port_names drv = Returns (Some names, e)).
  { intros drv names e. unfold deferred_close.
    destruct (list_port_names drv) as [res|msg|].
    - destruct (Driver_Close drv); [auto | discriminate | discriminate].
    - destruct (Driver_Close drv); discriminate.
    - discriminate. }
  split; [reflexivity|]. split; [reflexivity|].
  split; [|split; [|split; [|split; [|split; [|split]]]]].
  - intros drv outs err Houts. unfold GetMIDIDevices, list_port_names.
    cbn [fst snd]. rewrite Houts. destruct err; reflexivity.
  - intros env driver names e. unfold GetMIDIDevices.
    destruct driver as [drv|]; cbn [fst].
    + apply Hnames.
    + destruct env.2; cbn [fst]; [discriminate|].
      intros H. apply (Hnames env.1). apply Hdefer. exact H.
  - intros env driver outs err Houts names e. unfold GetMIDIDevices.
    destruct driver as [drv|]; cbn [fst].
    + unfold list_port_names. rewrite Houts. discriminate.
    + destruct env.2; cbn [fst]; [discriminate|].
      intros H. apply Hdefer in H. revert H.
      unfold list_port_names. rewrite Houts. discriminate.
  - intros env drv outs err Houts. unfold GetMIDIDevices, list_port_names.
    cbn [fst]. rewrite Houts. reflexivity.
  - intros env drv outs Houts. unfold GetMIDIDevices, list_port_names.
    cbn [fst]. rewrite Houts. reflexivity.
  - intros drv outs err errclose Houts Hclose.
    unfold GetMIDIDevices, list_port_names, deferred_close.
    cbn [fst snd]. rewrite Houts, Hclose. reflexivity.
  - intros drv outs errclose Houts Hclose.
    unfold GetMIDIDevices, list_port_names, deferred_close.
    cbn [fst snd]. rewrite Houts, Hclose. reflexivity.
Qed.

Lemma GetMIDIDevices_behaviour_witness :
  (GetMIDIDevices
     (mkDriver (Returns ([mkOut "loopMIDI Port" None None;
                          mkOut "ShuttleMIDI" None None], None))
        (Returns (Some (ErrLibrary "close failed"))), None) None).1
  = Returns (Some ["loopMIDI Port"; "ShuttleMIDI"]%string, None) /\
  (GetMIDIDevices
     (mkDriver (Returns ([mkOut "loopMIDI Port" None None],
                         Some (ErrLibrary "no ports")))
        (Returns None), None) None).1
  = Returns (None, Some (ErrLibrary "no ports")).
Proof.
  destruct GetMIDIDevices_behaviour as (_ & _ & _ & _ & _ & _ & _ & Herr & Hok).
  split.
  - exact (Hok (mkDriver (Returns ([mkOut "loopMIDI Port" None None;
                                    mkOut "ShuttleMIDI" None None], None))
                  (Returns (Some (ErrLibrary "close failed"))))
             [mkOut "loopMIDI Port" None None; mkOut "ShuttleMIDI" None None]
             (Some (ErrLibrary "close failed")) eq_refl eq_refl).
  - exact (Herr (mkDriver (Returns ([mkOut "loopMIDI Port" None None],
                                    Some (ErrLibrary "no ports")))
                   (Returns None))
             [mkOut "loopMIDI Port" None None] (ErrLibrary "no ports") None
             eq_refl eq_refl).
Defined.

End ControllerFacts.

(* ===================================================================== *)
(** * Further properties of the session code *)
(* ===================================================================== *)

Module SessionFacts.

Import Controller Session.

(** [onExit]: closes the controller if there is one. *)
Definition onExit (g : globals) : outcome unit * globals * list effect :=
  match mcontrol g with
  | None => (Returns tt, g, [])
  | Some mc =>
      let r := Close mc in
      (match r.1.1 with
       | Returns _ => Returns tt
       | Panics msg => Panics msg
       | Blocks => Blocks
       end,
       mkGlobals (Some r.1.2) (Session.quitch g),
       r.2)
  end.

(** The driver held by the session's controller returns from [Close]. *)
Definition driver_closes (g : globals) : Prop :=
  forall mc d, mcontrol g = Some mc -> drv mc = Some d ->
               exists r, Driver_Close d = Returns r.

Lemma stop_previous_returns g :
  session_active g -> driver_closes g -> (stop_previous g).1.1 = Returns tt.
Proof.
  intros (Hq & mc & Hmc & Hj) Hd.
  destruct (just_opened_fields mc Hj) as (Hmq & _ & [o Ho] & [d Hdrv]).
  destruct (Hd mc d Hmc Hdrv) as [r Hr].
  unfold stop_previous. rewrite Hq, Hmc. cbn.
  unfold Close. rewrite Hmq, Ho, Hdrv, Hr. reflexivity.
Qed.

Lemma Open_nil_goroutine env mc :
  (Open env mc).1.1 = Returns None ->
  List.filter is_go (Open env mc).2 = [Go GoCommandExecutor].
Proof.
  unfold Open.
  destruct (drv mc) as [d0|] eqn:Edrv; cbn [fst snd set_drv drv].
  - rewrite Edrv.
    destruct (Outs d0) as [[outs err]| |]; cbn [fst snd]; try discriminate.
    destruct (output (select_output outs mc)); cbn [fst snd]; try discriminate.
    intros _. rewrite !List.filter_app. cbn [List.filter is_go app].
    rewrite !log_error_no_go. reflexivity.
  - destruct (Outs env.1) as [[outs err]| |]; cbn [fst snd]; try discriminate.
    destruct (output (select_output outs _)); cbn [fst snd]; try discriminate.
    intros _. rewrite !List.filter_app. cbn [List.filter is_go app].
    rewrite !log_error_no_go. reflexivity.
Qed.

(** X15 (a successful start makes the session active).  From the initial
    globals [startListeners] tears nothing down.  Whenever the teardown has
    returned, which it does from the initial globals and from every active
    session whose driver closes, and the new [Open] returns nil,
    [startListeners] returns, the session is active again, and the
    goroutines started are the executor and then the consumer, no others. *)
Theorem start_makes_session_active :
  stop_previous globals_init = (Returns tt, globals_init, []) /\
  (forall g : globals,
     session_active g -> driver_closes g -> (stop_previous g).1.1 = Returns tt) /\
  (forall (env : Driver * option error) (midiname : string) (g : globals),
     (stop_previous g).1.1 = Returns tt ->
     (Open env (fresh_controller midiname)).1.1 = Returns None ->
     (startListeners env midiname g).1.1 = Returns tt /\
     session_active (startListeners env midiname g).1.2 /\
     List.filter is_go (startListeners env midiname g).2
       = [Go GoCommandExecutor; Go GoReadshuttle]).
Proof.
  split; [reflexivity|]. split; [exact stop_previous_returns|].
  intros env midiname g Hstop Hopen.
  unfold startListeners. fold (fresh_controller midiname).
  rewrite Hstop, Hopen. cbn [fst snd].
  split; [reflexivity|]. split.
  - split; [reflexivity|].
    exists (Open env (fresh_controller midiname)).1.2.
    split; [reflexivity|].
    exists env, (fresh_controller midiname). split; [assumption | reflexivity].
  - rewrite !List.filter_app, stop_previous_no_go. cbn [app List.filter is_go].
    rewrite (Open_nil_goroutine env (fresh_controller midiname) Hopen).
    reflexivity.
Qed.

Lemma start_makes_session_active_witness :
  session_active
    (startListeners
       (mkDriver (Returns ([mkOut "ShuttleMIDI 1" None None], None)) (Returns None),
        None) "ShuttleMIDI" globals_init).1.2.
Proof.
  destruct start_makes_session_active as (_ & _ & H).
  destruct (H (mkDriver (Returns ([mkOut "ShuttleMIDI 1" None None], None))
                 (Returns None), None) "ShuttleMIDI"%string globals_init)
    as (_ & Hact & _).
  - reflexivity.
  - reflexivity.
  - exact Hact.
Defined.

Lemma failed_open_controller env midiname err :
  (Open env (fresh_controller midiname)).1.1 = Returns (Some err) ->
  Close (Open env (fresh_controller midiname)).1.2 =
    (Panics "close of nil channel", (Open env (fresh_controller midiname)).1.2, []).
Proof.
  intros Hopen.
  assert (Hq : Controller.quitch (Open env (fresh_controller midiname)).1.2 = NilChan).
  { apply Open_not_nil; [reflexivity | reflexivity |].
    rewrite Hopen. discriminate. }
  unfold Close. rewrite Hq. reflexivity.
Qed.

(** X16 (a start after a failed start).  When [startListeners] has shown
    its error dialog because [Open] returned an error, the next call of
    [startListeners], whatever sink it is given, closes the session's
    [quitch] and then panics in [mcontrol.Close()] on the nil [quitch] of the
    controller that was never opened: it reaches neither the new [Open] nor
    any dialog. *)
Theorem start_after_failed_start_panics :
  forall (env1 env2 : Driver * option error) (name1 name2 : string)
         (g : globals) (err : error),
    (stop_previous g).1.1 = Returns tt ->
    (Open env1 (fresh_controller name1)).1.1 = Returns (Some err) ->
    startListeners env2 name2 (startListeners env1 name1 g).1.2 =
      (Panics "close of nil channel",
       mkGlobals (Some (Open env1 (fresh_controller name1)).1.2) ClosedChan,
       [CloseSessionQuitch]).
Proof.
  intros env1 env2 name1 name2 g err Hstop Hopen.
  assert (Hg : (startListeners env1 name1 g).1.2 =
               mkGlobals (Some (Open env1 (fresh_controller name1)).1.2) OpenChan).
  { unfold startListeners. fold (fresh_controller name1).
    rewrite Hstop, Hopen. reflexivity. }
  rewrite Hg. unfold startListeners, stop_previous.
  cbn [Session.quitch mcontrol close_chan fst snd].
  rewrite (failed_open_controller env1 name1 err Hopen). reflexivity.
Qed.

Lemma start_after_failed_start_panics_witness :
  (startListeners
     (mkDriver (Returns ([mkOut "ShuttleMIDI 1" None None], None)) (Returns None),
      None) "ShuttleMIDI"
     (startListeners
        (mkDriver (Returns ([mkOut "ShuttleMIDI 1" None None], None)) (Returns None),
         None) "loopMIDI Port" globals_init).1.2).1.1
  = Panics "close of nil channel".
Proof.
  rewrite (start_after_failed_start_panics
             (mkDriver (Returns ([mkOut "ShuttleMIDI 1" None None], None))
                (Returns None), None)
             (mkDriver (Returns ([mkOut "ShuttleMIDI 1" None None], None))
                (Returns None), None)
             "loopMIDI Port" "ShuttleMIDI" globals_init ErrMIDIDeviceNotFound
             eq_refl eq_refl).
  reflexivity.
Defined.

(** X17 ([onExit]).  With no controller yet, [onExit] does nothing.  With
    an active session whose driver closes, it closes the controller's
    [quitch], its port and its driver, and returns; it does not close the
    session's [quitch].  After a start whose [Open] returned an error it
    panics, because the controller it closes was never opened. *)
Theorem onExit_behaviour :
  onExit globals_init = (Returns tt, globals_init, []) /\
  (forall g : globals,
     session_active g -> driver_closes g ->
     exists mc o,
       mcontrol g = Some mc /\ output mc = Some o /\
       (onExit g).1.1 = Returns tt /\
       (onExit g).2 = [CloseControllerQuitch; OutputClose (port_name o); DrvClose] /\
       Session.quitch (onExit g).1.2 = OpenChan) /\
  (forall (env : Driver * option error) (midiname : string) (g : globals)
          (err : error),
     (stop_previous g).1.1 = Returns tt ->
     (Open env (fresh_controller midiname)).1.1 = Returns (Some err) ->
     (onExit (startListeners env midiname g).1.2).1.1
       = Panics "close of nil channel").
Proof.
  split; [reflexivity|]. split.
  - intros g (Hq & mc & Hmc & Hj) Hd.
    destruct (just_opened_fields mc Hj) as (Hmq & _ & [o Ho] & [d Hdrv]).
    destruct (Hd mc d Hmc Hdrv) as [r Hr].
    exists mc, o. split; [assumption|]. split; [assumption|].
    unfold onExit. rewrite Hmc. unfold Close. rewrite Hmq, Ho, Hdrv, Hr.
    cbn. auto.
  - intros env midiname g err Hstop Hopen.
    unfold startListeners. fold (fresh_controller midiname).
    rewrite Hstop, Hopen. cbn [fst snd]. unfold onExit. cbn [mcontrol].
    rewrite (failed_open_controller env midiname err Hopen). reflexivity.
Qed.

Lemma onExit_behaviour_witness :
  (onExit
     (startListeners
        (mkDriver (Returns ([mkOut "ShuttleMIDI 1" None None], None)) (Returns None),
         None) "loopMIDI Port" globals_init).1.2).1.1
  = Panics "close of nil channel".
Proof.
  destruct onExit_behaviour as (_ & _ & H).
  apply (H (mkDriver (Returns ([mkOut "ShuttleMIDI 1" None None], None))
              (Returns None), None) "loopMIDI Port"%string globals_init
           ErrMIDIDeviceNotFound).
  - reflexivity.
  - reflexivity.
Defined.

End SessionFacts.

(* ===================================================================== *)
(** * Further properties of the report decoder *)
(* ===================================================================== *)

Module DecoderFacts.

Import Decoder.

Lemma decoded_status_made buf st : all_made st -> all_made (decoded_status buf st).
Proof. intros H. exact H. Qed.

Lemma decoded_events_again buf st : decoded_events buf (decoded_status buf st) = [].
Proof.
  unfold decoded_events, button_change.
  cbn [decoded_status wheel_value dial_value button_value flat_map].
  rewrite !Z.eqb_refl, !eqb_reflx. reflexivity.
Qed.

(** X18 (one iteration with a consumer).  With every channel made and
    [readshuttle] receiving on them, an iteration of the loop completes and
    sends the changed fields of the report in a fixed order: the wheel
    first, then the dial step, then the buttons 1 to 5; at most one event
    per control, so at most seven.  Afterwards every stored value is the
    report's and every channel is still made.  Once that [readshuttle] has
    returned, the same report delivers nothing, and a wheel byte that
    differs from the stored value blocks the iteration in its first send
    with nothing changed. *)
Theorem iteration_with_consumer :
  forall (buf : list Z) (st : ShuttleStatus),
    all_made st ->
    decode buf st = (Some tt, decoded_status buf st, decoded_events buf st) /\
    (length (decoded_events buf st) <= 7)%nat /\
    all_made (decode buf st).1.2 /\
    (decode buf (consumer_returns st)).2 = [] /\
    (wheel_pos buf <> wheel_value st ->
     decode buf (consumer_returns st) = (None, consumer_returns st, [])).
Proof.
  intros buf st Hmade.
  assert (Hun : all_unserved (consumer_returns st)).
  { destruct Hmade as (H1 & H2 & H3 & H4 & H5 & H6 & H7).
    unfold all_unserved, consumer_returns. cbn.
    rewrite H1, H2, H3, H4, H5, H6, H7. repeat split. }
  rewrite decode_all_made by assumption.
  split; [reflexivity|]. split; [|split; [exact Hmade|split]].
  - unfold decoded_events, button_change. cbn [flat_map].
    rewrite !length_app.
    destruct (wheel_pos buf =? wheel_value st);
      destruct (dial_pos buf =? dial_value st);
      try destruct ((dial_delta buf st =? 1) || (dial_delta buf st =? -1));
      destruct (Bool.eqb (button_bit Button1 buf) (button_value Button1 st));
      destruct (Bool.eqb (button_bit Button2 buf) (button_value Button2 st));
      destruct (Bool.eqb (button_bit Button3 buf) (button_value Button3 st));
      destruct (Bool.eqb (button_bit Button4 buf) (button_value Button4 st));
      destruct (Bool.eqb (button_bit Button5 buf) (button_value Button5 st));
      cbn [length]; lia.
  - apply (decode_all_unserved buf _ Hun).
  - intros Hne. apply decode_blocked_at_wheel.
    rewrite (decode_wheel_unserved buf _ (proj1 Hun)). cbn [fst].
    change (wheel_value (consumer_returns st)) with (wheel_value st).
    destruct (Z.eqb_spec (wheel_pos buf) (wheel_value st));
      [contradiction | reflexivity].
Qed.

Lemma iteration_with_consumer_witness :
  decode (report 253 7 48 1) (make_channels status_zero)
  = (Some tt,
     decoded_status (report 253 7 48 1) (make_channels status_zero),
     decoded_events (report 253 7 48 1) (make_channels status_zero)) /\
  decode (report 253 7 48 1) (consumer_returns (make_channels status_zero))
  = (None, consumer_returns (make_channels status_zero), []).
Proof.
  destruct (iteration_with_consumer (report 253 7 48 1) (make_channels status_zero))
    as (H & _ & _ & _ & Hblock).
  - repeat split.
  - split; [exact H | apply Hblock; discriminate].
Defined.

(** X19 (an unchanged report is silent).  With every channel made, or with
    every channel nil, decoding the same report a second time sends nothing
    and changes nothing; so a device that repeats its report any number of
    times causes the events of the first report only. *)
Theorem repeated_report_is_silent :
  (forall (buf : list Z) (st : ShuttleStatus),
     all_made st \/ all_nil st ->
     decode buf (decode buf st).1.2 = (Some tt, (decode buf st).1.2, [])) /\
  (forall (buf : list Z) (se : ShuttlExpress) (n : nat),
     all_made (status se) ->
     emitted (readdevice_loop se (ReadOk buf :: List.repeat (ReadOk buf) n))
       = (decode buf (status se)).2).
Proof.
  assert (Hagain : forall buf st, all_made st ->
            decode buf (decode buf st).1.2 = (Some tt, (decode buf st).1.2, [])).
  { intros buf st Hmade. rewrite (decode_all_made buf st Hmade). cbn [fst snd].
    rewrite (decode_all_made buf _ (decoded_status_made buf st Hmade)).
    rewrite decoded_events_again. reflexivity. }
  split.
  - intros buf st [Hmade|Hnil]; [apply Hagain; assumption|].
    rewrite (decode_all_nil buf st Hnil). cbn [fst snd].
    apply decode_all_nil. assumption.
  - intros buf se n Hmade. cbn [readdevice_loop].
    rewrite (decode_all_made buf _ Hmade). cbn [fst snd emitted].
    assert (Hrest : forall se', all_made (status se') ->
              decoded_events buf (status se') = [] ->
              decoded_status buf (status se') = status se' ->
              emitted (readdevice_loop se' (List.repeat (ReadOk buf) n)) = []).
    { induction n as [|n IH]; intros se' Hm He Hs; [reflexivity|].
      cbn [List.repeat readdevice_loop].
      rewrite (decode_all_made buf _ Hm). cbn [fst snd emitted].
      rewrite He, Hs. cbn [app]. apply IH; cbn [status]; assumption. }
    rewrite Hrest; cbn [status]; [apply app_nil_r | exact Hmade | |].
    + apply decoded_events_again.
    + reflexivity.
Qed.

Lemma repeated_report_is_silent_witness :
  decode (report 3 0 16 0) (decode (report 3 0 16 0) (make_channels status_zero)).1.2
  = (Some tt, (decode (report 3 0 16 0) (make_channels status_zero)).1.2, []).
Proof.
  destruct repeated_report_is_silent as [H _].
  apply (H (report 3 0 16 0) (make_channels status_zero)).
  left. repeat split.
Defined.

(** X20 (the loop continues where it stopped).  When the loop has handled
    a first batch of reads and is waiting for the next report, handling a
    second batch gives the events of the first followed by those of the
    second, decoded from the state the first batch left; the reads add up.
    So the events sent for a sequence of reads never depend on reads that
    come later. *)
Theorem loop_continues :
  forall (pre post : list read_result) (se : ShuttlExpress),
    ended (readdevice_loop se pre) = WaitingInRead ->
    emitted (readdevice_loop se (pre ++ post)) =
      emitted (readdevice_loop se pre) ++
      emitted (readdevice_loop (final (readdevice_loop se pre)) post) /\
    final (readdevice_loop se (pre ++ post)) =
      final (readdevice_loop (final (readdevice_loop se pre)) post) /\
    reads_done (readdevice_loop se (pre ++ post)) =
      (reads_done (readdevice_loop se pre) +
       reads_done (readdevice_loop (final (readdevice_loop se pre)) post))%nat /\
    ended (readdevice_loop se (pre ++ post)) =
      ended (readdevice_loop (final (readdevice_loop se pre)) post).
Proof.
  induction pre as [|rd pre IH]; intros post se Hend.
  - cbn. repeat split; reflexivity.
  - destruct rd as [buf|e]; [|discriminate Hend].
    cbn [app readdevice_loop] in *.
    destruct (decode buf (status se)).1.1; [|discriminate Hend].
    cbn [ended final emitted reads_done] in *.
    destruct (IH post _ Hend) as (H1 & H2 & H3 & H4).
    rewrite H1, H2, H3, H4, app_assoc. repeat split; reflexivity.
Qed.

Lemma loop_continues_witness :
  emitted (readdevice_loop (mkShuttle true None (make_channels status_zero))
             ([ReadOk (report 3 0 0 0)] ++ [ReadOk (report 0 0 0 0)]))
  = [WheelPosition 3; WheelPosition 0].
Proof.
  destruct (loop_continues [ReadOk (report 3 0 0 0)] [ReadOk (report 0 0 0 0)]
              (mkShuttle true None (make_channels status_zero)) eq_refl)
    as (H & _).
  rewrite H. reflexivity.
Defined.

(** ** Where an iteration can stop *)


(** ** The guard of the statements for the buttons 2 to 5 *)













(** ** What an iteration can send *)

(** An event that the report [buf] can cause. *)
Definition event_of_report (buf : list Z) (ev : ControlEvent) : Prop :=
  match ev with
  | WheelPosition w => w = wheel_pos buf /\ -128 <= w <= 127
  | DialStep d => d = 1 \/ d = -1
  | ButtonEdge b pressed => pressed = button_bit b buf
  end.

Lemma decode_button_events b buf st :
  Forall (event_of_report buf) (decode_button b buf st).2.
Proof.
  rewrite decode_button_run. destruct (negb _ && _); [|constructor].
  destruct (button_chan b st); cbn [snd]; repeat constructor.
Qed.

Lemma bind_events (m k : M unit) st (P : ControlEvent -> Prop) :
  Forall P (m st).2 -> (forall st', Forall P (k st').2) ->
  Forall P (bind m (fun _ => k) st).2.
Proof.
  intros Hm Hk. unfold bind. destruct (m st).1.1; cbn [snd]; [|assumption].
  apply Forall_app. split; [assumption | apply Hk].
Qed.

Lemma decode_buttons_events buf st :
  Forall (event_of_report buf) (decode_buttons buf st).2.
Proof.
  unfold decode_buttons.
  repeat (apply bind_events; [apply decode_button_events | intros ?]).
  apply decode_button_events.
Qed.

(** X23 (what an iteration can send).  In any state of the channels, every
    event an iteration sends comes from the report it decodes: a wheel event
    carries the report's wheel byte read as a signed byte, a dial event
    carries 1 or -1 and nothing else, a button event carries the report's
    bit of that button.  The stored wheel value stays a signed byte and the
    stored counter an unsigned byte. *)
Theorem events_come_from_report :
  forall (buf : list Z) (st : ShuttleStatus),
    Forall (event_of_report buf) (decode buf st).2 /\
    (-128 <= wheel_value st <= 127 ->
     -128 <= wheel_value (decode buf st).1.2 <= 127) /\
    (0 <= dial_value st <= 255 ->
     0 <= dial_value (decode buf st).1.2 <= 255).
Proof.
  intros buf st.
  assert (Hwheel : forall st', Forall (event_of_report buf) (decode_wheel buf st').2).
  { intros st'. rewrite decode_wheel_run.
    destruct (negb _ && _); [|constructor].
    destruct (Wheel_position st'); cbn [snd]; repeat constructor.
    - apply (proj1 (int8_range _)).
    - apply (proj2 (int8_range _)). }
  assert (Hdial : forall st', Forall (event_of_report buf) (decode_dial buf st').2).
  { intros st'. rewrite decode_dial_run.
    destruct (negb _ && _); [|constructor].
    destruct (Z.eqb_spec (dial_delta buf st') 1) as [H1|_]; cbn [orb].
    - destruct (Dial_direction st'); cbn [snd]; [constructor | |constructor].
      constructor; [left; assumption | constructor].
    - destruct (Z.eqb_spec (dial_delta buf st') (-1)) as [Hm|_]; [|constructor].
      destruct (Dial_direction st'); cbn [snd]; [constructor | |constructor].
      constructor; [right; assumption | constructor]. }
  split; [|split].
  - unfold decode.
    apply bind_events; [apply Hwheel | intros st'].
    apply bind_events; [apply Hdial | intros st''].
    apply decode_buttons_events.
  - intros Hr. rewrite wheel_value_decode, decode_wheel_run.
    destruct (negb _ && _); [|assumption].
    destruct (Wheel_position st);
      cbn [fst snd wheel_value set_wheel_value]; try assumption.
    pose proof (int8_range (byte_at buf 0)). unfold wheel_pos. lia.
  - intros Hr.
    destruct (decode_wheel buf st).1.1 as [[]|] eqn:Hw;
      [|rewrite (decode_blocked_at_wheel buf st Hw); assumption].
    rewrite (dial_value_decode buf st Hw), decode_dial_run.
    pose proof (uint8_range (byte_at buf 1)) as Hu.
    destruct (negb _ && _); [|assumption].
    destruct ((_ =? 1) || (_ =? -1));
      [destruct (Dial_direction st)|];
      cbn [fst snd dial_value set_dial_value]; try assumption;
      unfold dial_pos; lia.
Qed.

Lemma events_come_from_report_witness :
  0 <= dial_value (decode (report 0 300 0 0) (make_channels status_zero)).1.2 <= 255.
Proof.
  destruct (events_come_from_report (report 0 300 0 0) (make_channels status_zero))
    as (_ & _ & H).
  apply H. cbn. lia.
Defined.

(** ** The layout of a report *)

Lemma land_single_bit (b : Z) (n : Z) :
  0 <= n -> (0 <? Z.land b (Z.shiftl 1 n)) = Z.testbit b n.
Proof.
  intros Hn. rewrite Z.shiftl_1_l.
  destruct (Z.testbit b n) eqn:Hb.
  - assert (Z.land b (2 ^ n) = 2 ^ n) as ->.
    { apply Z.bits_inj'. intros i Hi. rewrite Z.land_spec, Z.pow2_bits_eqb by assumption.
      destruct (Z.eqb_spec n i) as [<-|_]; [rewrite Hb; reflexivity|].
      apply andb_false_r. }
    apply Z.ltb_lt. apply Z.pow_pos_nonneg; lia.
  - assert (Z.land b (2 ^ n) = 0) as ->.
    { apply Z.bits_inj'. intros i Hi.
      rewrite Z.land_spec, Z.pow2_bits_eqb, Z.bits_0 by assumption.
      destruct (Z.eqb_spec n i) as [<-|_]; [rewrite Hb; reflexivity|].
      apply andb_false_r. }
    reflexivity.
Qed.

Lemma button_bit_testbit b buf :
  button_bit b buf =
    match b with
    | Button1 => Z.testbit (byte_at buf 3) 4
    | Button2 => Z.testbit (byte_at buf 3) 5
    | Button3 => Z.testbit (byte_at buf 3) 6
    | Button4 => Z.testbit (byte_at buf 3) 7
    | Button5 => Z.testbit (byte_at buf 4) 0
    end.
Proof. destruct b; unfold button_bit; apply land_single_bit; lia. Qed.

(** X24 (the fields of a report).  Button 1 to 4 are the bits 4 to 7 of
    byte 3 and button 5 is bit 0 of byte 4.  Nothing else of a report
    matters: two reports with the same bytes 0 and 1, the same bits 4 to 7 of
    byte 3 and the same bit 0 of byte 4 are decoded alike in every state,
    whatever their other bytes and bits are. *)
Theorem report_layout :
  (forall (b : button) (buf : list Z),
     button_bit b buf =
       match b with
       | Button1 => Z.testbit (byte_at buf 3) 4
       | Button2 => Z.testbit (byte_at buf 3) 5
       | Button3 => Z.testbit (byte_at buf 3) 6
       | Button4 => Z.testbit (byte_at buf 3) 7
       | Button5 => Z.testbit (byte_at buf 4) 0
       end) /\
  (forall (buf buf' : list Z) (st : ShuttleStatus),
     byte_at buf 0 = byte_at buf' 0 ->
     byte_at buf 1 = byte_at buf' 1 ->
     (forall i, 4 <= i <= 7 ->
        Z.testbit (byte_at buf 3) i = Z.testbit (byte_at buf' 3) i) ->
     Z.testbit (byte_at buf 4) 0 = Z.testbit (byte_at buf' 4) 0 ->
     decode buf st = decode buf' st).
Proof.
  split; [exact button_bit_testbit|].
  intros buf buf' st H0 H1 H3 H4.
  assert (Hw : wheel_pos buf = wheel_pos buf') by (unfold wheel_pos; congruence).
  assert (Hd : dial_pos buf = dial_pos buf') by (unfold dial_pos; congruence).
  assert (Hb : forall b, button_bit b buf = button_bit b buf').
  { intros b. rewrite !button_bit_testbit. destruct b; try assumption; apply H3; lia. }
  unfold decode, decode_buttons, decode_wheel, decode_dial, decode_button.
  rewrite Hw, Hd, !Hb. reflexivity.
Qed.

Lemma report_layout_witness :
  decode ([3; 17; 99; 16 + 7; 1 + 254] ++ List.repeat 55 43) (make_channels status_zero)
  = decode (report 3 17 16 1) (make_channels status_zero).
Proof.
  destruct report_layout as [_ H].
  apply (H ([3; 17; 99; 16 + 7; 1 + 254] ++ List.repeat 55 43) (report 3 17 16 1)).
  - reflexivity.
  - reflexivity.
  - intros i Hi.
    assert (i = 4 \/ i = 5 \/ i = 6 \/ i = 7) as [->|[->|[->| ->]]] by lia;
      reflexivity.
  - reflexivity.
Defined.

End DecoderFacts.

(* ===================================================================== *)
(** * Where the entries of the repeat table come from *)
(* ===================================================================== *)

Module DispatcherHistory.

Import Dispatcher DispatcherFacts.

(** The most recent command for controller [k] among the cases taken. *)
Fixpoint last_command_for (k : Z) (cases : list select_case)
  : option midiControllerCommand :=
  match cases with
  | [] => None
  | c :: rest =>
      match last_command_for k rest with
      | Some cmd => Some cmd
      | None =>
          match c with
          | RecvCommand cmd => if controller cmd =? k then Some cmd else None
          | _ => None
          end
      end
  end.

Lemma entry_history k cases : forall s e,
  no_quit cases ->
  repeatcmd (commandExecutor s cases).1 !! k = Some e ->
  match last_command_for k cases with
  | Some cmd => repeat cmd = true /\ tvalue e = value cmd
  | None => exists e0, repeatcmd s !! k = Some e0 /\ tvalue e0 = tvalue e
  end.
Proof.
  induction cases as [|c rest IH]; intros s e Hnq Hk.
  - exists e. split; [assumption | reflexivity].
  - apply Forall_cons in Hnq as [Hc Hrest].
    cbn [last_command_for].
    destruct c as [|cmd|]; [contradiction Hc; reflexivity| |];
      cbn [commandExecutor fst] in Hk;
      specialize (IH _ e Hrest Hk);
      destruct (last_command_for k rest) as [cmd'|]; try exact IH;
      destruct IH as (e0 & He0 & Hv).
    + destruct (Z.eqb_spec (controller cmd) k) as [Heq|Hne].
      * subst k. unfold on_command in He0. destruct (repeat cmd); cbn in He0.
        -- rewrite lookup_insert_eq in He0. injection He0 as <-.
           split; [reflexivity|]. rewrite <- Hv. reflexivity.
        -- rewrite lookup_delete_eq in He0. discriminate He0.
      * exists e0. split; [|assumption].
        rewrite <- (proj1 (on_command_other s cmd k Hne)). assumption.
    + rewrite on_tick_lookup in He0.
      destruct (repeatcmd s !! k) as [e1|]; cbn in He0; [|discriminate He0].
      exists e1. split; [reflexivity|]. rewrite <- Hv.
      unfold tick_one in He0. destruct (1 <? counter e1); [|discriminate He0].
      injection He0 as <-. reflexivity.
Qed.

(** X25 (where an entry comes from).  While the loop runs, every entry of
    the repeat table was put there by the most recent command for its
    controller: that command asked for repetition, and the entry carries its
    value.  So once the most recent command for a controller is one without
    repetition, the table has no entry for it, however many ticks and
    commands for other controllers have been handled. *)
Theorem entries_come_from_last_command :
  forall (cases : list select_case) (k : Z),
    no_quit cases ->
    (forall e : tickstruct,
       repeatcmd (commandExecutor executor_init cases).1 !! k = Some e ->
       exists cmd, last_command_for k cases = Some cmd /\
                   repeat cmd = true /\ tvalue e = value cmd) /\
    (forall cmd : midiControllerCommand,
       last_command_for k cases = Some cmd ->
       repeat cmd = false ->
       repeatcmd (commandExecutor executor_init cases).1 !! k = None).
Proof.
  intros cases k Hnq. split.
  - intros e Hk. pose proof (entry_history k cases executor_init e Hnq Hk) as H.
    destruct (last_command_for k cases) as [cmd|].
    + exists cmd. split; [reflexivity | exact H].
    + destruct H as (e0 & He0 & _). cbn in He0. rewrite lookup_empty in He0.
      discriminate He0.
  - intros cmd Hlast Hr.
    destruct (repeatcmd (commandExecutor executor_init cases).1 !! k) as [e|] eqn:Hk;
      [|reflexivity].
    pose proof (entry_history k cases executor_init e Hnq Hk) as H.
    rewrite Hlast in H. destruct H as [H _]. congruence.
Qed.

Lemma entries_come_from_last_command_witness :
  repeatcmd
    (commandExecutor executor_init
       [RecvCommand (mkCommand 0 90 true); RecvTick;
        RecvCommand (mkCommand 0 255 false); RecvCommand (mkCommand 1 36 true);
        RecvTick]).1 !! 0 = None.
Proof.
  destruct (entries_come_from_last_command
              [RecvCommand (mkCommand 0 90 true); RecvTick;
               RecvCommand (mkCommand 0 255 false); RecvCommand (mkCommand 1 36 true);
               RecvTick] 0) as [_ H].
  - repeat constructor; discriminate.
  - apply (H (mkCommand 0 255 false)); reflexivity.
Defined.

End DispatcherHistory.
